(** * ShotGenerator: the drafting table of the storyboard studio

    A shallow embedding of the state logic of
    [src/components/ShotGenerator.tsx]: the pending-pair store, the three
    batch placement policies of the drop zones and the sequential batch
    processor that turns pending pairs into shots of the project.

    React state is modelled by explicit state passing: a functional update
    [setPendingPairs(prev => f prev)] is the function [f] applied to the
    list held in the state.  The handlers are modelled running to
    completion, one after the other, so the list captured by a handler's
    closure is the list of the state it starts from.  Of the markup, the
    handlers written inline and what is computed from the state are
    modelled; class names, icons and text direction are not. *)

From Stdlib Require Import ZArith String Ascii List Bool Lia Sorted.
From stdpp Require Import base list strings gmap.

Local Open Scope list_scope.

(** ** Data model *)

(** [status: 'idle' | 'processing' | 'completed' | 'error'] *)
Inductive Status : Type := idle | processing | completed | error.

Definition Status_eqb (a b : Status) : bool :=
  match a, b with
  | idle, idle | processing, processing
  | completed, completed | error, error => true
  | _, _ => false
  end.

(** [interface PendingPair]; [None] is JavaScript's [null]. *)
Record PendingPair : Type := mkPair {
  id : string;
  source : option string;
  target : option string;
  status : Status
}.

(** Modelled from the spec: the [Shot] type, declared in [../types]: an
    identity, the integer [sequenceOrder], the three texts of the analysis,
    the two images of the pair and the fixed generation metadata.  These are
    the fields [processBatch] writes; an analysis text the result lacks is
    [None]. *)
Record Shot : Type := mkShot {
  shot_id : string;
  sequenceOrder : Z;
  topic : string;
  visualAnalysis : option string;
  actionPrompt : option string;
  sourceImage : string;
  targetImage : string;
  model : string;
  aspectRatio : string;
  resolution : string
}.

(** Modelled from the spec: the [Project] type, declared in [../types]: the
    shots and the configurable [startingSequenceNumber].  Sequence numbers
    are JavaScript numbers holding integers. *)
Record Project : Type := mkProject {
  startingSequenceNumber : Z;
  shots : list Shot
}.

(** A browser [File]: its MIME [type] and what [FileReader.readAsDataURL]
    delivers for it in [reader.result]. *)
Record File : Type := mkFile {
  file_type : string;
  dataURL : string
}.

(** The field a single-slot upload writes: ['source' | 'target']. *)
Inductive SlotType : Type := source_slot | target_slot.

(** The zone of a batch drop: ['alpha' | 'beta' | 'mixed']. *)
Inductive DropType : Type := alpha | beta | mixed.

(** ** JavaScript truthiness and the two [||] defaults *)

(** A [string | null] value is truthy when it is a non-empty string. *)
Definition truthy (v : option string) : bool :=
  match v with
  | Some s => negb (String.eqb s "")
  | None => false
  end.

(** [v || null] *)
Definition or_null (v : option string) : option string :=
  if truthy v then v else None.

(** [v || d] for a string default [d] *)
Definition or_string (v : option string) (d : string) : string :=
  match v with
  | Some s => if String.eqb s "" then d else s
  | None => d
  end.

(** [n || d] on numbers: [0] is the falsy integer. *)
Definition or_number (n d : Z) : Z := if Z.eqb n 0 then d else n.

(** ** Numbers

    A JavaScript number is an IEEE 754 double.  The sequence numbers are
    integers, so a number is given by the integer it holds, and the result
    of an addition is the double nearest to the exact sum, the one with the
    even significand at a tie.  [roundToDouble] is that double: an integer
    of size up to [2^53] is a double; of a greater one the 53 leading bits
    are kept, rounded by the rest. *)
Definition roundToDouble (z : Z) : Z :=
  let a := Z.abs z in
  if (a <=? 2 ^ 53)%Z then z
  else
    let e := (Z.log2 a - 52)%Z in
    let q := (a / 2 ^ e)%Z in
    let r := (a mod 2 ^ e)%Z in
    let half := (2 ^ (e - 1))%Z in
    let q' := if (r <? half)%Z then q
              else if (half <? r)%Z then (q + 1)%Z
              else if Z.even q then q else (q + 1)%Z in
    (Z.sgn z * (q' * 2 ^ e))%Z.

(** [a + b] on numbers that hold integers. *)
Definition addNumbers (a b : Z) : Z := roundToDouble (a + b).

(** The value [n++] leaves in [n]. *)
Definition increment (n : Z) : Z := addNumbers n 1.

(** [n] after [k] increments. *)
Definition ticks (k : nat) (n : Z) : Z := Nat.iter k increment n.

(** [f.type.startsWith('image/')] *)
Definition isImage (f : File) : bool := String.prefix "image/" (file_type f).

(** [processFile]: resolves with [reader.result] once the read has ended. *)
Definition processFile (file : File) : string := dataURL file.

(** [{ ...p, status: s }] *)
Definition with_status (p : PendingPair) (s : Status) : PendingPair :=
  mkPair (id p) (source p) (target p) s.

(** [{ ...p, [type]: base64 }] *)
Definition with_field (p : PendingPair) (type : SlotType) (base64 : string)
  : PendingPair :=
  match type with
  | source_slot => mkPair (id p) (Some base64) (target p) (status p)
  | target_slot => mkPair (id p) (source p) (Some base64) (status p)
  end.

(** [{ id: crypto.randomUUID(), source: null, target: null, status: 'idle' }] *)
Definition emptyPair (uuid : string) : PendingPair :=
  mkPair uuid None None idle.

(** [p.status !== 'completed'] *)
Definition notCompleted (p : PendingPair) : bool :=
  negb (Status_eqb (status p) completed).

(** ** The pending-pair store

    [crypto.randomUUID] is the environment's: [randomUUID n] is what its
    call number [n] returns, and every operation threads the number of
    calls made so far. *)

Section Store.

Variable randomUUID : nat -> string.

(** The list together with the number of identifiers drawn so far. *)
Definition Pending : Type := (list PendingPair * nat)%type.

(** [addPair] *)
Definition addPair (st : Pending) : Pending :=
  let '(prev, u) := st in
  (prev ++ [emptyPair (randomUUID u)], S u).

(** [removePendingPair] *)
Definition removePendingPair (id0 : string) (st : Pending) : Pending :=
  let '(pendingPairs, u) := st in
  if length pendingPairs <=? 1
  then ([emptyPair (randomUUID u)], S u)
  else (filter (fun p => negb (String.eqb (id p) id0)) pendingPairs, u).

(** [prev.map(p => p.id === id ? { ...p, [type]: base64 } : p)] *)
Definition setField (id0 : string) (type : SlotType) (base64 : string)
    (prev : list PendingPair) : list PendingPair :=
  map (fun p => if String.eqb (id p) id0 then with_field p type base64 else p)
      prev.

(** [handleImageUpload] *)
Definition handleImageUpload (id0 : string) (file : File) (type : SlotType)
    (st : Pending) : Pending :=
  if negb (isImage file) then st
  else
    let base64 := processFile file in
    let '(prev, u) := st in
    (setField id0 type base64 prev, u).

(** [handleDropSlot]: the first dropped file, if there is one. *)
Definition handleDropSlot (files : list File) (id0 : string) (type : SlotType)
    (st : Pending) : Pending :=
  match files with
  | file :: _ => handleImageUpload id0 file type st
  | [] => st
  end.

(** [prev.map(p => p.id === pair.id ? { ...p, status: s } : p)] *)
Definition setStatus (id0 : string) (s : Status) (prev : list PendingPair)
  : list PendingPair :=
  map (fun p => if String.eqb (id p) id0 then with_status p s else p) prev.

(** The body of [base64Files.forEach((img, i) => ...)] of the alpha and beta
    zones, from index [i] on: an existing [currentPairs[i]] gets the image in
    its column, otherwise a pair is pushed.  The assignment
    [currentPairs[i].source = img] is given here by the list it leaves;
    module [Refs] below gives the object it writes to. *)
Fixpoint forEachColumn (type : SlotType) (base64Files : list string) (i : nat)
    (currentPairs : list PendingPair) (u : nat) : Pending :=
  match base64Files with
  | [] => (currentPairs, u)
  | img :: rest =>
      match currentPairs !! i with
      | Some p =>
          forEachColumn type rest (S i)
            (<[i := with_field p type img]> currentPairs) u
      | None =>
          forEachColumn type rest (S i)
            (currentPairs ++ [with_field (emptyPair (randomUUID u)) type img])
            (S u)
      end
  end.

(** The loop [for (let i = 0; i < base64Files.length; i += 2)] of the mixed
    zone, on the files from index [i] on: [img] is [base64Files[i]] and the
    file after it, when there is one, is [base64Files[i+1]]. *)
Fixpoint newPairsOf (base64Files : list string) (u : nat) : Pending :=
  match base64Files with
  | [] => ([], u)
  | [img] =>
      ([mkPair (randomUUID u) (Some img) (or_null None) idle], S u)
  | img :: next :: rest =>
      let '(more, u') := newPairsOf rest (S u) in
      (mkPair (randomUUID u) (Some img) (or_null (Some next)) idle :: more, u')
  end.

(** [handleBatchDrop] *)
Definition handleBatchDrop (dropped : list File) (type : DropType)
    (st : Pending) : Pending :=
  let files := filter isImage dropped in
  if length files =? 0 then st
  else
    let base64Files := map processFile files in
    let '(prev, u) := st in
    match type with
    | alpha => forEachColumn source_slot base64Files 0 prev u
    | beta => forEachColumn target_slot base64Files 0 prev u
    | mixed =>
        let '(newPairs, u') := newPairsOf base64Files u in
        (filter (fun p => truthy (source p) || truthy (target p)) prev
           ++ newPairs, u')
    end.

(** The purge that ends [processBatch]. *)
Definition purgeCompleted (st : Pending) : Pending :=
  let '(prev, u) := st in
  let filtered := filter notCompleted prev in
  if 0 <? length filtered then (filtered, u)
  else ([emptyPair (randomUUID u)], S u).

End Store.

(** ** The analysis service

    The request [processBatch] builds for [ai.models.generateContent]. *)

(** [Type.OBJECT], [Type.STRING] of the service's schema language. *)
Inductive SchemaType : Type := OBJECT | STRING.

Record InlineData : Type := mkInlineData {
  data : option string;
  mimeType : string
}.

Inductive Part : Type :=
  | text_part (text : string)
  | inlineData_part (inlineData : InlineData).

Record ResponseSchema : Type := mkSchema {
  schema_type : SchemaType;
  properties : list (string * SchemaType);
  required : list string
}.

Record Config : Type := mkConfig {
  responseMimeType : string;
  responseSchema : ResponseSchema
}.

Record Request : Type := mkRequest {
  request_model : string;
  parts : list Part;
  config : Config
}.

(** [response.text], which may be undefined. *)
Record Response : Type := mkResponse { response_text : option string }.

(** The fields the component reads off the parsed result; [None] is an
    absent (undefined) field. *)
Record AnalysisResult : Type := mkResult {
  result_topic : option string;
  analysis : option string;
  prompt : option string
}.

(** What [JSON.parse] returns, as far as the component reads it: [null], on
    which the read of a field throws, or a value with the three fields the
    component reads (a value without fields, as a number or a string, has
    them all absent). *)
Inductive Json : Type :=
  | json_null
  | json_value (fields : AnalysisResult).

(** How an expression that may throw completes. *)
Inductive Completion (A : Type) : Type :=
  | Normal (a : A)
  | Throw (err : string).
Arguments Normal {A} a.
Arguments Throw {A} err.

(** [s.split(sep)] for a one-character separator. *)
Fixpoint split (sep : ascii) (s : string) : list string :=
  match s with
  | EmptyString => [EmptyString]
  | String c s' =>
      if Ascii.eqb c sep then EmptyString :: split sep s'
      else match split sep s' with
           | piece :: pieces => String c piece :: pieces
           | [] => [String c EmptyString]
           end
  end.

(** The template literal of [systemInstruction]. *)
Definition systemInstruction (styleDirective : string) : string :=
  ("Cinematic Sequence Analyzer. Style: " +:+ styleDirective +:+
   ". bridge frames with logical, high-fidelity motion. Output JSON.")%string.

(** The argument of [generateContent] for the images [src] and [tgt]. *)
Definition analysisRequest (styleDirective src tgt : string) : Request :=
  mkRequest "gemini-3-flash-preview"
    [ text_part (systemInstruction styleDirective);
      inlineData_part (mkInlineData (split "," src !! 1) "image/png");
      inlineData_part (mkInlineData (split "," tgt !! 1) "image/png") ]
    (mkConfig "application/json"
       (mkSchema OBJECT
          [("topic", STRING); ("analysis", STRING); ("prompt", STRING)]
          ["topic"; "analysis"; "prompt"])).

(** ** The component

    What the callbacks of the props and the service client were called
    with, oldest first. *)
Inductive Event : Type :=
  | EvBusy (busy : bool)                      (* setIsStudioBusy(busy) *)
  | EvGenerate (req : Request)                (* ai.models.generateContent(req) *)
  | EvApiError (err : string) (context : string). (* onApiError(err, context) *)

Record State : Type := mkState {
  pendingPairs : list PendingPair;
  styleDirective : string;
  project : Project;
  uuids : nat;
  trace : list Event
}.

Definition isBusyEvent (e : Event) : bool :=
  match e with EvBusy _ => true | _ => false end.

Definition isGenerateEvent (e : Event) : bool :=
  match e with EvGenerate _ => true | _ => false end.

Definition isApiErrorEvent (e : Event) : bool :=
  match e with EvApiError _ _ => true | _ => false end.

(** [setPendingPairs(prev => f prev)] *)
Definition setPendingPairs (f : list PendingPair -> list PendingPair)
    (st : State) : State :=
  mkState (f (pendingPairs st)) (styleDirective st) (project st) (uuids st)
    (trace st).

(** Modelled from the spec: the project update callback of the props, whose
    implementation is the parent component's.  It accepts a function from
    the previous project to the new one and replaces the project by its
    result. *)
Definition onUpdateProject (updater : Project -> Project) (st : State)
  : State :=
  mkState (pendingPairs st) (styleDirective st) (updater (project st))
    (uuids st) (trace st).

(** A call of a callback or of the service, recorded. *)
Definition emit (e : Event) (st : State) : State :=
  mkState (pendingPairs st) (styleDirective st) (project st) (uuids st)
    (trace st ++ [e]).

(** The pending list and the identifier count of a state. *)
Definition pendingOf (st : State) : Pending := (pendingPairs st, uuids st).

Definition withPending (st : State) (pu : Pending) : State :=
  mkState (fst pu) (styleDirective st) (project st) (snd pu) (trace st).

(** [p.source && p.target && p.status !== 'completed'] *)
Definition isValid (p : PendingPair) : bool :=
  truthy (source p) && truthy (target p) && notCompleted p.

(** [{ ...prev, shots: [...prev.shots, newShot] }] *)
Definition appendShot (newShot : Shot) (prev : Project) : Project :=
  mkProject (startingSequenceNumber prev) (shots prev ++ [newShot]).

(** The trash button of a shot:
    [{ ...prev, shots: prev.shots.filter(s => s.id !== shot.id) }] *)
Definition deleteShot (id0 : string) (prev : Project) : Project :=
  mkProject (startingSequenceNumber prev)
    (filter (fun s => negb (String.eqb (shot_id s) id0)) (shots prev)).

(** [n || d] where [n] is the result of [parseInt]: [None] is [NaN]. *)
Definition or_parsed (n : option Z) (d : Z) : Z :=
  match n with
  | Some z => or_number z d
  | None => d
  end.

(** The "Plate # Start" field, [onChange]:
    [{ ...prev, startingSequenceNumber: parseInt(e.target.value) || 1 }];
    [parsed] is what [parseInt] makes of the text of the field. *)
Definition changeStart (parsed : option Z) (prev : Project) : Project :=
  mkProject (or_parsed parsed 1) (shots prev).

(** The style directive field, [onChange]: [setStyleDirective(e.target.value)] *)
Definition setStyleDirective (text : string) (st : State) : State :=
  mkState (pendingPairs st) text (project st) (uuids st) (trace st).

(** ** The batch processor

    The environment of a batch: [generateContent j req] is how the service
    call made for pair number [j] of the batch completes (a rejected
    promise is a [Throw]); [JSON_parse] is [JSON.parse]: it throws on a
    text that is not JSON, or gives the value the text denotes;
    [onApiError] tells whether the optional error callback of the props was
    supplied. *)

Record Env : Type := mkEnv {
  randomUUID : nat -> string;
  generateContent : nat -> Request -> Completion Response;
  JSON_parse : string -> Completion Json;
  onApiError : bool
}.

Section Processor.

Variable env : Env.

(** One more [crypto.randomUUID()] has been drawn. *)
Definition drawn (st : State) : State :=
  mkState (pendingPairs st) (styleDirective st) (project st) (S (uuids st))
    (trace st).

(** The [catch (err)] block. *)
Definition catchBlock (pair : PendingPair) (err : string) (st : State)
  : State :=
  let st := setPendingPairs (setStatus (id pair) error) st in
  if onApiError env then emit (EvApiError err "Analysis") st else st.

(** The [try] block up to [JSON.parse]: the request that was sent, if one
    was, and the parsed value or the exception. *)
Definition analyse (j : nat) (styleDirective : string) (pair : PendingPair)
  : option Request * Completion Json :=
  match source pair, target pair with
  | Some src, Some tgt =>
      let req := analysisRequest styleDirective src tgt in
      (Some req,
       match generateContent env j req with
       | Throw err => Throw err
       | Normal response =>
           JSON_parse env (or_string (response_text response) "{}")
       end)
  | _, _ => (None, Throw "TypeError")
  end.

(** [const newShot: Shot = { ... }] *)
Definition newShotOf (uuid : string) (currentSequenceCount : Z)
    (result : AnalysisResult) (pair : PendingPair) : Shot :=
  mkShot uuid currentSequenceCount
    (or_string (result_topic result) "Sequence Segment")
    (analysis result) (prompt result)
    (default ""%string (source pair)) (default ""%string (target pair))
    "veo-3.1-generate-preview" "16:9" "1080p".

(** The body of [for (const pair of validPairs)] for pair number [j]; the
    running [currentSequenceCount] goes in and comes out.  The object
    literal of [newShot] is evaluated field by field: [crypto.randomUUID()]
    and [currentSequenceCount++] have run when [result.topic] is read, so a
    parsed [null], on which that read throws, has used up an identifier and
    a number when the [catch] block is entered. *)
Definition processPair (j : nat) (pair : PendingPair)
    (acc : State * Z) : State * Z :=
  let '(st, currentSequenceCount) := acc in
  let st := setPendingPairs (setStatus (id pair) processing) st in
  let '(sent, completion) := analyse j (styleDirective st) pair in
  let st := match sent with
            | Some req => emit (EvGenerate req) st
            | None => st
            end in
  match completion with
  | Normal (json_value result) =>
      let newShot :=
        newShotOf (randomUUID env (uuids st)) currentSequenceCount result pair in
      let st := drawn st in
      let st := onUpdateProject (appendShot newShot) st in
      let st := setPendingPairs (setStatus (id pair) completed) st in
      (st, increment currentSequenceCount)
  | Normal json_null =>
      let st := drawn st in
      (catchBlock pair "TypeError" st, increment currentSequenceCount)
  | Throw err => (catchBlock pair err st, currentSequenceCount)
  end.

(** The [for ... of] loop, from pair number [j] on. *)
Fixpoint forOf (validPairs : list PendingPair) (j : nat) (acc : State * Z)
  : State * Z :=
  match validPairs with
  | [] => acc
  | p :: rest => forOf rest (S j) (processPair j p acc)
  end.

(** [processBatch] *)
Definition processBatch (st : State) : State :=
  let validPairs := filter isValid (pendingPairs st) in
  if length validPairs =? 0 then st
  else
    let st1 := emit (EvBusy true) st in
    let currentSequenceCount :=
      addNumbers (or_number (startingSequenceNumber (project st)) 1)
        (Z.of_nat (length (shots (project st)))) in
    let '(st2, _) := forOf validPairs 0 (st1, currentSequenceCount) in
    let st3 := emit (EvBusy false) st2 in
    withPending st3 (purgeCompleted (randomUUID env) (pendingOf st3)).

(** The handlers of the panel that write the pending list, the style
    directive or the project, as the events of the panel.  (The drag
    highlight is a state of its own, given further down.) *)
Inductive Operation : Type :=
  | DoAddPair
  | DoRemovePendingPair (id0 : string)
  | DoImageUpload (id0 : string) (file : File) (type : SlotType)
  | DoDropSlot (files : list File) (id0 : string) (type : SlotType)
  | DoBatchDrop (dropped : list File) (type : DropType)
  | DoProcessBatch
  | DoSetStyleDirective (text : string)
  | DoChangeStart (parsed : option Z)
  | DoDeleteShot (id0 : string).

Definition perform (op : Operation) (st : State) : State :=
  match op with
  | DoAddPair => withPending st (addPair (randomUUID env) (pendingOf st))
  | DoRemovePendingPair id0 =>
      withPending st (removePendingPair (randomUUID env) id0 (pendingOf st))
  | DoImageUpload id0 file type =>
      withPending st (handleImageUpload id0 file type (pendingOf st))
  | DoDropSlot files id0 type =>
      withPending st (handleDropSlot files id0 type (pendingOf st))
  | DoBatchDrop dropped type =>
      withPending st (handleBatchDrop (randomUUID env) dropped type (pendingOf st))
  | DoProcessBatch => processBatch st
  | DoSetStyleDirective text => setStyleDirective text st
  | DoChangeStart parsed => onUpdateProject (changeStart parsed) st
  | DoDeleteShot id0 => onUpdateProject (deleteShot id0) st
  end.

End Processor.

(** The state of the panel when it is mounted on [proj]: one empty plate and
    the default style directive. *)
Definition initialState (uuidOf : nat -> string) (proj : Project) : State :=
  mkState [emptyPair (uuidOf 0)]
    "Cinematic storyboards, high-fidelity textures, detailed lighting, dynamic action sequence."
    proj 1 [].

(** A session of the panel.  [crypto.randomUUID] is one supply of
    identifiers for the whole session; the service, and whether the error
    callback is supplied, are those of the moment: a call that was rejected
    in one batch may be answered in the next.  A step is an operation with
    the environment it runs in, of which [inSession] keeps all but the
    identifiers. *)
Definition inSession (uuidOf : nat -> string) (world : Env) : Env :=
  mkEnv uuidOf (generateContent world) (JSON_parse world) (onApiError world).

(** The panel after a sequence of steps. *)
Definition run (uuidOf : nat -> string) (steps : list (Env * Operation))
    (st : State) : State :=
  fold_left (fun st step => perform (inSession uuidOf (fst step)) (snd step) st)
    steps st.

(** ** The store with object identity

    A JavaScript array holds references.  To see what an operation does to
    the pair objects of the list it started from, the same operations are
    given over a heap of pair objects: a list is a list of locations,
    [{ ...p, f: v }] and an object literal allocate, and an assignment
    [currentPairs[i].source = img] writes through the reference.
    [view] reads a list of locations back as the list of pairs above. *)

Module Refs.

(** A location is an index into the heap. *)
Abbreviation loc := nat (only parsing).

(** The heap, the array of references and the identifiers drawn so far. *)
Record Store : Type := mkStore {
  heap : list PendingPair;
  refs : list loc;
  uuids : nat
}.

(** A new object: it is put at the end of the heap. *)
Definition alloc (h : list PendingPair) (o : PendingPair)
  : list PendingPair * loc :=
  (h ++ [o], length h).

(** The pairs an array of references denotes in a heap. *)
Definition view (h : list PendingPair) (arr : list loc) : list PendingPair :=
  omap (fun l => h !! l) arr.

(** [arr.map(p => c(p) ? { ...p, changed } : p)]: where the callback builds
    an object ([rebuild] gives [Some]), it is allocated; elsewhere the
    reference itself is the result. *)
Fixpoint mapRefs (rebuild : PendingPair -> option PendingPair)
    (h : list PendingPair) (arr : list loc) : list PendingPair * list loc :=
  match arr with
  | [] => (h, [])
  | l :: rest =>
      match h !! l ≫= rebuild with
      | Some o =>
          let '(h1, l') := alloc h o in
          let '(h2, rest') := mapRefs rebuild h1 rest in
          (h2, l' :: rest')
      | None =>
          let '(h2, rest') := mapRefs rebuild h rest in
          (h2, l :: rest')
      end
  end.

(** The callback of a [filter] at a reference. *)
Definition holdsAt (keep : PendingPair -> bool) (h : list PendingPair)
    (l : loc) : bool :=
  match h !! l with
  | Some p => keep p
  | None => false
  end.

(** [arr.filter(p => keep(p))] *)
Definition filterRefs (keep : PendingPair -> bool) (h : list PendingPair)
    (arr : list loc) : list loc :=
  filter (fun l => holdsAt keep h l) arr.

Section Store.

Variable randomUUID : nat -> string.

Definition addPair (st : Store) : Store :=
  let '(h, l) := alloc (heap st) (emptyPair (randomUUID (uuids st))) in
  mkStore h (refs st ++ [l]) (S (uuids st)).

Definition removePendingPair (id0 : string) (st : Store) : Store :=
  if length (refs st) <=? 1
  then
    let '(h, l) := alloc (heap st) (emptyPair (randomUUID (uuids st))) in
    mkStore h [l] (S (uuids st))
  else
    mkStore (heap st)
      (filterRefs (fun p => negb (String.eqb (id p) id0)) (heap st) (refs st))
      (uuids st).

Definition setField (id0 : string) (type : SlotType) (base64 : string)
    (st : Store) : Store :=
  let '(h, arr) :=
    mapRefs (fun p => if String.eqb (id p) id0
                      then Some (with_field p type base64) else None)
            (heap st) (refs st) in
  mkStore h arr (uuids st).

Definition handleImageUpload (id0 : string) (file : File) (type : SlotType)
    (st : Store) : Store :=
  if negb (isImage file) then st
  else setField id0 type (processFile file) st.

Definition setStatus (id0 : string) (s : Status) (st : Store) : Store :=
  let '(h, arr) :=
    mapRefs (fun p => if String.eqb (id p) id0
                      then Some (with_status p s) else None)
            (heap st) (refs st) in
  mkStore h arr (uuids st).

(** The [forEach] of the alpha and beta zones: [currentPairs[i].source = img]
    (or [.target]) assigns to the object [currentPairs[i]] refers to. *)
Fixpoint forEachColumn (type : SlotType) (base64Files : list string) (i : nat)
    (h : list PendingPair) (currentPairs : list loc) (u : nat) : Store :=
  match base64Files with
  | [] => mkStore h currentPairs u
  | img :: rest =>
      match currentPairs !! i with
      | Some l =>
          forEachColumn type rest (S i)
            (alter (fun p => with_field p type img) l h) currentPairs u
      | None =>
          let '(h', l) :=
            alloc h (with_field (emptyPair (randomUUID u)) type img) in
          forEachColumn type rest (S i) h' (currentPairs ++ [l]) (S u)
      end
  end.

(** The loop of the mixed zone: every new pair is a new object. *)
Fixpoint newPairsOf (base64Files : list string) (h : list PendingPair)
    (u : nat) : Store :=
  match base64Files with
  | [] => mkStore h [] u
  | [img] =>
      let '(h', l) :=
        alloc h (mkPair (randomUUID u) (Some img) (or_null None) idle) in
      mkStore h' [l] (S u)
  | img :: next :: rest =>
      let '(h', l) :=
        alloc h (mkPair (randomUUID u) (Some img) (or_null (Some next)) idle) in
      let more := newPairsOf rest h' (S u) in
      mkStore (heap more) (l :: refs more) (uuids more)
  end.

Definition handleBatchDrop (dropped : list File) (type : DropType)
    (st : Store) : Store :=
  let files := filter isImage dropped in
  if length files =? 0 then st
  else
    let base64Files := map processFile files in
    (* let currentPairs = [...prev]: a new array of the same references *)
    let currentPairs := refs st in
    match type with
    | alpha =>
        forEachColumn source_slot base64Files 0 (heap st) currentPairs (uuids st)
    | beta =>
        forEachColumn target_slot base64Files 0 (heap st) currentPairs (uuids st)
    | mixed =>
        let new := newPairsOf base64Files (heap st) (uuids st) in
        mkStore (heap new)
          (filterRefs (fun p => truthy (source p) || truthy (target p))
                      (heap st) currentPairs ++ refs new)
          (uuids new)
    end.

Definition purgeCompleted (st : Store) : Store :=
  let filtered := filterRefs notCompleted (heap st) (refs st) in
  if 0 <? length filtered then mkStore (heap st) filtered (uuids st)
  else
    let '(h, l) := alloc (heap st) (emptyPair (randomUUID (uuids st))) in
    mkStore h [l] (S (uuids st)).

End Store.

(** What a store denotes: the list of pairs and the identifier count. *)
Definition denote (st : Store) : Pending := (view (heap st) (refs st), uuids st).

(** Every reference of the array points into the heap, and no object is
    referred to twice. *)
Definition wf (st : Store) : Prop :=
  Forall (fun l => l < length (heap st)) (refs st) /\ NoDup (refs st).

(** The heap [h'] holds every object of [h] where it was. *)
Definition preserves (h h' : list PendingPair) : Prop :=
  forall l o, h !! l = Some o -> h' !! l = Some o.

End Refs.

(** ** Vocabulary of the statements *)

(** The image field a slot type names, and the other one. *)
Definition field (type : SlotType) (p : PendingPair) : option string :=
  match type with
  | source_slot => source p
  | target_slot => target p
  end.

Definition otherSlot (type : SlotType) : SlotType :=
  match type with
  | source_slot => target_slot
  | target_slot => source_slot
  end.

(** The drop zone that fills a column. *)
Definition zoneOf (type : SlotType) : DropType :=
  match type with
  | source_slot => alpha
  | target_slot => beta
  end.

(** The decoded images of a drop, in order. *)
Definition decoded (dropped : list File) : list string :=
  map processFile (filter isImage dropped).

(** What a batch does, pair by pair.  [outcome j sd pair] is how the [try]
    block of pair number [j] ends; the other functions collect, along the
    pairs of a batch from number [j] on, the shots made, the events recorded
    and the status each pair is left with. *)

Section Outcomes.

Variable env : Env.

(** What [JSON.parse] gave for pair [j], or the exception before it. *)
Definition parsed (j : nat) (sd : string) (pair : PendingPair)
  : Completion Json :=
  snd (analyse env j sd pair).

(** How the [try] block of pair [j] ends: with the result a shot is made
    of, or with an exception, which for a parsed [null] is the [TypeError]
    of the read of its [topic]. *)
Definition outcome (j : nat) (sd : string) (pair : PendingPair)
  : Completion AnalysisResult :=
  match parsed j sd pair with
  | Normal (json_value result) => Normal result
  | Normal json_null => Throw "TypeError"
  | Throw err => Throw err
  end.

(** Pair [j] uses up an identifier and a sequence number: its response was
    parsed, to a value or to [null]. *)
Definition consumes (j : nat) (sd : string) (pair : PendingPair) : bool :=
  match parsed j sd pair with
  | Normal _ => true
  | Throw _ => false
  end.

(** The service call of pair [j] succeeds: it yields a parsed result. *)
Definition succeeds (j : nat) (sd : string) (pair : PendingPair) : bool :=
  match outcome j sd pair with
  | Normal _ => true
  | Throw _ => false
  end.

Definition finalStatus (j : nat) (sd : string) (pair : PendingPair)
  : Status :=
  if succeeds j sd pair then completed else error.

(** The number of pairs of [vs], numbered from [j], that succeed. *)
Fixpoint successCount (j : nat) (sd : string) (vs : list PendingPair) : nat :=
  match vs with
  | [] => 0
  | p :: rest =>
      (if succeeds j sd p then 1 else 0) + successCount (S j) sd rest
  end.

(** The number of pairs of [vs], numbered from [j], that use up an
    identifier and a sequence number. *)
Fixpoint numbersUsed (j : nat) (sd : string) (vs : list PendingPair) : nat :=
  match vs with
  | [] => 0
  | p :: rest =>
      (if consumes j sd p then 1 else 0) + numbersUsed (S j) sd rest
  end.

(** The shots of the pairs that succeed, when the next identifier is number
    [u] and the counter holds [c]. *)
Fixpoint shotsMade (j : nat) (sd : string) (vs : list PendingPair) (u : nat)
    (c : Z) : list Shot :=
  match vs with
  | [] => []
  | p :: rest =>
      match outcome j sd p with
      | Normal result =>
          newShotOf (randomUUID env u) c result p
            :: shotsMade (S j) sd rest (S u) (increment c)
      | Throw _ =>
          if consumes j sd p then shotsMade (S j) sd rest (S u) (increment c)
          else shotsMade (S j) sd rest u c
      end
  end.

(** The events of one pair: the request sent, then the report of a failure
    when the error callback was supplied. *)
Definition pairEvents (j : nat) (sd : string) (pair : PendingPair)
  : list Event :=
  match fst (analyse env j sd pair) with
  | Some req => [EvGenerate req]
  | None => []
  end ++
  match outcome j sd pair with
  | Throw err => if onApiError env then [EvApiError err "Analysis"] else []
  | Normal _ => []
  end.

Fixpoint batchEvents (j : nat) (sd : string) (vs : list PendingPair)
  : list Event :=
  match vs with
  | [] => []
  | p :: rest => pairEvents j sd p ++ batchEvents (S j) sd rest
  end.

(** The statuses written along the batch, on a list [l]. *)
Fixpoint marked (j : nat) (sd : string) (vs : list PendingPair)
    (l : list PendingPair) : list PendingPair :=
  match vs with
  | [] => l
  | p :: rest =>
      marked (S j) sd rest (setStatus (id p) (finalStatus j sd p) l)
  end.

(** The pair [q] of the list once the batch has gone over [vs]: it carries
    the final status of the first pair of [vs] that has its id. *)
Fixpoint relabel (j : nat) (sd : string) (vs : list PendingPair)
    (q : PendingPair) : PendingPair :=
  match vs with
  | [] => q
  | p :: rest =>
      if String.eqb (id q) (id p) then with_status q (finalStatus j sd p)
      else relabel (S j) sd rest q
  end.

(** The pairs of [vs], numbered from [j], that succeed, in order. *)
Fixpoint succeeded (j : nat) (sd : string) (vs : list PendingPair)
  : list PendingPair :=
  match vs with
  | [] => []
  | p :: rest =>
      if succeeds j sd p then p :: succeeded (S j) sd rest
      else succeeded (S j) sd rest
  end.

(** The exceptions caught along [vs], numbered from [j], in order. *)
Fixpoint failures (j : nat) (sd : string) (vs : list PendingPair)
  : list string :=
  match vs with
  | [] => []
  | p :: rest =>
      match outcome j sd p with
      | Throw err => err :: failures (S j) sd rest
      | Normal _ => failures (S j) sd rest
      end
  end.

End Outcomes.

(** The value the counter of a batch starts from:
    [(project.startingSequenceNumber || 1) + project.shots.length] *)
Definition firstSequenceNumber (proj : Project) : Z :=
  addNumbers (or_number (startingSequenceNumber proj) 1)
    (Z.of_nat (length (shots proj))).

(** The integers on which [+ 1] is exact. *)
Definition safeInteger (n : Z) : Prop := (- 2 ^ 53 <= n < 2 ^ 53)%Z.

(** The configuration every request carries. *)
Definition asksForJson (e : Event) : Prop :=
  match e with
  | EvGenerate req =>
      responseMimeType (config req) = "application/json"%string
      /\ schema_type (responseSchema (config req)) = OBJECT
      /\ properties (responseSchema (config req))
         = [("topic", STRING); ("analysis", STRING); ("prompt", STRING)]%string
      /\ required (responseSchema (config req))
         = ["topic"; "analysis"; "prompt"]%string
  | _ => True
  end.

(** A shot shows the two images of the pair it was made from. *)
Definition madeFrom (shot : Shot) (pair : PendingPair) : Prop :=
  Some (sourceImage shot) = source pair
  /\ Some (targetImage shot) = target pair.

(** Every id of the list was drawn before call number [u] of
    [crypto.randomUUID]. *)
Definition drawnBefore (uuidOf : nat -> string) (u : nat)
    (l : list PendingPair) : Prop :=
  Forall (fun p => exists n, n < u /\ id p = uuidOf n) l.

(** The pending list is not empty and its ids are distinct identifiers
    drawn so far. *)
Definition wellKept (env : Env) (st : State) : Prop :=
  pendingPairs st <> []
  /\ NoDup (map id (pendingPairs st))
  /\ drawnBefore (randomUUID env) (uuids st) (pendingPairs st).

(** ** The rest of the panel

    The handlers written inline in the markup, and what the markup computes
    from the state. *)

(** The [value] the field shows: [project.startingSequenceNumber || 1] *)
Definition shownStart (proj : Project) : Z :=
  or_number (startingSequenceNumber proj) 1.

(** The label of the plate at index [idx] of the pending list:
    [(project.startingSequenceNumber || 1) + project.shots.length + idx] *)
Definition plateNumber (proj : Project) (idx : nat) : Z :=
  addNumbers (addNumbers (or_number (startingSequenceNumber proj) 1)
                (Z.of_nat (length (shots proj))))
    (Z.of_nat idx).

(** [(a, b) => b.sequenceOrder - a.sequenceOrder] *)
Definition bySequenceDescending (a b : Shot) : Z :=
  (sequenceOrder b - sequenceOrder a)%Z.

(** [Array.prototype.sort] is stable: an element goes before the elements
    it does not compare greater than and that came after it.  [insertSorted]
    puts [x], which came before the elements of [sorted], in its place. *)
Fixpoint insertSorted (compare : Shot -> Shot -> Z) (x : Shot)
    (sorted : list Shot) : list Shot :=
  match sorted with
  | [] => [x]
  | y :: rest =>
      if (compare x y <=? 0)%Z then x :: y :: rest
      else y :: insertSorted compare x rest
  end.

Definition sortBy (compare : Shot -> Shot -> Z) (l : list Shot) : list Shot :=
  foldr (insertSorted compare) [] l.

(** The shots as the panel lists them:
    [[...project.shots].sort((a,b) => b.sequenceOrder - a.sequenceOrder)] *)
Definition displayedShots (proj : Project) : list Shot :=
  sortBy bySequenceDescending (shots proj).

(** The string of a slot type. *)
Definition slotName (type : SlotType) : string :=
  match type with
  | source_slot => "source"
  | target_slot => "target"
  end.

(** The key of a file input in [fileInputRefs]: [`${id}-${type}`] *)
Definition inputKey (id0 : string) (type : SlotType) : string :=
  id0 +:+ "-" +:+ slotName type.

(** The [ref] callbacks of the two file inputs of a plate, as the plate is
    rendered: [fileInputRefs.current[`${pair.id}-source`] = el], then the
    same for the target.  An input element is given by the plate and the
    slot it belongs to. *)
Definition registerInputs (refs : gmap string (string * SlotType))
    (p : PendingPair) : gmap string (string * SlotType) :=
  <[inputKey (id p) target_slot := (id p, target_slot)]>
    (<[inputKey (id p) source_slot := (id p, source_slot)]> refs).

(** [fileInputRefs.current] once the plates of [l] are rendered, first to
    last. *)
Definition renderedInputs (l : list PendingPair)
  : gmap string (string * SlotType) :=
  foldl registerInputs ∅ l.

(** [triggerInput]: the element that gets the click, if there is one
    ([fileInputRefs.current[key]?.click()]). *)
Definition triggerInput (id0 : string) (type : SlotType)
    (refs : gmap string (string * SlotType)) : option (string * SlotType) :=
  refs !! inputKey id0 type.

(** What can be dragged over: a batch zone or a slot of a plate. *)
Inductive Region : Type :=
  | zone_region (zone : DropType)
  | slot_region (id0 : string) (type : SlotType).

(** The [type] each region passes to [handleDragOver]: ['alpha'], ['beta'],
    ['mixed'], [`slot-${pair.id}-alpha`] and [`slot-${pair.id}-beta`]. *)
Definition dragKey (r : Region) : string :=
  match r with
  | zone_region alpha => "alpha"
  | zone_region beta => "beta"
  | zone_region mixed => "mixed"
  | slot_region id0 source_slot => "slot-" +:+ id0 +:+ "-alpha"
  | slot_region id0 target_slot => "slot-" +:+ id0 +:+ "-beta"
  end.

(** [handleDragOver]: [setDragType(type)] *)
Definition handleDragOver (type : string) (dragType : option string)
  : option string :=
  Some type.

(** [onDragLeave] and the first step of both drop handlers:
    [setDragType(null)] *)
Definition clearDrag (dragType : option string) : option string := None.

(** The test of the highlighted class of a region: [dragType === key] *)
Definition highlighted (dragType : option string) (r : Region) : bool :=
  match dragType with
  | Some type => String.eqb type (dragKey r)
  | None => false
  end.

(** The pairs of [vs], numbered from [j], whose call fails, in order. *)
Fixpoint failedOf (env : Env) (j : nat) (sd : string)
    (vs : list PendingPair) : list PendingPair :=
  match vs with
  | [] => []
  | p :: rest =>
      if succeeds env j sd p then failedOf env (S j) sd rest
      else p :: failedOf env (S j) sd rest
  end.



(** The shots are numbered one by one from [b]. *)
Definition numberedFrom (b : Z) (shs : list Shot) : Prop :=
  forall i s, shs !! i = Some s -> sequenceOrder s = (b + Z.of_nat i)%Z.

(** A pair is at rest: neither being processed nor completed. *)
Definition atRest (p : PendingPair) : Prop :=
  status p = idle \/ status p = error.

(** The images a pair holds, source first. *)
Definition imagesOf (p : PendingPair) : list string :=
  option_list (source p) ++ option_list (target p).

(** A pair holds an image: the test of the mixed zone on the pairs there
    are, [p.source || p.target]. *)
Definition holdsImage (p : PendingPair) : bool :=
  truthy (source p) || truthy (target p).

(** The [inlineData] parts of a request, in order. *)
Definition inlineDataOf (req : Request) : list InlineData :=
  omap (fun part => match part with
                    | inlineData_part d => Some d
                    | text_part _ => None
                    end) (parts req).

(** The character [c] occurs in [s]. *)
Fixpoint occurs (c : ascii) (s : string) : bool :=
  match s with
  | EmptyString => false
  | String c' s' => Ascii.eqb c' c || occurs c s'
  end.

(** The pair at index [j] of a column drop on the list [cur]: the pair there
    is, or the pair pushed there, whose identifier is the one drawn after
    the [j - length cur] pushes before it. *)
Definition pairAt (uuidOf : nat -> string) (cur : list PendingPair)
    (u j : nat) : PendingPair :=
  default (emptyPair (uuidOf (u + (j - length cur)))) (cur !! j).

(** The pair with image [j] of the column in its field, when there is an
    image [j]. *)
Definition inColumn (type : SlotType) (imgs : list string) (j : nat)
    (p : PendingPair) : PendingPair :=
  match imgs !! j with
  | Some img => with_field p type img
  | None => p
  end.

(** The list and identifier count a column drop amounts to. *)
Definition columnFilled (uuidOf : nat -> string) (type : SlotType)
    (imgs : list string) (cur : list PendingPair) (u : nat) : Pending :=
  (map (fun j => inColumn type imgs j (pairAt uuidOf cur u j))
       (seq 0 (max (length imgs) (length cur))),
   u + (length imgs - length cur)).

(** ** Sample data

    A small environment and a few plates, on which the statements below are
    run. *)

Module Sample.

(** Identifiers [u], [xu], [xxu], ... *)
Fixpoint uuid (n : nat) : string :=
  match n with
  | 0 => "u"
  | S n' => String "x" (uuid n')
  end.

(** A parser that knows the empty object only. *)
Definition parse (text : string) : Completion Json :=
  if String.eqb text "{}" then Normal (json_value (mkResult None None None))
  else Throw "SyntaxError".

(** A parser that knows [null] too. *)
Definition parseNull (text : string) : Completion Json :=
  if String.eqb text "null" then Normal json_null else parse text.

(** A service that answers every call with an empty text. *)
Definition quiet : Env :=
  mkEnv uuid (fun _ _ => Normal (mkResponse None)) parse true.

(** A service that answers the first call of a batch and rejects the
    others. *)
Definition flaky : Env :=
  mkEnv uuid
    (fun j _ => if j =? 0 then Normal (mkResponse None)
                else Throw "unavailable")
    parse true.

(** A service that rejects every call. *)
Definition down : Env :=
  mkEnv uuid (fun _ _ => Throw "unavailable") parse true.

(** A service that answers the first call of a batch with the text [null]
    and the others with an empty text. *)
Definition hollow : Env :=
  mkEnv uuid
    (fun j _ => if j =? 0 then Normal (mkResponse (Some "null"))
                else Normal (mkResponse None))
    parseNull true.

Definition png : File := mkFile "image/png" "data:image/png;base64,QUFB".
Definition jpeg : File := mkFile "image/jpeg" "data:image/jpeg;base64,QkJC".
Definition gif : File := mkFile "image/gif" "data:image/gif;base64,Q0ND".
Definition notes : File := mkFile "text/plain" "data:text/plain;base64,RERE".

Definition plateA : PendingPair :=
  mkPair "a" (Some "data:image/png;base64,QUFB")
    (Some "data:image/png;base64,QkJC") idle.

Definition plateB : PendingPair :=
  mkPair "b" (Some "data:image/png;base64,Q0ND")
    (Some "data:image/png;base64,RERE") idle.

Definition blank : PendingPair := emptyPair "c".

Definition shotAt (n : Z) : Shot :=
  mkShot "s" n "Opening" None None "data:," "data:,"
    "veo-3.1-generate-preview" "16:9" "1080p".

(** A panel with the plates [plateA], [plateB] and an empty one over a
    project of [shs] that starts numbering at [start]. *)
Definition panel (start : Z) (shs : list Shot) : State :=
  mkState [plateA; plateB; blank] "Ink wash." (mkProject start shs) 3 [].

End Sample.

(** Shots with ids of their own. *)
Module Reel.

Definition shot (i : string) (n : Z) : Shot :=
  mkShot i n "Opening" None None "data:," "data:,"
    "veo-3.1-generate-preview" "16:9" "1080p".

Definition three : list Shot := [shot "s1" 1; shot "s2" 2; shot "s3" 3].

End Reel.

(** * Properties *)

(** ** Single-slot assignment *)

Lemma with_field_field p type img :
  field type (with_field p type img) = Some img.
Proof. by destruct type. Qed.

Lemma with_field_other p type img :
  field (otherSlot type) (with_field p type img) = field (otherSlot type) p.
Proof. by destruct type. Qed.

Lemma with_field_id p type img : id (with_field p type img) = id p.
Proof. by destruct type. Qed.

Lemma with_field_status p type img :
  status (with_field p type img) = status p.
Proof. by destruct type. Qed.

Lemma setField_lookup id0 type img prev i :
  setField id0 type img prev !! i =
  (fun p => if String.eqb (id p) id0 then with_field p type img else p)
    <$> prev !! i.
Proof. unfold setField. apply list_lookup_fmap. Qed.

(** C8.  An upload of [file] on the [type] slot of the pair [id0] draws no
    identifier and keeps the length of the list; when the file is an image,
    a pair whose id is [id0] gets the decoded image in that field and keeps
    its id, its status and its other field, and a pair with another id is
    the pair it was; when the file is not an image the list is the list it
    was.  A drop on the slot does the same with the first dropped file, and
    nothing when no file was dropped. *)
Theorem single_slot_assignment (id0 : string) (file : File) (type : SlotType)
    (others : list File) (prev : list PendingPair) (u : nat) :
  let next := fst (handleImageUpload id0 file type (prev, u)) in
  snd (handleImageUpload id0 file type (prev, u)) = u
  /\ length next = length prev
  /\ (forall i p, prev !! i = Some p ->
        exists q, next !! i = Some q
          /\ id q = id p /\ status q = status p
          /\ field (otherSlot type) q = field (otherSlot type) p
          /\ field type q =
               (if isImage file && String.eqb (id p) id0
                then Some (processFile file) else field type p)
          /\ (isImage file && String.eqb (id p) id0 = false -> q = p))
  /\ (isImage file = false ->
        handleImageUpload id0 file type (prev, u) = (prev, u))
  /\ handleDropSlot (file :: others) id0 type (prev, u)
       = handleImageUpload id0 file type (prev, u)
  /\ handleDropSlot [] id0 type (prev, u) = (prev, u).
Proof.
  unfold handleDropSlot, handleImageUpload.
  destruct (isImage file) eqn:Himg; simpl.
  - split_and!; try done.
    + unfold setField. by rewrite length_map.
    + intros i p Hp. rewrite setField_lookup, Hp. simpl.
      destruct (String.eqb (id p) id0) eqn:Hid.
      * exists (with_field p type (processFile file)).
        rewrite with_field_id, with_field_status, with_field_other,
          with_field_field. by split_and!.
      * exists p. by split_and!.
  - split_and!; try done.
    intros i p Hp. exists p. by split_and!.
Qed.

(** ** Column batch assignment *)

Section ColumnDrop.

Variable randomUUID : nat -> string.

(** What the [forEach] of a column leaves, read index by index. *)
Lemma forEachColumn_spec (type : SlotType) (imgs : list string) :
  forall (i : nat) (cur : list PendingPair) (u : nat),
    i <= length cur ->
    let r := forEachColumn randomUUID type imgs i cur u in
    length (fst r) = max (i + length imgs) (length cur)
    /\ snd r = u + (i + length imgs - length cur)
    /\ (forall j, j < i -> fst r !! j = cur !! j)
    /\ (forall j img, imgs !! j = Some img ->
          fst r !! (i + j) =
          Some (with_field
                  (default (emptyPair (randomUUID (u + (i + j - length cur))))
                           (cur !! (i + j)))
                  type img))
    /\ (forall j, i + length imgs <= j -> fst r !! j = cur !! j).
Proof.
  induction imgs as [|img rest IH]; intros i cur u Hi; simpl.
  - split_and!; [lia | lia | done | | done].
    intros j img Hj. by rewrite lookup_nil in Hj.
  - destruct (cur !! i) as [p|] eqn:Hp.
    + assert (i < length cur) as Hlt by (by eapply lookup_lt_Some).
      destruct (IH (S i) (<[i := with_field p type img]> cur) u)
        as (Hlen & Hu & Hlow & Hmid & Hhigh).
      { rewrite length_insert. lia. }
      rewrite length_insert in Hlen, Hu.
      split_and!.
      * rewrite Hlen. lia.
      * rewrite Hu. lia.
      * intros j Hj. rewrite Hlow by lia.
        apply list_lookup_insert_ne. lia.
      * intros [|j] img' Hj; simpl in Hj.
        -- injection Hj as <-. rewrite Nat.add_0_r, Hlow by lia.
           rewrite list_lookup_insert_eq by done. by rewrite Hp.
        -- rewrite <- Nat.add_succ_comm, (Hmid j img' Hj).
           rewrite length_insert, list_lookup_insert_ne by lia. done.
      * intros j Hj. rewrite Hhigh by lia.
        apply list_lookup_insert_ne. lia.
    + assert (i = length cur) as ->.
      { apply lookup_ge_None in Hp. lia. }
      set (new := with_field (emptyPair (randomUUID u)) type img).
      destruct (IH (S (length cur)) (cur ++ [new]) (S u))
        as (Hlen & Hu & Hlow & Hmid & Hhigh).
      { rewrite length_app. simpl. lia. }
      rewrite length_app in Hlen, Hu. simpl in Hlen, Hu.
      split_and!.
      * rewrite Hlen. lia.
      * rewrite Hu. lia.
      * intros j Hj. rewrite Hlow by lia. by apply lookup_app_l.
      * intros [|j] img' Hj; simpl in Hj.
        -- injection Hj as <-. rewrite Nat.add_0_r, Hlow by lia.
           rewrite Hp. simpl. rewrite Nat.sub_diag, Nat.add_0_r.
           rewrite lookup_app_r by lia. by rewrite Nat.sub_diag.
        -- rewrite <- Nat.add_succ_comm, (Hmid j img' Hj).
           rewrite length_app. simpl.
           rewrite !(lookup_ge_None_2 _ (S (length cur) + j))
             by (rewrite ?length_app; simpl; lia).
           simpl. repeat f_equal. lia.
      * intros j Hj. rewrite Hhigh by lia.
        rewrite !lookup_ge_None_2; rewrite ?length_app; simpl; try lia. done.
Qed.

Lemma decoded_length_0 (dropped : list File) :
  (length (filter isImage dropped) =? 0) = true -> decoded dropped = [].
Proof.
  intros H. apply Nat.eqb_eq in H. unfold decoded.
  by rewrite (nil_length_inv _ H).
Qed.

(** C3.  A drop of files on the alpha or beta zone, over a list of [m]
    pairs, with [k] decoded images: the list has [max k m] pairs; pair [i]
    with an image [i] keeps its id, status and opposite field and holds
    image [i] in the column's field; for [m <= i < k] pair [i] is new, idle,
    holds image [i] in the column's field and nothing in the opposite one;
    the pairs from [k] on are the pairs they were. *)
Theorem column_batch_assignment (type : SlotType) (dropped : list File)
    (prev : list PendingPair) (u : nat) :
  let imgs := decoded dropped in
  let k := length imgs in
  let m := length prev in
  let next :=
    fst (handleBatchDrop randomUUID dropped (zoneOf type) (prev, u)) in
  length next = max k m
  /\ (forall i p img, prev !! i = Some p -> imgs !! i = Some img ->
        exists q, next !! i = Some q
          /\ id q = id p /\ status q = status p
          /\ field (otherSlot type) q = field (otherSlot type) p
          /\ field type q = Some img)
  /\ (forall i img, m <= i -> imgs !! i = Some img ->
        exists q, next !! i = Some q
          /\ status q = idle
          /\ field type q = Some img
          /\ field (otherSlot type) q = None)
  /\ (forall i, k <= i -> next !! i = prev !! i).
Proof.
  intros imgs k m next.
  assert (next = fst (forEachColumn randomUUID type imgs 0 prev u)) as ->.
  { unfold next, handleBatchDrop.
    destruct (length (filter isImage dropped) =? 0) eqn:Hk.
    - unfold imgs. rewrite (decoded_length_0 _ Hk). done.
    - by destruct type. }
  destruct (forEachColumn_spec type imgs 0 prev u)
    as (Hlen & _ & _ & Hmid & Hhigh); [lia|].
  simpl in Hlen, Hmid, Hhigh. split_and!.
  - done.
  - intros i p img Hp Hi. rewrite (Hmid i img Hi), Hp. simpl.
    eexists. split; [done|].
    by rewrite with_field_id, with_field_status, with_field_other,
      with_field_field.
  - intros i img Hm Hi. rewrite (Hmid i img Hi).
    rewrite (lookup_ge_None_2 prev i) by done. simpl.
    eexists. split; [done|].
    rewrite with_field_status, with_field_other, with_field_field.
    by destruct type.
  - intros i Hi. by apply Hhigh.
Qed.

End ColumnDrop.

(** ** Mixed sequential batch *)

Section MixedDrop.

Variable randomUUID : nat -> string.

(** Induction that follows a loop taking two elements at a time. *)
Lemma list_pair_ind {A : Type} (P : list A -> Prop) :
  P [] -> (forall x, P [x]) -> (forall x y l, P l -> P (x :: y :: l)) ->
  forall l, P l.
Proof.
  intros Hnil Hone Hstep l.
  assert (P l /\ forall x, P (x :: l)) as [H _]; [|done].
  induction l as [|y l [IH1 IH2]]; split; auto.
Qed.

(** The pairs the mixed loop forms, read index by index. *)
Lemma newPairsOf_spec (imgs : list string) :
  forall u,
    let r := newPairsOf randomUUID imgs u in
    length (fst r) = (length imgs + 1) / 2
    /\ snd r = u + (length imgs + 1) / 2
    /\ (forall j,
          fst r !! j =
          (fun img => mkPair (randomUUID (u + j)) (Some img)
                        (or_null (imgs !! (2 * j + 1))) idle)
            <$> imgs !! (2 * j)).
Proof.
  induction imgs as [|img|img next rest IH] using list_pair_ind; intros u.
  - simpl. split_and!; try done.
  - simpl. split_and!; [done | lia |].
    intros [|j]; simpl; [by rewrite Nat.add_0_r|].
    by rewrite ?lookup_nil.
  - cbn [newPairsOf]. specialize (IH (S u)).
    destruct (newPairsOf randomUUID rest (S u)) as [more u'].
    cbn [fst snd] in *. destruct IH as (Hlen & Hu & Hnth).
    assert ((length (img :: next :: rest) + 1) / 2
            = S ((length rest + 1) / 2)) as ->.
    { cbn [length].
      replace (S (S (length rest)) + 1) with ((length rest + 1) + 1 * 2)
        by lia.
      rewrite Nat.div_add by lia. lia. }
    split_and!; [cbn [length]; lia | lia |].
    intros [|j].
    + cbn. by rewrite Nat.add_0_r.
    + replace (2 * S j) with (S (S (2 * j))) by lia.
      replace (S (S (2 * j)) + 1) with (S (S (2 * j + 1))) by lia.
      rewrite !lookup_cons_ne_0 by lia. cbn [Nat.pred].
      rewrite Hnth. by replace (S u + j) with (u + S j) by lia.
Qed.

Lemma or_null_nonempty (img : string) :
  img <> EmptyString -> or_null (Some img) = Some img.
Proof.
  intros H. unfold or_null, truthy.
  destruct (String.eqb_spec img ""); [done|done].
Qed.

(** A drop without any image file leaves the list as it was: the handler
    returns before it touches the state. *)
Lemma batch_drop_without_image (dropped : list File) (type : DropType)
    (st : Pending) :
  decoded dropped = [] -> handleBatchDrop randomUUID dropped type st = st.
Proof.
  intros H. unfold handleBatchDrop.
  assert (filter isImage dropped = []) as ->; [|done].
  unfold decoded in H. by apply fmap_nil_inv in H.
Qed.

(** C4, as the code has it.  A drop on the mixed zone with [k >= 1] decoded
    images, none of them the empty string: the list becomes the earlier
    pairs that hold an image in a field, in their order, followed by
    [ceil(k/2)] new idle pairs; new pair [j] has image [2j] as source and
    image [2j+1] as target, which is no image for the last pair of an odd
    [k].  A drop without an image ([k = 0]) leaves the list as it was. *)
Theorem mixed_batch_assignment (dropped : list File)
    (prev : list PendingPair) (u : nat) :
  let imgs := decoded dropped in
  let k := length imgs in
  (k = 0 -> handleBatchDrop randomUUID dropped mixed (prev, u) = (prev, u))
  /\ (0 < k ->
      Forall (fun img => img <> EmptyString) imgs ->
      exists newPairs,
        fst (handleBatchDrop randomUUID dropped mixed (prev, u)) =
          filter (fun p => truthy (source p) || truthy (target p)) prev
            ++ newPairs
        /\ length newPairs = (k + 1) / 2
        /\ (forall j, j < (k + 1) / 2 ->
              exists q, newPairs !! j = Some q
                /\ is_Some (source q)
                /\ source q = imgs !! (2 * j)
                /\ target q = imgs !! (2 * j + 1)
                /\ status q = idle)).
Proof.
  intros imgs k. split.
  { intros Hk. apply batch_drop_without_image. by apply nil_length_inv. }
  intros Hk Hne. unfold handleBatchDrop.
  destruct (length (filter isImage dropped) =? 0) eqn:Hz.
  { unfold k, imgs in Hk. rewrite (decoded_length_0 _ Hz) in Hk.
    simpl in Hk. lia. }
  fold (decoded dropped). fold imgs.
  destruct (newPairsOf_spec imgs u) as (Hlen & _ & Hnth).
  destruct (newPairsOf randomUUID imgs u) as [newPairs u'].
  cbn [fst snd] in *. exists newPairs. split_and!; [done | done |].
  intros j Hj. rewrite Hnth.
  destruct (imgs !! (2 * j)) as [img|] eqn:Himg.
  - eexists. split; [done|]. cbn [source target status].
    split_and!; try done.
    destruct (imgs !! (2 * j + 1)) as [next|] eqn:Hnext; [|done].
    apply or_null_nonempty.
    rewrite Forall_forall in Hne. apply Hne.
    eapply list_elem_of_lookup_2. done.
  - apply lookup_ge_None in Himg. fold k in Himg.
    pose proof (Nat.div_mod_eq (k + 1) 2).
    pose proof (Nat.mod_upper_bound (k + 1) 2). lia.
Qed.

End MixedDrop.

(** ** The batch processor, in closed form *)

Section Batch.

Variable env : Env.

Lemma setStatus_setStatus id0 s1 s2 l :
  setStatus id0 s2 (setStatus id0 s1 l) = setStatus id0 s2 l.
Proof.
  unfold setStatus. rewrite map_map. apply map_ext. intros p.
  destruct (String.eqb (id p) id0) eqn:Hid; simpl; by rewrite Hid.
Qed.

(** Additions that stay within [2^53] are exact. *)
Lemma roundToDouble_exact z : (Z.abs z <= 2 ^ 53)%Z -> roundToDouble z = z.
Proof.
  intros H. unfold roundToDouble.
  destruct (Z.leb_spec (Z.abs z) (2 ^ 53)); [done|lia].
Qed.

Lemma addNumbers_exact a b :
  (Z.abs (a + b) <= 2 ^ 53)%Z -> addNumbers a b = (a + b)%Z.
Proof. apply roundToDouble_exact. Qed.

Lemma increment_exact n : safeInteger n -> increment n = (n + 1)%Z.
Proof. intros [Hlo Hhi]. apply addNumbers_exact. lia. Qed.

Lemma ticks_S k n : ticks (S k) n = ticks k (increment n).
Proof. unfold ticks. by rewrite Nat.iter_succ_r. Qed.

Lemma ticks_add k k' n : ticks (k + k') n = ticks k' (ticks k n).
Proof.
  unfold ticks. rewrite Nat.add_comm. apply Nat.iter_add.
Qed.

Lemma ticks_exact k : forall n,
  (- 2 ^ 53 <= n)%Z -> (n + Z.of_nat k <= 2 ^ 53)%Z ->
  ticks k n = (n + Z.of_nat k)%Z.
Proof.
  induction k as [|k IH]; intros n Hlo Hhi.
  - cbn. lia.
  - rewrite ticks_S, increment_exact by (split; lia).
    rewrite IH by lia. lia.
Qed.

(** One turn of the loop. *)
Lemma processPair_spec j p st c :
  processPair env j p (st, c) =
  (mkState
     (setStatus (id p) (finalStatus env j (styleDirective st) p)
        (pendingPairs st))
     (styleDirective st)
     (mkProject (startingSequenceNumber (project st))
        (shots (project st)
           ++ shotsMade env j (styleDirective st) [p] (uuids st) c))
     (uuids st + numbersUsed env j (styleDirective st) [p])
     (trace st ++ pairEvents env j (styleDirective st) p),
   ticks (numbersUsed env j (styleDirective st) [p]) c).
Proof.
  unfold processPair, pairEvents, finalStatus.
  cbn [shotsMade numbersUsed]. unfold succeeds, consumes, outcome, parsed.
  destruct st as [l sd proj u tr].
  cbn [setPendingPairs styleDirective pendingPairs project uuids trace].
  destruct (analyse env j sd p) as [sent completion]. cbn [fst snd].
  destruct completion as [[|result]|err].
  - unfold catchBlock, setPendingPairs, emit, drawn.
    destruct sent, (onApiError env);
      cbn [styleDirective pendingPairs project uuids trace];
      rewrite setStatus_setStatus, ?app_nil_r, <- ?app_assoc;
      destruct proj; repeat f_equal; simpl; try lia.
  - unfold setPendingPairs, onUpdateProject, drawn, appendShot, emit.
    destruct sent; cbn [styleDirective pendingPairs project uuids trace];
      rewrite setStatus_setStatus, ?app_nil_r;
      repeat f_equal; lia.
  - unfold catchBlock, setPendingPairs, emit.
    destruct sent, (onApiError env);
      cbn [styleDirective pendingPairs project uuids trace];
      rewrite setStatus_setStatus, ?app_nil_r, <- ?app_assoc;
      destruct proj; repeat f_equal; simpl; try lia.
Qed.

(** The whole loop. *)
Lemma forOf_spec vs : forall j st c,
  forOf env vs j (st, c) =
  (mkState
     (marked env j (styleDirective st) vs (pendingPairs st))
     (styleDirective st)
     (mkProject (startingSequenceNumber (project st))
        (shots (project st)
           ++ shotsMade env j (styleDirective st) vs (uuids st) c))
     (uuids st + numbersUsed env j (styleDirective st) vs)
     (trace st ++ batchEvents env j (styleDirective st) vs),
   ticks (numbersUsed env j (styleDirective st) vs) c).
Proof.
  induction vs as [|p rest IH]; intros j st c.
  - destruct st as [l sd [start shs] u tr]. simpl.
    rewrite !app_nil_r. repeat f_equal; lia.
  - cbn [forOf]. rewrite processPair_spec, IH.
    cbn [styleDirective pendingPairs project uuids trace
         startingSequenceNumber shots].
    rewrite <- ticks_add.
    cbn [marked batchEvents numbersUsed shotsMade].
    unfold consumes, outcome.
    destruct (parsed env j (styleDirective st) p) as [[|result]|err];
      cbn [Nat.add]; rewrite <- ?app_assoc; cbn [app];
      rewrite ?app_nil_r, ?Nat.add_1_r, ?Nat.add_succ_r, ?Nat.add_succ_l,
        ?Nat.add_0_r; done.
Qed.

Lemma processBatch_noop st :
  filter isValid (pendingPairs st) = [] -> processBatch env st = st.
Proof. intros H. unfold processBatch. by rewrite H. Qed.

(** A batch with a qualifying pair. *)
Lemma processBatch_spec st :
  let sd := styleDirective st in
  let vs := filter isValid (pendingPairs st) in
  vs <> [] ->
  processBatch env st =
  mkState
    (fst (purgeCompleted (randomUUID env)
            (marked env 0 sd vs (pendingPairs st),
             uuids st + numbersUsed env 0 sd vs)))
    sd
    (mkProject (startingSequenceNumber (project st))
       (shots (project st)
          ++ shotsMade env 0 sd vs (uuids st)
               (firstSequenceNumber (project st))))
    (snd (purgeCompleted (randomUUID env)
            (marked env 0 sd vs (pendingPairs st),
             uuids st + numbersUsed env 0 sd vs)))
    (trace st ++ [EvBusy true] ++ batchEvents env 0 sd vs ++ [EvBusy false]).
Proof.
  intros sd vs Hvs. unfold processBatch. fold vs.
  destruct (length vs =? 0) eqn:Hlen.
  { apply Nat.eqb_eq in Hlen. by apply nil_length_inv in Hlen. }
  rewrite forOf_spec. unfold withPending, pendingOf, emit, firstSequenceNumber.
  cbn [styleDirective pendingPairs project uuids trace]. fold sd.
  by rewrite <- !app_assoc.
Qed.

Lemma shotsMade_length vs : forall j sd u c,
  length (shotsMade env j sd vs u c) = successCount env j sd vs.
Proof.
  induction vs as [|p rest IH]; intros j sd u c; [done|].
  cbn [shotsMade successCount]. unfold succeeds.
  destruct (outcome env j sd p); [cbn [length]; rewrite IH; lia|].
  destruct (consumes env j sd p); rewrite IH; lia.
Qed.

(** A pair that succeeds uses up a number. *)
Lemma succeeds_consumes j sd p :
  succeeds env j sd p = true -> consumes env j sd p = true.
Proof.
  unfold succeeds, consumes, outcome.
  by destruct (parsed env j sd p) as [[|result]|err].
Qed.

Lemma successCount_le_numbersUsed vs : forall j sd,
  successCount env j sd vs <= numbersUsed env j sd vs.
Proof.
  induction vs as [|p rest IH]; intros j sd; [done|].
  cbn [successCount numbersUsed]. specialize (IH (S j) sd).
  destruct (succeeds env j sd p) eqn:Hs.
  - rewrite (succeeds_consumes _ _ _ Hs). lia.
  - destruct (consumes env j sd p); lia.
Qed.


(** The shot of the pair at index [a]: where it is among the new shots, and
    the identifier and the number it carries. *)
Lemma shotsMade_at vs : forall j sd u c a p result,
  vs !! a = Some p ->
  outcome env (j + a) sd p = Normal result ->
  shotsMade env j sd vs u c !! successCount env j sd (take a vs)
  = Some (newShotOf (randomUUID env (u + numbersUsed env j sd (take a vs)))
            (ticks (numbersUsed env j sd (take a vs)) c) result p).
Proof.
  induction vs as [|q rest IH]; intros j sd u c a p result Ha Hout; [done|].
  destruct a as [|a]; simpl in Ha.
  - injection Ha as ->. rewrite Nat.add_0_r in Hout.
    cbn [take successCount numbersUsed shotsMade]. rewrite Hout.
    by rewrite Nat.add_0_r.
  - rewrite <- Nat.add_succ_comm in Hout.
    specialize (IH (S j) sd).
    cbn [take successCount numbersUsed shotsMade].
    unfold succeeds, consumes, outcome in *.
    destruct (parsed env j sd q) as [[|res]|err]; cbn [Nat.add].
    + rewrite (IH (S u) (increment c) a p result Ha Hout).
      rewrite ticks_S. do 3 f_equal. lia.
    + rewrite lookup_cons_ne_0 by lia. cbn [Nat.pred].
      rewrite (IH (S u) (increment c) a p result Ha Hout).
      rewrite ticks_S. do 3 f_equal. lia.
    + by rewrite (IH u c a p result Ha Hout).
Qed.


End Batch.

(** ** Sequence numbers *)

Section Sequence.

Variable env : Env.



End Sequence.



(** Numbering from 5 with two shots in the project, one pair succeeding:
    the new shot is number 7. *)
Example sequence_number_seven :
  let st := Sample.panel 5 [Sample.shotAt 5; Sample.shotAt 6] in
  successCount Sample.flaky 0 (styleDirective st)
    (filter isValid (pendingPairs st)) = 1
  /\ map sequenceOrder (shots (project (processBatch Sample.flaky st)))
     = [5; 6; 7]%Z.
Proof. by vm_compute. Qed.

(** From [2^53] on [++] leaves the counter as it is: the two shots of a
    batch get the same number. *)
Example counter_stalls_at_2_53 :
  let st := mkState [Sample.plateA; Sample.plateB] "Ink wash."
              (mkProject (2 ^ 53) []) 2 [] in
  map sequenceOrder (shots (project (processBatch Sample.quiet st)))
  = [2 ^ 53; 2 ^ 53]%Z.
Proof. by vm_compute. Qed.

(** ** Busy state and the requests sent *)

Section Events.

Variable env : Env.

Lemma isValid_images p :
  isValid p = true ->
  exists src tgt, source p = Some src /\ target p = Some tgt.
Proof.
  unfold isValid. destruct (source p) as [src|], (target p) as [tgt|];
    simpl; try done; rewrite ?andb_false_r; try done.
  eauto.
Qed.

Lemma pairEvents_not_busy j sd p :
  Forall (fun e => isBusyEvent e = false) (pairEvents env j sd p).
Proof.
  unfold pairEvents. apply Forall_app. split.
  - destruct (fst (analyse env j sd p)); repeat constructor.
  - destruct (outcome env j sd p), (onApiError env); repeat constructor.
Qed.

Lemma batchEvents_not_busy vs : forall j sd,
  Forall (fun e => isBusyEvent e = false) (batchEvents env j sd vs).
Proof.
  induction vs as [|p rest IH]; intros j sd; [constructor|].
  cbn [batchEvents]. apply Forall_app. split; [apply pairEvents_not_busy|].
  apply IH.
Qed.

(** The request of a qualifying pair is sent, whatever comes back. *)
Lemma pairEvents_generate j sd p :
  isValid p = true ->
  filter isGenerateEvent (pairEvents env j sd p) =
  [EvGenerate (analysisRequest sd (default EmptyString (source p))
                 (default EmptyString (target p)))].
Proof.
  intros Hv. destruct (isValid_images p Hv) as (src & tgt & Hs & Ht).
  unfold pairEvents, outcome, parsed, analyse. rewrite Hs, Ht.
  cbn [fst snd default]. rewrite filter_app.
  destruct (generateContent env j (analysisRequest sd src tgt)) as [r|err].
  - destruct (JSON_parse env (or_string (response_text r) "{}"))
      as [[|res]|err]; try done; by destruct (onApiError env).
  - by destruct (onApiError env).
Qed.

Lemma batchEvents_generate vs : forall j sd,
  Forall (fun p => isValid p = true) vs ->
  filter isGenerateEvent (batchEvents env j sd vs) =
  map (fun p => EvGenerate (analysisRequest sd
                              (default EmptyString (source p))
                              (default EmptyString (target p)))) vs.
Proof.
  induction vs as [|p rest IH]; intros j sd Hv; [done|].
  apply Forall_cons in Hv as [Hp Hrest].
  cbn [batchEvents map]. rewrite filter_app, pairEvents_generate by done.
  by rewrite IH.
Qed.

Lemma Forall_isValid (l : list PendingPair) :
  Forall (fun p => isValid p = true) (filter isValid l).
Proof.
  apply Forall_forall. intros p Hp. apply list_elem_of_filter in Hp as [Hp _].
  by apply Is_true_true.
Qed.

(** C7.  Without a qualifying pair [processBatch] leaves the state as it is:
    no event is recorded (no busy call, no service call) and neither the
    pending list nor the project changes.  With one, the events of the run
    are [setIsStudioBusy(true)], then the events of the pairs, among them
    one service call for each qualifying pair and no busy call, then
    [setIsStudioBusy(false)]. *)
Theorem batch_busy_bracket (st : State) :
  let vs := filter isValid (pendingPairs st) in
  (vs = [] -> processBatch env st = st)
  /\ (vs <> [] ->
      exists mid,
        trace (processBatch env st)
          = trace st ++ [EvBusy true] ++ mid ++ [EvBusy false]
        /\ Forall (fun e => isBusyEvent e = false) mid
        /\ filter isGenerateEvent mid =
           map (fun p => EvGenerate
                           (analysisRequest (styleDirective st)
                              (default EmptyString (source p))
                              (default EmptyString (target p)))) vs).
Proof.
  intros vs. split.
  - apply processBatch_noop.
  - intros Hne. rewrite processBatch_spec by done. cbn [trace].
    eexists. split; [done|]. split.
    + apply batchEvents_not_busy.
    + apply batchEvents_generate, Forall_isValid.
Qed.

Lemma batchEvents_asksForJson vs : forall j sd,
  Forall asksForJson (batchEvents env j sd vs).
Proof.
  induction vs as [|p rest IH]; intros j sd; [constructor|].
  cbn [batchEvents]. apply Forall_app. split; [|apply IH].
  unfold pairEvents. apply Forall_app. split.
  - unfold analyse. destruct (source p), (target p); cbn [fst];
      repeat constructor.
  - destruct (outcome env j sd p), (onApiError env); repeat constructor.
Qed.

(** What [analyse] makes of the service's answer. *)
Lemma parsed_spec j sd pair src tgt :
  source pair = Some src -> target pair = Some tgt ->
  parsed env j sd pair
  = match generateContent env j (analysisRequest sd src tgt) with
    | Throw err => Throw err
    | Normal response =>
        JSON_parse env (or_string (response_text response) "{}")
    end.
Proof. intros Hs Ht. unfold parsed, analyse. by rewrite Hs, Ht. Qed.

Lemma newShotOf_placeholder uuid c result pair :
  truthy (result_topic result) = false ->
  topic (newShotOf uuid c result pair) = "Sequence Segment"%string.
Proof.
  intros Htopic. cbn [newShotOf topic]. unfold or_string.
  destruct (result_topic result) as [t|]; [|done].
  simpl in Htopic. apply negb_false_iff in Htopic. by rewrite Htopic.
Qed.

(** C9.  A batch invokes the service once for each qualifying pair, in
    order, with a request that asks for [application/json] with an object
    schema of the required string fields topic, analysis and prompt; what
    is parsed for a pair is the text the service answered, the default text
    [{}] when the response has no text, and a rejected call is the
    exception of the pair.  When the parsed result has no topic (an absent
    or empty [topic], as that of the empty object), the turn of the loop
    appends one shot, whose topic is the placeholder ["Sequence Segment"],
    and that shot is in the project after the batch, made from the two
    images of the pair. *)
Theorem empty_result_topic_placeholder (st : State) :
  let sd := styleDirective st in
  let vs := filter isValid (pendingPairs st) in
  (forall j pair c result,
     outcome env j sd pair = Normal result ->
     truthy (result_topic result) = false ->
     exists s,
       shots (project (fst (processPair env j pair (st, c))))
         = shots (project st) ++ [s]
       /\ topic s = "Sequence Segment"%string
       /\ topic s <> EmptyString)
  /\ (forall a p result,
        vs !! a = Some p ->
        outcome env a sd p = Normal result ->
        truthy (result_topic result) = false ->
        exists s,
          shots (project (processBatch env st))
            !! (length (shots (project st))
                + successCount env 0 sd (take a vs)) = Some s
          /\ madeFrom s p
          /\ topic s = "Sequence Segment"%string)
  /\ (forall j pair src tgt,
        source pair = Some src -> target pair = Some tgt ->
        (forall response,
           generateContent env j (analysisRequest sd src tgt)
             = Normal response ->
           (truthy (response_text response) = false ->
            parsed env j sd pair = JSON_parse env "{}")
           /\ (forall text,
                 response_text response = Some text ->
                 text <> EmptyString ->
                 parsed env j sd pair = JSON_parse env text))
        /\ (forall err,
              generateContent env j (analysisRequest sd src tgt)
                = Throw err ->
              outcome env j sd pair = Throw err))
  /\ (exists new,
        trace (processBatch env st) = trace st ++ new
        /\ filter isGenerateEvent new =
           map (fun p => EvGenerate
                           (analysisRequest sd
                              (default EmptyString (source p))
                              (default EmptyString (target p)))) vs
        /\ Forall asksForJson new)
  /\ (forall src tgt, asksForJson (EvGenerate (analysisRequest sd src tgt))).
Proof.
  intros sd vs. split_and!.
  - intros j pair c result Hout Htopic.
    rewrite processPair_spec. cbn [fst project shots shotsMade]. fold sd.
    rewrite Hout. eexists. split; [done|].
    rewrite newShotOf_placeholder by done. done.
  - intros a p result Ha Hout Htopic.
    assert (vs <> []) as Hne by (intros Hnil; by rewrite Hnil in Ha).
    rewrite processBatch_spec by done. cbn [project shots]. fold sd vs.
    rewrite lookup_app_r by lia.
    replace (length (shots (project st)) + successCount env 0 sd (take a vs)
             - length (shots (project st)))
      with (successCount env 0 sd (take a vs)) by lia.
    rewrite (shotsMade_at env vs 0 sd _ _ a p result Ha Hout).
    eexists. split; [done|]. split; [|by apply newShotOf_placeholder].
    destruct (isValid_images p) as (src & tgt & Hs & Ht).
    { pose proof (Forall_isValid (pendingPairs st)) as Hall.
      rewrite Forall_forall in Hall. apply Hall.
      by eapply list_elem_of_lookup_2. }
    unfold madeFrom, newShotOf. cbn [sourceImage targetImage].
    by rewrite Hs, Ht.
  - intros j pair src tgt Hs Ht. split.
    + intros response Hgen. rewrite (parsed_spec j sd pair src tgt Hs Ht), Hgen.
      split.
      * intros Htext. f_equal. unfold or_string.
        destruct (response_text response) as [t|]; [|done].
        simpl in Htext. apply negb_false_iff in Htext. by rewrite Htext.
      * intros text Htext Hne. rewrite Htext. f_equal. unfold or_string.
        by destruct (String.eqb_spec text "").
    + intros err Hgen. unfold outcome.
      by rewrite (parsed_spec j sd pair src tgt Hs Ht), Hgen.
  - destruct (decide (vs = [])) as [Hnil|Hne].
    + exists []. rewrite processBatch_noop, app_nil_r by done.
      rewrite Hnil. split_and!; [done|done|constructor].
    + rewrite processBatch_spec by done. cbn [trace]. fold sd vs.
      eexists. split; [done|]. split.
      * rewrite !filter_app.
        rewrite (batchEvents_generate vs 0 sd) by apply Forall_isValid.
        cbn. by rewrite app_nil_r.
      * apply Forall_app. split; [repeat constructor|].
        apply Forall_app. split; [apply batchEvents_asksForJson|].
        repeat constructor.
  - intros src tgt. by cbn.
Qed.

End Events.

(** ** Isolation of failures *)

Section Isolation.

Variable env : Env.

Lemma relabel_id vs : forall j sd q, id (relabel env j sd vs q) = id q.
Proof.
  induction vs as [|p rest IH]; intros j sd q; cbn [relabel]; [done|].
  destruct (String.eqb (id q) (id p)); [done|apply IH].
Qed.

Lemma relabel_notin vs : forall j sd q,
  id q ∉ map id vs -> relabel env j sd vs q = q.
Proof.
  induction vs as [|p rest IH]; intros j sd q Hq; cbn [relabel]; [done|].
  cbn [map] in Hq. apply not_elem_of_cons in Hq as [Hne Hq].
  destruct (String.eqb_spec (id q) (id p)); [done|]. by apply IH.
Qed.

(** With distinct ids in the batch, the statuses written along it amount to
    relabelling each pair of the list once. *)
Lemma marked_relabel vs : forall j sd l,
  NoDup (map id vs) ->
  marked env j sd vs l = map (relabel env j sd vs) l.
Proof.
  induction vs as [|p rest IH]; intros j sd l Hnd; cbn [marked].
  - induction l as [|q l IHl]; [done|]. cbn [map relabel]. by f_equal.
  - cbn [map] in Hnd. apply NoDup_cons in Hnd as [Hp Hnd].
    rewrite IH by done. unfold setStatus. rewrite map_map.
    apply map_ext. intros q. cbn [relabel].
    destruct (String.eqb_spec (id q) (id p)) as [Heq|Hne]; [|done].
    apply relabel_notin. cbn [with_status id]. by rewrite Heq.
Qed.

Lemma relabel_at vs : forall j sd q a A,
  NoDup (map id vs) -> vs !! a = Some A -> id q = id A ->
  relabel env j sd vs q = with_status q (finalStatus env (j + a) sd A).
Proof.
  induction vs as [|p rest IH]; intros j sd q a A Hnd Ha Hq; [done|].
  cbn [map] in Hnd. apply NoDup_cons in Hnd as [Hp Hnd]. cbn [relabel].
  destruct a as [|a]; simpl in Ha.
  - injection Ha as ->. rewrite Hq, String.eqb_refl. by rewrite Nat.add_0_r.
  - destruct (String.eqb_spec (id q) (id p)) as [Heq|Hne].
    + exfalso. apply Hp. rewrite <- Heq, Hq.
      apply list_elem_of_In, in_map, list_elem_of_In.
      by eapply list_elem_of_lookup_2.
    + rewrite (IH (S j) sd q a A) by done. by rewrite Nat.add_succ_r.
Qed.

Lemma NoDup_ids_eq (l : list PendingPair) p q :
  NoDup (map id l) -> p ∈ l -> q ∈ l -> id p = id q -> p = q.
Proof.
  intros Hnd Hp Hq Hid.
  apply list_elem_of_lookup_1 in Hp as [i Hi].
  apply list_elem_of_lookup_1 in Hq as [k Hk].
  assert (i = k) as ->; [|congruence].
  apply (NoDup_lookup (map id l) i k (id p)); [done| |].
  - change (map id l) with (id <$> l). by rewrite list_lookup_fmap, Hi.
  - change (map id l) with (id <$> l). by rewrite list_lookup_fmap, Hk, Hid.
Qed.

Lemma NoDup_ids_filter (P : PendingPair -> bool) (l : list PendingPair) :
  NoDup (map id l) -> NoDup (map id (filter P l)).
Proof.
  intros Hnd. eapply sublist_NoDup; [exact Hnd|].
  change (id <$> filter P l `sublist_of` id <$> l).
  apply fmap_sublist, sublist_filter.
Qed.

(** What the purge leaves: the pairs that are not completed, or the fresh
    empty pair. *)
Lemma purgeCompleted_elem uuidOf l u x :
  x ∈ fst (purgeCompleted uuidOf (l, u)) ->
  (x ∈ l /\ notCompleted x = true) \/ x = emptyPair (uuidOf u).
Proof.
  unfold purgeCompleted.
  destruct (0 <? length (filter notCompleted l)); cbn [fst].
  - intros Hx. apply list_elem_of_filter in Hx as [Hx1 Hx2].
    left. split; [done|]. by apply Is_true_true.
  - intros Hx. apply list_elem_of_singleton in Hx. by right.
Qed.

Lemma purgeCompleted_keeps uuidOf l u x :
  x ∈ l -> notCompleted x = true -> x ∈ fst (purgeCompleted uuidOf (l, u)).
Proof.
  intros Hx Hnc. unfold purgeCompleted. fold notCompleted.
  assert (x ∈ filter notCompleted l) as Hin.
  { apply list_elem_of_filter. split; [by apply Is_true_true|done]. }
  destruct (0 <? length (filter notCompleted l)) eqn:Hlen; cbn [fst]; [done|].
  apply Nat.ltb_ge in Hlen.
  destruct (filter notCompleted l); [by apply elem_of_nil in Hin|].
  simpl in Hlen. lia.
Qed.

Lemma succeeded_elem vs : forall j sd x,
  x ∈ succeeded env j sd vs ->
  exists i, vs !! i = Some x /\ succeeds env (j + i) sd x = true.
Proof.
  induction vs as [|p rest IH]; intros j sd x Hx; cbn [succeeded] in Hx.
  - by apply elem_of_nil in Hx.
  - assert (x ∈ succeeded env (S j) sd rest ->
            exists i, (p :: rest) !! i = Some x
                      /\ succeeds env (j + i) sd x = true) as Hrest.
    { intros H. destruct (IH _ _ _ H) as (i & Hi & Hs).
      exists (S i). split; [done|]. by rewrite Nat.add_succ_r. }
    destruct (succeeds env j sd p) eqn:Hp; [|by apply Hrest].
    apply elem_of_cons in Hx as [->|Hx]; [|by apply Hrest].
    exists 0. split; [done|]. by rewrite Nat.add_0_r.
Qed.

Lemma succeeded_intro vs : forall j sd a A,
  vs !! a = Some A -> succeeds env (j + a) sd A = true ->
  A ∈ succeeded env j sd vs.
Proof.
  induction vs as [|p rest IH]; intros j sd a A Ha Hs; [done|].
  cbn [succeeded]. destruct a as [|a]; simpl in Ha.
  - injection Ha as ->. rewrite Nat.add_0_r in Hs. rewrite Hs.
    apply elem_of_cons. by left.
  - rewrite Nat.add_succ_r in Hs. specialize (IH (S j) sd a A Ha Hs).
    destruct (succeeds env j sd p); [|done].
    apply elem_of_cons. by right.
Qed.

(** The shots of a batch are made from the pairs that succeed, one each, in
    order. *)
Lemma shotsMade_succeeded vs : forall j sd u c,
  Forall (fun p => isValid p = true) vs ->
  Forall2 madeFrom (shotsMade env j sd vs u c) (succeeded env j sd vs).
Proof.
  induction vs as [|p rest IH]; intros j sd u c Hv; [constructor|].
  apply Forall_cons in Hv as [Hp Hv]. cbn [shotsMade succeeded].
  unfold succeeds. destruct (outcome env j sd p) as [result|err].
  - constructor; [|by apply IH].
    destruct (isValid_images p Hp) as (src & tgt & Hs & Ht).
    unfold madeFrom, newShotOf. cbn [sourceImage targetImage].
    by rewrite Hs, Ht.
  - destruct (consumes env j sd p); by apply IH.
Qed.

Lemma failures_length vs : forall j sd,
  length (failures env j sd vs) + successCount env j sd vs = length vs.
Proof.
  induction vs as [|p rest IH]; intros j sd; [done|].
  cbn [failures successCount length]. unfold succeeds.
  specialize (IH (S j) sd).
  destruct (outcome env j sd p); cbn [length]; lia.
Qed.

(** One report for each failure, in order, when the callback was given. *)
Lemma batchEvents_reports vs : forall j sd,
  filter isApiErrorEvent (batchEvents env j sd vs) =
  if onApiError env
  then map (fun err => EvApiError err "Analysis") (failures env j sd vs)
  else [].
Proof.
  induction vs as [|p rest IH]; intros j sd.
  - by destruct (onApiError env).
  - cbn [batchEvents failures]. rewrite filter_app, IH.
    unfold pairEvents. rewrite filter_app.
    assert (filter isApiErrorEvent
              match fst (analyse env j sd p) with
              | Some req => [EvGenerate req]
              | None => []
              end = []) as ->.
    { by destruct (fst (analyse env j sd p)). }
    destruct (outcome env j sd p), (onApiError env); done.
Qed.

(** The pair of the list a qualifying pair stands for is relabelled with
    that pair's final status. *)
Lemma relabel_qualifying (l : list PendingPair) j sd a A :
  NoDup (map id l) ->
  filter isValid l !! a = Some A ->
  relabel env j sd (filter isValid l) A
  = with_status A (finalStatus env (j + a) sd A).
Proof.
  intros Hnd Ha. apply relabel_at; [|done|done].
  by apply NoDup_ids_filter.
Qed.

(** A pair of the list that does not qualify keeps its status. *)
Lemma relabel_other (l : list PendingPair) j sd p :
  NoDup (map id l) -> p ∈ l -> isValid p = false ->
  relabel env j sd (filter isValid l) p = p.
Proof.
  intros Hnd Hp Hv. apply relabel_notin. intros Hin.
  apply list_elem_of_In, in_map_iff in Hin as (q & Hid & Hq).
  apply list_elem_of_In, list_elem_of_filter in Hq as [Hqv Hq].
  assert (q = p) as -> by (by apply (NoDup_ids_eq l)).
  apply Is_true_true in Hqv. congruence.
Qed.

Lemma filter_map_notCompleted (g : PendingPair -> PendingPair) l :
  (forall p, notCompleted (g p) = notCompleted p) ->
  filter notCompleted (map g l) = map g (filter notCompleted l).
Proof.
  intros Hg. induction l as [|p l IH]; [done|].
  cbn [map]. rewrite !filter_cons, Hg, IH.
  by destruct (decide (notCompleted p)).
Qed.

(** C5.  In a batch over a list of pairs with distinct ids: when the call of
    pair [A] succeeds and the call of pair [B] fails, [A] is in no status in
    the pending list afterwards and is one of the pairs a new shot is made
    from, while [B] is in the list with status [error] and is not among
    them; the new shots are made from the succeeding pairs, one each, in
    order; every qualifying pair is called, whatever happened to the pairs
    before it, and the error callback, when it was supplied, gets one
    report per failure, in order, each with the context ["Analysis"]; when
    every call fails, the shots are the shots there were and the pending
    list is the list of the pairs not completed before, each qualifying one
    marked [error]. *)
Theorem failure_is_isolated (st : State) :
  let sd := styleDirective st in
  let vs := filter isValid (pendingPairs st) in
  let st' := processBatch env st in
  NoDup (map id (pendingPairs st)) ->
  (forall a b A B,
     vs !! a = Some A -> succeeds env a sd A = true ->
     vs !! b = Some B -> succeeds env b sd B = false ->
     (forall s, with_status A s ∉ pendingPairs st')
     /\ (exists i shot,
           shots (project st') !! (length (shots (project st)) + i)
             = Some shot
           /\ madeFrom shot A)
     /\ with_status B error ∈ pendingPairs st'
     /\ A ∈ succeeded env 0 sd vs
     /\ B ∉ succeeded env 0 sd vs)
  /\ (exists new,
        shots (project st') = shots (project st) ++ new
        /\ Forall2 madeFrom new (succeeded env 0 sd vs)
        /\ length new = successCount env 0 sd vs)
  /\ (exists events,
        trace st' = trace st ++ events
        /\ filter isGenerateEvent events =
           map (fun p => EvGenerate
                           (analysisRequest sd
                              (default EmptyString (source p))
                              (default EmptyString (target p)))) vs
        /\ filter isApiErrorEvent events =
           (if onApiError env
            then map (fun err => EvApiError err "Analysis")
                     (failures env 0 sd vs)
            else [])
        /\ length (failures env 0 sd vs) + successCount env 0 sd vs
           = length vs)
  /\ (vs <> [] ->
      (forall j p, vs !! j = Some p -> succeeds env j sd p = false) ->
      shots (project st') = shots (project st)
      /\ pendingPairs st' =
         map (fun p => if isValid p then with_status p error else p)
             (filter notCompleted (pendingPairs st))).
Proof.
  intros sd vs st' Hnd.
  assert (NoDup (map id vs)) as Hndvs by (by apply NoDup_ids_filter).
  split_and!.
  - intros a b A B Ha HsA Hb HsB.
    assert (vs <> []) as Hne by (intros E; by rewrite E in Ha).
    assert (A ∈ pendingPairs st /\ isValid A = true) as [HAin HAv].
    { apply list_elem_of_lookup_2, list_elem_of_filter in Ha as [H1 H2].
      split; [done|by apply Is_true_true]. }
    assert (B ∈ pendingPairs st /\ isValid B = true) as [HBin HBv].
    { apply list_elem_of_lookup_2, list_elem_of_filter in Hb as [H1 H2].
      split; [done|by apply Is_true_true]. }
    unfold st'. rewrite processBatch_spec by done. cbn [pendingPairs].
    fold sd vs. rewrite marked_relabel by done.
    split_and!.
    + intros s Hin. apply purgeCompleted_elem in Hin as [[Hin Hnc]|Hfresh].
      * apply list_elem_of_In, in_map_iff in Hin as (q & Hq & Hqin).
        apply list_elem_of_In in Hqin.
        assert (q = A) as ->.
        { apply (NoDup_ids_eq (pendingPairs st)); [done|done|done|].
          rewrite <- (relabel_id vs 0 sd q), Hq. done. }
        unfold vs in Hq. rewrite (relabel_qualifying _ 0 sd a) in Hq by done.
        unfold finalStatus in Hq. simpl in Hq. rewrite HsA in Hq.
        rewrite <- Hq in Hnc. done.
      * destruct (isValid_images A HAv) as (src & tgt & Hs & Ht).
        apply (f_equal source) in Hfresh. simpl in Hfresh. congruence.
    + assert (A ∈ succeeded env 0 sd vs) as HA
        by (by apply (succeeded_intro vs 0 sd a)).
      apply list_elem_of_lookup_1 in HA as [i Hi].
      pose proof (shotsMade_succeeded vs 0 sd (uuids st)
                    (firstSequenceNumber (project st))
                    (Forall_isValid _)) as Hmade.
      destruct (Forall2_lookup_r _ _ _ _ _ Hmade Hi) as (shot & Hshot & HfromA).
      exists i, shot. split; [|done]. cbn [project shots].
      rewrite lookup_app_r by lia.
      by replace (length (shots (project st)) + i
                  - length (shots (project st))) with i by lia.
    + apply purgeCompleted_keeps; [|done].
      apply list_elem_of_In, in_map_iff. exists B.
      split; [|by apply list_elem_of_In].
      unfold vs. rewrite (relabel_qualifying _ 0 sd b) by done.
      unfold finalStatus. simpl. by rewrite HsB.
    + by apply (succeeded_intro vs 0 sd a).
    + intros Hin. apply succeeded_elem in Hin as (i & Hi & Hs).
      assert (i = b) as ->.
      { eapply NoDup_lookup; [|exact Hi|exact Hb].
        change (map id vs) with (id <$> vs) in Hndvs.
        by apply NoDup_fmap_1 in Hndvs. }
      simpl in Hs. congruence.
  - destruct (decide (vs = [])) as [Hnil|Hne].
    + exists []. unfold st'. rewrite processBatch_noop by done.
      rewrite Hnil, app_nil_r. split_and!; [done|constructor|done].
    + unfold st'. rewrite processBatch_spec by done. cbn [project shots].
      fold sd vs. eexists. split; [done|]. split.
      * apply shotsMade_succeeded, Forall_isValid.
      * apply shotsMade_length.
  - destruct (decide (vs = [])) as [Hnil|Hne].
    + exists []. unfold st'. rewrite processBatch_noop by done.
      rewrite Hnil, app_nil_r. split_and!; try done. by destruct (onApiError env).
    + unfold st'. rewrite processBatch_spec by done. cbn [trace].
      fold sd vs. eexists. split; [done|].
      rewrite !filter_app, !filter_cons, !filter_nil.
      destruct (decide (isGenerateEvent (EvBusy true))) as [[]|_].
      destruct (decide (isGenerateEvent (EvBusy false))) as [[]|_].
      destruct (decide (isApiErrorEvent (EvBusy true))) as [[]|_].
      destruct (decide (isApiErrorEvent (EvBusy false))) as [[]|_].
      rewrite !app_nil_r, !app_nil_l. split_and!.
      * apply batchEvents_generate, Forall_isValid.
      * apply batchEvents_reports.
      * apply failures_length.
  - intros Hne Hall.
    assert (successCount env 0 sd vs = 0 /\
            shotsMade env 0 sd vs (uuids st)
              (firstSequenceNumber (project st)) = []) as [Hcount Hshots].
    { pose proof (shotsMade_length env vs 0 sd (uuids st)
                    (firstSequenceNumber (project st))) as Hlen.
      assert (succeeded env 0 sd vs = []) as Hnone.
      { apply elem_of_nil_inv. intros x Hx.
        apply succeeded_elem in Hx as (i & Hi & Hs).
        simpl in Hs. rewrite (Hall i x Hi) in Hs. done. }
      pose proof (shotsMade_succeeded vs 0 sd (uuids st)
                    (firstSequenceNumber (project st))
                    (Forall_isValid _)) as Hmade.
      rewrite Hnone in Hmade. apply Forall2_nil_inv_r in Hmade.
      rewrite Hmade in Hlen. by split. }
    unfold st'. rewrite processBatch_spec by done.
    cbn [project shots pendingPairs]. fold sd vs.
    rewrite Hshots, app_nil_r. split; [done|].
    rewrite marked_relabel by done.
    assert (map (relabel env 0 sd vs) (pendingPairs st)
            = map (fun p => if isValid p then with_status p error else p)
                  (pendingPairs st)) as ->.
    { apply map_ext_in. intros p Hp. apply list_elem_of_In in Hp.
      destruct (isValid p) eqn:Hv.
      - assert (p ∈ vs) as Hpv.
        { apply list_elem_of_filter. split; [by apply Is_true_true|done]. }
        apply list_elem_of_lookup_1 in Hpv as [a Ha].
        unfold vs. rewrite (relabel_qualifying _ 0 sd a) by done.
        unfold finalStatus. simpl. by rewrite (Hall a p Ha).
      - by apply relabel_other. }
    unfold purgeCompleted.
    rewrite filter_map_notCompleted.
    2:{ intros p. destruct (isValid p) eqn:Hv; [|done].
        unfold isValid in Hv. apply andb_true_iff in Hv as [_ Hv].
        by rewrite Hv. }
    destruct (0 <? length _) eqn:Hlen; [done|].
    exfalso. apply Nat.ltb_ge in Hlen. rewrite length_map in Hlen.
    destruct vs as [|p rest] eqn:Hvs; [done|].
    assert (p ∈ filter notCompleted (pendingPairs st)) as Hp.
    { assert (p ∈ filter isValid (pendingPairs st)) as Hin.
      { fold vs. rewrite Hvs. apply elem_of_cons. by left. }
      apply list_elem_of_filter in Hin as [Hv Hin].
      apply list_elem_of_filter. split; [|done].
      apply Is_true_true in Hv. unfold isValid in Hv.
      apply andb_true_iff in Hv as [_ Hv]. by apply Is_true_true. }
    destruct (filter notCompleted (pendingPairs st));
      [by apply elem_of_nil in Hp|simpl in Hlen; lia].
Qed.

End Isolation.

(** ** The list is never empty *)

Section NeverEmpty.

Variable env : Env.

Lemma filter_absent_id (l : list PendingPair) id0 :
  id0 ∉ map id l ->
  filter (fun p => negb (String.eqb (id p) id0)) l = l.
Proof.
  induction l as [|p l IH]; intros Hid; [done|].
  cbn [map] in Hid. apply not_elem_of_cons in Hid as [Hne Hid].
  rewrite filter_cons_True, IH; [done|done|].
  apply Is_true_true, negb_true_iff. by apply String.eqb_neq.
Qed.

(** Removing by id takes at most one pair from a list of distinct ids. *)
Lemma filter_other_ids_length (l : list PendingPair) id0 :
  NoDup (map id l) ->
  length l - 1 <= length (filter (fun p => negb (String.eqb (id p) id0)) l).
Proof.
  induction l as [|p l IH]; intros Hnd; [done|].
  cbn [map] in Hnd. apply NoDup_cons in Hnd as [Hp Hnd].
  destruct (String.eqb_spec (id p) id0) as [Heq|Hne].
  - rewrite filter_cons_False.
    + rewrite filter_absent_id by (by rewrite <- Heq). simpl. lia.
    + rewrite <- Heq, String.eqb_refl. simpl. tauto.
  - rewrite filter_cons_True.
    + specialize (IH Hnd). simpl. lia.
    + apply Is_true_true, negb_true_iff. by apply String.eqb_neq.
Qed.

Lemma purgeCompleted_nonempty uuidOf l u :
  fst (purgeCompleted uuidOf (l, u)) <> [].
Proof.
  unfold purgeCompleted.
  destruct (0 <? length (filter notCompleted l)) eqn:Hlen; cbn [fst]; [|done].
  apply Nat.ltb_lt in Hlen. intros E. rewrite E in Hlen. simpl in Hlen. lia.
Qed.

Lemma length_nonempty {A : Type} (l : list A) : 0 < length l -> l <> [].
Proof. destruct l; simpl; [lia|done]. Qed.

Lemma successCount_all vs : forall j sd,
  (forall i p, vs !! i = Some p -> succeeds env (j + i) sd p = true) ->
  successCount env j sd vs = length vs.
Proof.
  induction vs as [|p rest IH]; intros j sd Hall; [done|].
  cbn [successCount length].
  rewrite (IH (S j) sd).
  - specialize (Hall 0 p eq_refl). rewrite Nat.add_0_r in Hall.
    by rewrite Hall.
  - intros i q Hi. specialize (Hall (S i) q Hi).
    by rewrite Nat.add_succ_r in Hall.
Qed.

Lemma numbersUsed_le_length vs : forall j sd,
  numbersUsed env j sd vs <= length vs.
Proof.
  induction vs as [|p rest IH]; intros j sd; [done|].
  cbn [numbersUsed length]. specialize (IH (S j) sd).
  destruct (consumes env j sd p); lia.
Qed.

Lemma numbersUsed_all vs : forall j sd,
  (forall i p, vs !! i = Some p -> succeeds env (j + i) sd p = true) ->
  numbersUsed env j sd vs = length vs.
Proof.
  intros j sd Hall.
  pose proof (successCount_all vs j sd Hall).
  pose proof (successCount_le_numbersUsed env vs j sd).
  pose proof (numbersUsed_le_length vs j sd). lia.
Qed.

Lemma filter_all {A : Type} (P : A -> bool) (l : list A) :
  Forall (fun x => P x = true) l -> filter P l = l.
Proof.
  induction 1 as [|x l Hx Hl IH]; [done|].
  rewrite filter_cons_True, IH; [done|]. by apply Is_true_true.
Qed.

Lemma filter_all_completed (l : list PendingPair) :
  filter notCompleted (map (fun p => with_status p completed) l) = [].
Proof.
  induction l as [|p l IH]; [done|].
  cbn [map]. rewrite filter_cons_False; [done|]. simpl. tauto.
Qed.

Lemma handleImageUpload_length id0 file type prev u :
  length (fst (handleImageUpload id0 file type (prev, u))) = length prev.
Proof.
  unfold handleImageUpload. destruct (isImage file); cbn [negb fst]; [|done].
  unfold setField. by rewrite length_map.
Qed.

Lemma forEachColumn_length uuidOf type imgs cur u :
  length cur <= length (fst (forEachColumn uuidOf type imgs 0 cur u)).
Proof.
  destruct (forEachColumn_spec uuidOf type imgs 0 cur u) as (Hlen & _);
    [lia|].
  cbn zeta in Hlen. rewrite Hlen. lia.
Qed.

(** One operation, from a non-empty list of distinct ids. *)
Lemma perform_nonempty (op : Operation) (st : State) :
  pendingPairs st <> [] -> NoDup (map id (pendingPairs st)) ->
  pendingPairs (perform env op st) <> [].
Proof.
  intros Hne Hnd.
  assert (0 < length (pendingPairs st)) as Hpos.
  { destruct (pendingPairs st); [done|simpl; lia]. }
  destruct op as [|id0|id0 file type|files id0 type|dropped type|
                    |text|num|id0];
    unfold perform, withPending, pendingOf; cbn [pendingPairs].
  - unfold addPair. cbn [fst]. by destruct (pendingPairs st).
  - unfold removePendingPair.
    destruct (length (pendingPairs st) <=? 1) eqn:Hlen; cbn [fst]; [done|].
    apply Nat.leb_gt in Hlen. apply length_nonempty.
    pose proof (filter_other_ids_length (pendingPairs st) id0 Hnd). lia.
  - apply length_nonempty. by rewrite handleImageUpload_length.
  - destruct files as [|file others]; cbn [handleDropSlot fst]; [done|].
    apply length_nonempty. by rewrite handleImageUpload_length.
  - destruct (decide (decoded dropped = [])) as [Hnil|Himgs].
    { by rewrite batch_drop_without_image. }
    unfold handleBatchDrop.
    destruct (length (filter isImage dropped) =? 0) eqn:Hz.
    { by rewrite (decoded_length_0 _ Hz) in Himgs. }
    fold (decoded dropped). destruct type.
    + apply length_nonempty.
      pose proof (forEachColumn_length (randomUUID env) source_slot
                    (decoded dropped) (pendingPairs st) (uuids st)). lia.
    + apply length_nonempty.
      pose proof (forEachColumn_length (randomUUID env) target_slot
                    (decoded dropped) (pendingPairs st) (uuids st)). lia.
    + destruct (newPairsOf_spec (randomUUID env) (decoded dropped)
                  (uuids st)) as (Hlen & _).
      destruct (newPairsOf (randomUUID env) (decoded dropped) (uuids st))
        as [newPairs u']. cbn [fst] in *.
      apply length_nonempty. rewrite length_app, Hlen.
      destruct (decoded dropped) as [|img imgs]; [done|].
      cbn [length].
      pose proof (Nat.div_mod_eq (S (length imgs) + 1) 2).
      pose proof (Nat.mod_upper_bound (S (length imgs) + 1) 2). lia.
  - destruct (decide (filter isValid (pendingPairs st) = [])) as [Hnil|Hv].
    + by rewrite processBatch_noop.
    + rewrite processBatch_spec by done. cbn [pendingPairs].
      apply purgeCompleted_nonempty.
  - done.
  - done.
  - done.
Qed.

(** C6.  From a non-empty list of pairs with distinct ids every operation
    of the panel leaves a non-empty list.  Removing, by whatever id, from a
    list of one pair gives one fresh empty idle pair; so does the purge
    when no pair is left that is not completed, as after a batch in which
    every pair of the list qualified and succeeded. *)
Theorem pending_never_empty (op : Operation) (st : State) :
  pendingPairs st <> [] ->
  NoDup (map id (pendingPairs st)) ->
  pendingPairs (perform env op st) <> []
  /\ (forall id0 p u,
        removePendingPair (randomUUID env) id0 ([p], u)
        = ([mkPair (randomUUID env u) None None idle], S u))
  /\ (forall l u,
        filter notCompleted l = [] ->
        purgeCompleted (randomUUID env) (l, u)
        = ([mkPair (randomUUID env u) None None idle], S u))
  /\ (Forall (fun p => isValid p = true) (pendingPairs st) ->
      (forall j p, pendingPairs st !! j = Some p ->
                   succeeds env j (styleDirective st) p = true) ->
      pendingPairs (processBatch env st)
      = [mkPair (randomUUID env (uuids st + length (pendingPairs st)))
           None None idle]).
Proof.
  intros Hne Hnd. split_and!.
  - by apply perform_nonempty.
  - intros id0 p u. done.
  - intros l u Hl. unfold purgeCompleted. by rewrite Hl.
  - intros Hvalid Hall.
    assert (filter isValid (pendingPairs st) = pendingPairs st) as Hvs
      by (by apply filter_all).
    rewrite processBatch_spec by (by rewrite Hvs). cbn [pendingPairs].
    rewrite Hvs, numbersUsed_all by done.
    rewrite marked_relabel by done.
    assert (map (relabel env 0 (styleDirective st) (pendingPairs st))
              (pendingPairs st)
            = map (fun p => with_status p completed) (pendingPairs st)) as ->.
    { apply map_ext_in. intros p Hp.
      apply list_elem_of_In, list_elem_of_lookup_1 in Hp as [a Ha].
      pose proof (relabel_qualifying env (pendingPairs st) 0
                    (styleDirective st) a p Hnd) as Hrel.
      rewrite Hvs in Hrel. rewrite (Hrel Ha).
      unfold finalStatus. simpl. by rewrite (Hall a p Ha). }
    unfold purgeCompleted.
    by rewrite filter_all_completed.
Qed.

End NeverEmpty.

(** ** Distinct ids are kept

    The statements above that speak of a pair by its id take the ids of the
    list to be distinct.  They are, in every state the panel reaches, when
    [crypto.randomUUID] never returns the same identifier twice. *)

Section DistinctIds.

Variable env : Env.
Hypothesis randomUUID_inj : forall n m,
  randomUUID env n = randomUUID env m -> n = m.

Lemma drawnBefore_weaken u u' l :
  u <= u' -> drawnBefore (randomUUID env) u l ->
  drawnBefore (randomUUID env) u' l.
Proof.
  intros Hu H. eapply Forall_impl; [exact H|].
  intros p (n & Hn & Hid). exists n. split; [lia|done].
Qed.

Lemma drawnBefore_fresh u u' l :
  u <= u' -> drawnBefore (randomUUID env) u l ->
  randomUUID env u' ∉ map id l.
Proof.
  intros Hu H Hin. apply list_elem_of_In, in_map_iff in Hin as (p & Hid & Hp).
  unfold drawnBefore in H. rewrite Forall_forall in H.
  apply list_elem_of_In in Hp. destruct (H p Hp) as (n & Hn & Hidn).
  rewrite Hidn in Hid. apply randomUUID_inj in Hid. lia.
Qed.

Lemma drawnBefore_snoc u l p :
  drawnBefore (randomUUID env) u l -> NoDup (map id l) ->
  id p = randomUUID env u ->
  NoDup (map id (l ++ [p])) /\ drawnBefore (randomUUID env) (S u) (l ++ [p]).
Proof.
  intros Hd Hnd Hid. split.
  - rewrite map_app. apply NoDup_app. split_and!; [done| |apply NoDup_singleton].
    intros x Hx Hx'. cbn [map] in Hx'. apply list_elem_of_singleton in Hx'.
    subst x. rewrite Hid in Hx. by eapply drawnBefore_fresh in Hx.
  - apply Forall_app. split; [by eapply drawnBefore_weaken; [|exact Hd]; lia|].
    repeat constructor. exists u. split; [lia|done].
Qed.

Lemma map_id_setStatus id0 s l : map id (setStatus id0 s l) = map id l.
Proof.
  unfold setStatus. rewrite map_map. apply map_ext. intros p.
  by destruct (String.eqb (id p) id0).
Qed.

Lemma map_id_setField id0 type img l :
  map id (setField id0 type img l) = map id l.
Proof.
  unfold setField. rewrite map_map. apply map_ext. intros p.
  destruct (String.eqb (id p) id0); [apply with_field_id|done].
Qed.

Lemma map_id_marked vs : forall j sd l,
  map id (marked env j sd vs l) = map id l.
Proof.
  induction vs as [|p rest IH]; intros j sd l; [done|].
  cbn [marked]. by rewrite IH, map_id_setStatus.
Qed.

Lemma drawnBefore_ids u l l' :
  map id l' = map id l -> drawnBefore (randomUUID env) u l ->
  drawnBefore (randomUUID env) u l'.
Proof.
  intros Hids H. unfold drawnBefore in *. rewrite Forall_forall in *.
  intros p' Hp'.
  assert (id p' ∈ map id l) as Hin.
  { rewrite <- Hids. by apply list_elem_of_In, in_map, list_elem_of_In. }
  apply list_elem_of_In, in_map_iff in Hin as (p & Hid & Hp).
  apply list_elem_of_In in Hp. destruct (H p Hp) as (n & Hn & Hidn).
  exists n. split; [done|congruence].
Qed.

Lemma drawnBefore_filter (P : PendingPair -> bool) u l :
  drawnBefore (randomUUID env) u l ->
  drawnBefore (randomUUID env) u (filter P l).
Proof.
  unfold drawnBefore. rewrite !Forall_forall. intros H p Hp.
  apply list_elem_of_filter in Hp as [_ Hp]. by apply H.
Qed.

Lemma drawnBefore_fresh_pair u :
  NoDup (map id [emptyPair (randomUUID env u)])
  /\ drawnBefore (randomUUID env) (S u) [emptyPair (randomUUID env u)].
Proof.
  split; [apply NoDup_singleton|].
  repeat constructor. exists u. split; [lia|done].
Qed.

Lemma forEachColumn_ids type imgs : forall i cur u,
  NoDup (map id cur) -> drawnBefore (randomUUID env) u cur ->
  let r := forEachColumn (randomUUID env) type imgs i cur u in
  NoDup (map id (fst r)) /\ drawnBefore (randomUUID env) (snd r) (fst r).
Proof.
  induction imgs as [|img rest IH]; intros i cur u Hnd Hd; [by split|].
  cbn [forEachColumn]. destruct (cur !! i) as [p|] eqn:Hp.
  - assert (map id (<[i := with_field p type img]> cur) = map id cur) as Hids.
    { change (id <$> <[i := with_field p type img]> cur = id <$> cur).
      rewrite list_fmap_insert, with_field_id.
      apply list_insert_id. by rewrite list_lookup_fmap, Hp. }
    apply IH; [by rewrite Hids|by eapply drawnBefore_ids].
  - destruct (drawnBefore_snoc u cur
                (with_field (emptyPair (randomUUID env u)) type img) Hd Hnd)
      as [Hnd' Hd']; [apply with_field_id|].
    by apply IH.
Qed.

Lemma newPairsOf_ids imgs : forall u,
  let r := newPairsOf (randomUUID env) imgs u in
  u <= snd r
  /\ NoDup (map id (fst r))
  /\ Forall (fun p => exists n, u <= n < snd r /\ id p = randomUUID env n)
        (fst r).
Proof.
  induction imgs as [|img|img next rest IH] using list_pair_ind; intros u.
  - cbn. split_and!; [done|constructor|constructor].
  - cbn. split_and!; [lia|apply NoDup_singleton|].
    repeat constructor. exists u. split; [lia|done].
  - cbn [newPairsOf]. specialize (IH (S u)).
    destruct (newPairsOf (randomUUID env) rest (S u)) as [more u'].
    cbn [fst snd] in *. destruct IH as (Hu & Hnd & Hrange).
    split_and!; [lia| |].
    + cbn [map id]. apply NoDup_cons. split; [|done]. intros Hin.
      apply list_elem_of_In, in_map_iff in Hin as (p & Hid & Hp).
      rewrite Forall_forall in Hrange. apply list_elem_of_In in Hp.
      destruct (Hrange p Hp) as (n & Hn & Hidn).
      rewrite Hidn in Hid. apply randomUUID_inj in Hid. lia.
    + constructor; [exists u; split; [lia|done]|].
      eapply Forall_impl; [exact Hrange|].
      intros p (n & Hn & Hid). exists n. split; [lia|done].
Qed.

(** Every operation of the panel keeps the list non-empty with distinct ids
    drawn so far. *)
Lemma perform_wellKept op st :
  wellKept env st -> wellKept env (perform env op st).
Proof.
  intros (Hne & Hnd & Hd). split.
  { by apply perform_nonempty. }
  destruct op as [|id0|id0 file type|files id0 type|dropped type|
                    |text|num|id0];
    unfold perform, withPending, pendingOf; cbn [pendingPairs uuids].
  - unfold addPair. cbn [fst snd].
    by apply drawnBefore_snoc.
  - unfold removePendingPair.
    destruct (length (pendingPairs st) <=? 1); cbn [fst snd].
    + apply drawnBefore_fresh_pair.
    + split; [by apply NoDup_ids_filter|by apply drawnBefore_filter].
  - unfold handleImageUpload. destruct (isImage file); cbn [negb fst snd].
    + rewrite map_id_setField. split; [done|].
      eapply drawnBefore_ids; [apply map_id_setField|done].
    + by split.
  - destruct files as [|file others]; cbn [handleDropSlot]; [by split|].
    unfold handleImageUpload. destruct (isImage file); cbn [negb fst snd].
    + rewrite map_id_setField. split; [done|].
      eapply drawnBefore_ids; [apply map_id_setField|done].
    + by split.
  - unfold handleBatchDrop.
    destruct (length (filter isImage dropped) =? 0); [by split|].
    destruct type.
    + by apply forEachColumn_ids.
    + by apply forEachColumn_ids.
    + pose proof (newPairsOf_ids (map processFile (filter isImage dropped))
                    (uuids st)) as Hnew.
      destruct (newPairsOf (randomUUID env) _ (uuids st)) as [newPairs u'].
      cbn [fst snd] in *. destruct Hnew as (Hu & Hndn & Hrange). split.
      * rewrite map_app. apply NoDup_app.
        split_and!; [by apply NoDup_ids_filter| |done].
        intros x Hx Hx'.
        apply list_elem_of_In, in_map_iff in Hx as (p & Hid & Hp).
        apply list_elem_of_In, list_elem_of_filter in Hp as [_ Hp].
        apply list_elem_of_In, in_map_iff in Hx' as (q & Hidq & Hq).
        unfold drawnBefore in Hd. rewrite Forall_forall in Hd, Hrange.
        destruct (Hd p Hp) as (n & Hn & Hidn).
        apply list_elem_of_In in Hq. destruct (Hrange q Hq) as (m & Hm & Hidm).
        assert (n = m) by (apply randomUUID_inj; congruence). lia.
      * apply Forall_app. split.
        -- eapply drawnBefore_weaken; [exact Hu|]. by apply drawnBefore_filter.
        -- eapply Forall_impl; [exact Hrange|].
           intros p (n & Hn & Hid). exists n. split; [lia|done].
  - destruct (decide (filter isValid (pendingPairs st) = [])) as [Hnil|Hv].
    + rewrite processBatch_noop by done. by split.
    + rewrite processBatch_spec by done. cbn [pendingPairs uuids].
      set (l := marked env 0 (styleDirective st)
                  (filter isValid (pendingPairs st)) (pendingPairs st)).
      set (u := uuids st + numbersUsed env 0 (styleDirective st)
                             (filter isValid (pendingPairs st))).
      assert (map id l = map id (pendingPairs st)) as Hids
        by apply map_id_marked.
      assert (drawnBefore (randomUUID env) u l) as Hdl.
      { eapply drawnBefore_ids; [exact Hids|].
        eapply drawnBefore_weaken; [|exact Hd]. unfold u. lia. }
      unfold purgeCompleted.
      destruct (0 <? length (filter notCompleted l)); cbn [fst snd].
      * split; [|by apply drawnBefore_filter].
        apply NoDup_ids_filter. by rewrite Hids.
      * apply drawnBefore_fresh_pair.
  - by split.
  - by split.
  - by split.
Qed.

End DistinctIds.

(** From the mounted panel on, whatever the steps of the session and
    however the service answers in each of them. *)
Lemma reachable_wellKept (uuidOf : nat -> string) proj steps :
  (forall n m, uuidOf n = uuidOf m -> n = m) ->
  let st := run uuidOf steps (initialState uuidOf proj) in
  pendingPairs st <> []
  /\ NoDup (map id (pendingPairs st))
  /\ drawnBefore uuidOf (uuids st) (pendingPairs st).
Proof.
  intros Hinj.
  assert (forall world st,
            wellKept (inSession uuidOf world) st ->
            wellKept (inSession uuidOf world) (run uuidOf steps st)) as Hrun.
  { intros world. induction steps as [|[w op] steps IH]; intros st Hst;
      [done|].
    cbn [run fold_left fst snd]. apply IH.
    change (wellKept (inSession uuidOf w)
              (perform (inSession uuidOf w) op st)).
    by apply perform_wellKept. }
  set (world := mkEnv uuidOf (fun _ _ => Throw EmptyString)
                  (fun _ => Throw EmptyString) false).
  apply (Hrun world). split; [done|].
  apply (drawnBefore_fresh_pair (inSession uuidOf world) 0).
Qed.

(** ** Object identity: what the operations do to the previous list *)

Module RefsFacts.

Lemma view_nil h : Refs.view h [] = [].
Proof. done. Qed.

Lemma view_cons h l arr o :
  h !! l = Some o -> Refs.view h (l :: arr) = o :: Refs.view h arr.
Proof. intros H. unfold Refs.view. cbn [omap list_omap]. by rewrite H. Qed.

Lemma view_app h arr1 arr2 : Refs.view h (arr1 ++ arr2) = Refs.view h arr1 ++ Refs.view h arr2.
Proof. apply omap_app. Qed.

Lemma view_lookup h arr j :
  Forall (fun l => l < length h) arr ->
  Refs.view h arr !! j = arr !! j ≫= (fun l => h !! l).
Proof.
  intros Hwf. revert j. induction Hwf as [|l arr Hl Hwf IH]; intros j; [done|].
  destruct (lookup_lt_is_Some_2 h l Hl) as [o Ho].
  rewrite (view_cons _ _ _ _ Ho). destruct j as [|j]; simpl; [done|apply IH].
Qed.

Lemma view_length h arr :
  Forall (fun l => l < length h) arr -> length (Refs.view h arr) = length arr.
Proof.
  induction 1 as [|l arr Hl Hwf IH]; [done|].
  destruct (lookup_lt_is_Some_2 h l Hl) as [o Ho].
  rewrite (view_cons _ _ _ _ Ho). simpl. by rewrite IH.
Qed.

Lemma preserves_refl h : Refs.preserves h h.
Proof. by intros l o H. Qed.

Lemma preserves_trans h1 h2 h3 :
  Refs.preserves h1 h2 -> Refs.preserves h2 h3 -> Refs.preserves h1 h3.
Proof. intros H12 H23 l o H. by apply H23, H12. Qed.

Lemma preserves_app h ext : Refs.preserves h (h ++ ext).
Proof.
  intros l o H. rewrite lookup_app_l; [done|]. by eapply lookup_lt_Some.
Qed.

Lemma preserves_length h h' : Refs.preserves h h' -> length h <= length h'.
Proof.
  intros Hp. destruct h as [|o h _] using rev_ind; [simpl; lia|].
  rewrite length_app. simpl.
  assert ((h ++ [o]) !! length h = Some o) as Hl.
  { rewrite lookup_app_r by lia. by rewrite Nat.sub_diag. }
  apply Hp, lookup_lt_Some in Hl. lia.
Qed.

(** The previous list reads the same in a Refs.heap that Refs.preserves its objects. *)
Lemma preserves_view h h' arr :
  Refs.preserves h h' -> Forall (fun l => l < length h) arr ->
  Refs.view h' arr = Refs.view h arr.
Proof.
  intros Hp. induction 1 as [|l arr Hl Hwf IH]; [done|].
  destruct (lookup_lt_is_Some_2 h l Hl) as [o Ho].
  rewrite (view_cons _ _ _ _ Ho), (view_cons _ _ _ _ (Hp _ _ Ho)).
  by rewrite IH.
Qed.

Lemma Forall_lt_weaken (arr : list Refs.loc) n m :
  n <= m -> Forall (fun l => l < n) arr -> Forall (fun l => l < m) arr.
Proof.
  intros Hnm H. eapply Forall_impl; [exact H|]. intros l Hl. simpl in Hl. lia.
Qed.

(** [map] with a callback that rebuilds some of the objects. *)
Lemma mapRefs_spec (rebuild : PendingPair -> option PendingPair) arr :
  forall h,
    Forall (fun l => l < length h) arr -> NoDup arr ->
    let r := Refs.mapRefs rebuild h arr in
    Refs.preserves h (fst r)
    /\ Forall (fun l => l < length (fst r)) (snd r)
    /\ Forall (fun l => l ∈ arr \/ length h <= l) (snd r)
    /\ NoDup (snd r)
    /\ Refs.view (fst r) (snd r)
       = map (fun p => default p (rebuild p)) (Refs.view h arr).
Proof.
  induction arr as [|l rest IH]; intros h Hwf Hnd.
  - simpl. split_and!; try done. apply preserves_refl.
  - apply Forall_cons in Hwf as [Hl Hwf]. apply NoDup_cons in Hnd as [Hlr Hnd].
    destruct (lookup_lt_is_Some_2 h l Hl) as [p Hp].
    cbn [Refs.mapRefs]. rewrite Hp. cbn [mbind option_bind].
    rewrite (view_cons _ _ _ _ Hp). cbn [map].
    destruct (rebuild p) as [o|] eqn:Ho; cbn [Refs.alloc default].
    + specialize (IH (h ++ [o])).
      destruct (Refs.mapRefs rebuild (h ++ [o]) rest) as [h2 rest'].
      destruct IH as (Hpres & Hwf' & Hfrom & Hnd' & Hview).
      { eapply Forall_lt_weaken; [|exact Hwf]. rewrite length_app. lia. }
      { done. }
      cbn [fst snd] in *.
      assert (h2 !! length h = Some o) as Hnew.
      { apply Hpres. rewrite lookup_app_r by lia. by rewrite Nat.sub_diag. }
      split_and!.
      * eapply preserves_trans; [apply preserves_app|exact Hpres].
      * constructor; [by eapply lookup_lt_Some|done].
      * constructor; [right; lia|].
        eapply Forall_impl; [exact Hfrom|]. intros x [Hx|Hx].
        -- left. apply elem_of_cons. by right.
        -- right. rewrite length_app in Hx. simpl in Hx. lia.
      * apply NoDup_cons. split; [|done]. intros Hin.
        rewrite Forall_forall in Hfrom. destruct (Hfrom _ Hin) as [Hx|Hx].
        -- rewrite Forall_forall in Hwf. specialize (Hwf _ Hx). lia.
        -- rewrite length_app in Hx. simpl in Hx. lia.
      * rewrite (view_cons _ _ _ _ Hnew), Hview. f_equal. f_equal.
        apply preserves_view; [apply preserves_app|done].
    + specialize (IH h Hwf Hnd).
      destruct (Refs.mapRefs rebuild h rest) as [h2 rest'].
      destruct IH as (Hpres & Hwf' & Hfrom & Hnd' & Hview).
      cbn [fst snd] in *.
      split_and!.
      * done.
      * constructor; [|done]. apply Hpres, lookup_lt_Some in Hp. done.
      * constructor; [left; apply elem_of_cons; by left|].
        eapply Forall_impl; [exact Hfrom|]. intros x [Hx|Hx]; [|by right].
        left. apply elem_of_cons. by right.
      * apply NoDup_cons. split; [|done]. intros Hin.
        rewrite Forall_forall in Hfrom. destruct (Hfrom _ Hin) as [Hx|Hx].
        -- done.
        -- lia.
      * by rewrite (view_cons _ _ _ _ (Hpres _ _ Hp)), Hview.
Qed.

(** [filter] keeps references, and reads as the filter of the pairs. *)
Lemma filterRefs_spec keep h arr :
  Forall (fun l => l < length h) arr ->
  Refs.view h (Refs.filterRefs keep h arr) = filter keep (Refs.view h arr)
  /\ (forall l, l ∈ Refs.filterRefs keep h arr -> l ∈ arr).
Proof.
  intros Hwf. split.
  - induction Hwf as [|l arr Hl Hwf IH]; [done|].
    destruct (lookup_lt_is_Some_2 h l Hl) as [p Hp].
    rewrite (view_cons _ _ _ _ Hp). unfold Refs.filterRefs in *.
    assert (Refs.holdsAt keep h l = keep p) as Hh.
    { unfold Refs.holdsAt. by rewrite Hp. }
    destruct (keep p) eqn:Hk.
    + rewrite filter_cons_True by (by rewrite Hh).
      rewrite (view_cons _ _ _ _ Hp), IH.
      by rewrite filter_cons_True by (by rewrite Hk).
    + rewrite filter_cons_False by (rewrite Hh; simpl; tauto).
      by rewrite IH, filter_cons_False by (rewrite Hk; simpl; tauto).
  - intros l Hl. unfold Refs.filterRefs in Hl.
    by apply list_elem_of_filter in Hl as [_ Hl].
Qed.

Lemma filterRefs_wf keep h arr n :
  Forall (fun l => l < n) arr -> NoDup arr ->
  Forall (fun l => l < n) (Refs.filterRefs keep h arr)
  /\ NoDup (Refs.filterRefs keep h arr).
Proof.
  intros Hwf Hnd. split.
  - apply Forall_forall. intros l Hl. rewrite Forall_forall in Hwf.
    apply Hwf. unfold Refs.filterRefs in Hl.
    by apply list_elem_of_filter in Hl as [_ Hl].
  - by apply NoDup_filter.
Qed.

(** A new object at the end of the Refs.heap, referred to at the end of the
    array. *)
Lemma alloc_snoc h arr o :
  Forall (fun l => l < length h) arr -> NoDup arr ->
  Forall (fun l => l < length (h ++ [o])) (arr ++ [length h])
  /\ NoDup (arr ++ [length h])
  /\ Refs.view (h ++ [o]) (arr ++ [length h]) = Refs.view h arr ++ [o].
Proof.
  intros Hwf Hnd.
  assert ((h ++ [o]) !! length h = Some o) as Hnew.
  { rewrite lookup_app_r by lia. by rewrite Nat.sub_diag. }
  split_and!.
  - apply Forall_app. split.
    + eapply Forall_lt_weaken; [|exact Hwf]. rewrite length_app. lia.
    + repeat constructor. rewrite length_app. simpl. lia.
  - apply NoDup_app. split_and!; [done| |apply NoDup_singleton].
    intros x Hx Hx'. apply list_elem_of_singleton in Hx'.
    rewrite Forall_forall in Hwf. specialize (Hwf _ Hx). lia.
  - rewrite view_app, (view_cons _ _ _ _ Hnew), view_nil.
    f_equal. apply preserves_view; [apply preserves_app|done].
Qed.

(** A write through one reference shows at its index and nowhere else. *)
Lemma view_alter f h arr i l p :
  Forall (fun l => l < length h) arr -> NoDup arr ->
  arr !! i = Some l -> h !! l = Some p ->
  Refs.view (alter f l h) arr = <[i := f p]> (Refs.view h arr).
Proof.
  intros Hwf Hnd Hi Hp. apply list_eq. intros j.
  rewrite view_lookup by (by rewrite length_alter).
  destruct (decide (j = i)) as [->|Hne].
  - rewrite Hi. cbn [mbind option_bind].
    rewrite list_lookup_alter_eq, Hp.
    rewrite list_lookup_insert_eq; [done|].
    rewrite view_length by done. by eapply lookup_lt_Some.
  - rewrite list_lookup_insert_ne by done.
    rewrite view_lookup by done.
    destruct (arr !! j) as [l'|] eqn:Hj; [|done]. cbn [mbind option_bind].
    apply list_lookup_alter_ne. intros ->.
    apply Hne. by eapply NoDup_lookup.
Qed.

Section Operations.

Variable randomUUID : nat -> string.

Lemma addPair_refines st :
  Refs.wf st ->
  Refs.wf (Refs.addPair randomUUID st)
  /\ Refs.denote (Refs.addPair randomUUID st) = addPair randomUUID (Refs.denote st)
  /\ Refs.preserves (Refs.heap st) (Refs.heap (Refs.addPair randomUUID st)).
Proof.
  intros [Hwf Hnd]. unfold Refs.addPair, Refs.alloc, Refs.wf, Refs.denote, addPair.
  cbn [Refs.heap Refs.refs Refs.uuids].
  destruct (alloc_snoc (Refs.heap st) (Refs.refs st)
              (emptyPair (randomUUID (Refs.uuids st))) Hwf Hnd) as (H1 & H2 & H3).
  split_and!; [done|done|by rewrite H3|apply preserves_app].
Qed.

Lemma removePendingPair_refines id0 st :
  Refs.wf st ->
  Refs.wf (Refs.removePendingPair randomUUID id0 st)
  /\ Refs.denote (Refs.removePendingPair randomUUID id0 st)
     = removePendingPair randomUUID id0 (Refs.denote st)
  /\ Refs.preserves (Refs.heap st) (Refs.heap (Refs.removePendingPair randomUUID id0 st)).
Proof.
  intros [Hwf Hnd].
  unfold Refs.removePendingPair, Refs.alloc, Refs.wf, Refs.denote, removePendingPair.
  rewrite view_length by done.
  destruct (length (Refs.refs st) <=? 1); cbn [Refs.heap Refs.refs Refs.uuids].
  - destruct (alloc_snoc (Refs.heap st) [] (emptyPair (randomUUID (Refs.uuids st))))
      as (H1 & H2 & H3); [constructor|constructor|].
    cbn [app] in H1, H2, H3. rewrite view_nil in H3. cbn [app] in H3.
    split_and!; [done|done|by rewrite H3|apply preserves_app].
  - destruct (filterRefs_spec (fun p => negb (String.eqb (id p) id0))
                (Refs.heap st) (Refs.refs st) Hwf) as [Hview _].
    destruct (filterRefs_wf (fun p => negb (String.eqb (id p) id0))
                (Refs.heap st) (Refs.refs st) (length (Refs.heap st)) Hwf Hnd) as [H1 H2].
    split_and!; [done|done|by rewrite Hview|apply preserves_refl].
Qed.

Lemma setField_refines id0 type base64 st :
  Refs.wf st ->
  Refs.wf (Refs.setField id0 type base64 st)
  /\ Refs.denote (Refs.setField id0 type base64 st)
     = (setField id0 type base64 (fst (Refs.denote st)), snd (Refs.denote st))
  /\ Refs.preserves (Refs.heap st) (Refs.heap (Refs.setField id0 type base64 st)).
Proof.
  intros [Hwf Hnd]. unfold Refs.setField, Refs.wf, Refs.denote, setField.
  pose proof (mapRefs_spec
                (fun p => if String.eqb (id p) id0
                          then Some (with_field p type base64) else None)
                (Refs.refs st) (Refs.heap st) Hwf Hnd) as Hspec.
  destruct (Refs.mapRefs _ (Refs.heap st) (Refs.refs st)) as [h arr].
  cbn [fst snd Refs.heap Refs.refs Refs.uuids] in *.
  destruct Hspec as (Hpres & Hwf' & _ & Hnd' & Hview).
  split_and!; [done|done| |done].
  rewrite Hview. f_equal. apply map_ext. intros p.
  by destruct (String.eqb (id p) id0).
Qed.

Lemma handleImageUpload_refines id0 file type st :
  Refs.wf st ->
  Refs.wf (Refs.handleImageUpload id0 file type st)
  /\ Refs.denote (Refs.handleImageUpload id0 file type st)
     = handleImageUpload id0 file type (Refs.denote st)
  /\ Refs.preserves (Refs.heap st) (Refs.heap (Refs.handleImageUpload id0 file type st)).
Proof.
  intros Hwf. unfold Refs.handleImageUpload, handleImageUpload.
  destruct (isImage file); cbn [negb].
  - destruct (setField_refines id0 type (processFile file) st Hwf)
      as (H1 & H2 & H3).
    split_and!; [done| |done]. rewrite H2. by unfold Refs.denote.
  - split_and!; [done|done|apply preserves_refl].
Qed.

Lemma setStatus_refines id0 s st :
  Refs.wf st ->
  Refs.wf (Refs.setStatus id0 s st)
  /\ Refs.denote (Refs.setStatus id0 s st)
     = (setStatus id0 s (fst (Refs.denote st)), snd (Refs.denote st))
  /\ Refs.preserves (Refs.heap st) (Refs.heap (Refs.setStatus id0 s st)).
Proof.
  intros [Hwf Hnd]. unfold Refs.setStatus, Refs.wf, Refs.denote, setStatus.
  pose proof (mapRefs_spec
                (fun p => if String.eqb (id p) id0
                          then Some (with_status p s) else None)
                (Refs.refs st) (Refs.heap st) Hwf Hnd) as Hspec.
  destruct (Refs.mapRefs _ (Refs.heap st) (Refs.refs st)) as [h arr].
  cbn [fst snd Refs.heap Refs.refs Refs.uuids] in *.
  destruct Hspec as (Hpres & Hwf' & _ & Hnd' & Hview).
  split_and!; [done|done| |done].
  rewrite Hview. f_equal. apply map_ext. intros p.
  by destruct (String.eqb (id p) id0).
Qed.

Lemma purgeCompleted_refines st :
  Refs.wf st ->
  Refs.wf (Refs.purgeCompleted randomUUID st)
  /\ Refs.denote (Refs.purgeCompleted randomUUID st)
     = purgeCompleted randomUUID (Refs.denote st)
  /\ Refs.preserves (Refs.heap st) (Refs.heap (Refs.purgeCompleted randomUUID st)).
Proof.
  intros [Hwf Hnd].
  unfold Refs.purgeCompleted, Refs.alloc, Refs.wf, Refs.denote, purgeCompleted.
  destruct (filterRefs_spec notCompleted (Refs.heap st) (Refs.refs st) Hwf)
    as [Hview _].
  destruct (filterRefs_wf notCompleted (Refs.heap st) (Refs.refs st)
              (length (Refs.heap st)) Hwf Hnd) as [H1 H2].
  rewrite <- Hview, view_length by done.
  destruct (0 <? length (Refs.filterRefs notCompleted (Refs.heap st) (Refs.refs st)));
    cbn [Refs.heap Refs.refs Refs.uuids].
  - split_and!; [done|done|done|apply preserves_refl].
  - destruct (alloc_snoc (Refs.heap st) [] (emptyPair (randomUUID (Refs.uuids st))))
      as (H1' & H2' & H3'); [constructor|constructor|].
    cbn [app] in H1', H2', H3'. rewrite view_nil in H3'. cbn [app] in H3'.
    split_and!; [done|done|by rewrite H3'|apply preserves_app].
Qed.

(** The [forEach] of a column: the array keeps its references and gets new
    ones at its end; read in the new heap it is the list of the store
    above. *)
Lemma forEachColumn_refines type imgs :
  forall i h arr u,
    Forall (fun l => l < length h) arr -> NoDup arr ->
    let r := Refs.forEachColumn randomUUID type imgs i h arr u in
    Refs.wf r
    /\ Refs.denote r = forEachColumn randomUUID type imgs i (Refs.view h arr) u
    /\ (exists ext, Refs.refs r = arr ++ ext)
    /\ length h <= length (Refs.heap r).
Proof.
  induction imgs as [|img rest IH]; intros i h arr u Hwf Hnd.
  - cbn. split_and!; [by split|done|by exists []; rewrite app_nil_r|done].
  - cbn [Refs.forEachColumn forEachColumn].
    rewrite view_lookup by done.
    destruct (arr !! i) as [l|] eqn:Hi; cbn [mbind option_bind].
    + assert (l < length h) as Hl by (by eapply Forall_lookup_1 in Hwf).
      destruct (lookup_lt_is_Some_2 h l Hl) as [p Hp]. rewrite Hp.
      destruct (IH (S i) (alter (fun p => with_field p type img) l h) arr u)
        as (H1 & H2 & H3 & H4); [by rewrite length_alter|done|].
      rewrite (view_alter _ _ _ _ _ _ Hwf Hnd Hi Hp) in H2.
      rewrite length_alter in H4. by split_and!.
    + unfold Refs.alloc.
      set (new := with_field (emptyPair (randomUUID u)) type img).
      destruct (alloc_snoc h arr new Hwf Hnd) as (Hwf' & Hnd' & Hview).
      destruct (IH (S i) (h ++ [new]) (arr ++ [length h]) (S u) Hwf' Hnd')
        as (H1 & H2 & [ext H3] & H4).
      rewrite Hview in H2. rewrite length_app in H4. simpl in H4.
      split_and!; [done|done| |lia].
      exists ([length h] ++ ext). by rewrite app_assoc.
Qed.

(** The loop of the mixed zone allocates every pair it forms. *)
Lemma newPairsOf_refines imgs :
  forall h u,
    let r := Refs.newPairsOf randomUUID imgs h u in
    Refs.preserves h (Refs.heap r)
    /\ Forall (fun l => length h <= l < length (Refs.heap r)) (Refs.refs r)
    /\ NoDup (Refs.refs r)
    /\ Refs.denote r = newPairsOf randomUUID imgs u.
Proof.
  induction imgs as [|img|img next rest IH] using list_pair_ind; intros h u.
  - cbn. split_and!; [apply preserves_refl|constructor|constructor|done].
  - cbn [Refs.newPairsOf newPairsOf Refs.alloc Refs.heap Refs.refs].
    set (o := mkPair (randomUUID u) (Some img) (or_null None) idle).
    destruct (alloc_snoc h [] o) as (H1 & H2 & H3); [constructor..|].
    cbn [app] in H1, H2, H3. rewrite view_nil in H3. cbn [app] in H3.
    split_and!; [apply preserves_app| |done|].
    + repeat constructor. rewrite length_app. simpl. lia.
    + unfold Refs.denote. cbn [Refs.heap Refs.refs Refs.uuids]. by rewrite H3.
  - cbn [Refs.newPairsOf newPairsOf Refs.alloc].
    set (o := mkPair (randomUUID u) (Some img) (or_null (Some next)) idle).
    specialize (IH (h ++ [o]) (S u)). cbn zeta in IH.
    destruct IH as (Hpres & Hrange & Hnd & Hden).
    unfold Refs.denote in Hden.
    destruct (newPairsOf randomUUID rest (S u)) as [more u'].
    injection Hden as Hview Hu.
    cbn [Refs.heap Refs.refs Refs.uuids].
    rewrite length_app in Hrange. simpl in Hrange.
    assert (Refs.heap (Refs.newPairsOf randomUUID rest (h ++ [o]) (S u))
              !! length h = Some o) as Hnew.
    { apply Hpres. rewrite lookup_app_r by lia. by rewrite Nat.sub_diag. }
    split_and!.
    + eapply preserves_trans; [apply preserves_app|exact Hpres].
    + constructor.
      * apply lookup_lt_Some in Hnew. lia.
      * eapply Forall_impl; [exact Hrange|]. intros l Hl. simpl in Hl. lia.
    + apply NoDup_cons. split; [|done]. intros Hin.
      rewrite Forall_forall in Hrange. specialize (Hrange _ Hin). lia.
    + unfold Refs.denote. cbn [Refs.heap Refs.refs Refs.uuids].
      by rewrite (view_cons _ _ _ _ Hnew), Hview, Hu.
Qed.

Lemma handleBatchDrop_refines dropped type st :
  Refs.wf st ->
  Refs.wf (Refs.handleBatchDrop randomUUID dropped type st)
  /\ Refs.denote (Refs.handleBatchDrop randomUUID dropped type st)
     = handleBatchDrop randomUUID dropped type (Refs.denote st).
Proof.
  intros [Hwf Hnd]. unfold Refs.handleBatchDrop, handleBatchDrop.
  destruct (length (filter isImage dropped) =? 0); [by split|].
  unfold Refs.denote at 2.
  destruct type.
  - by destruct (forEachColumn_refines source_slot
                   (map processFile (filter isImage dropped)) 0
                   (Refs.heap st) (Refs.refs st) (Refs.uuids st) Hwf Hnd)
      as (H1 & H2 & _).
  - by destruct (forEachColumn_refines target_slot
                   (map processFile (filter isImage dropped)) 0
                   (Refs.heap st) (Refs.refs st) (Refs.uuids st) Hwf Hnd)
      as (H1 & H2 & _).
  - destruct (newPairsOf_refines (map processFile (filter isImage dropped))
                (Refs.heap st) (Refs.uuids st))
      as (Hpres & Hrange & Hndn & Hden).
    unfold Refs.denote in Hden.
    destruct (newPairsOf randomUUID _ (Refs.uuids st)) as [newPairs u'].
    injection Hden as Hview Hu.
    set (keep := fun p : PendingPair => truthy (source p) || truthy (target p)).
    destruct (filterRefs_spec keep (Refs.heap st) (Refs.refs st) Hwf)
      as [Hfview Hfin].
    destruct (filterRefs_wf keep (Refs.heap st) (Refs.refs st)
                (length (Refs.heap st)) Hwf Hnd) as [Hfwf Hfnd].
    unfold Refs.wf, Refs.denote. cbn [Refs.heap Refs.refs Refs.uuids].
    split_and!.
    + apply Forall_app. split.
      * eapply Forall_lt_weaken; [|exact Hfwf]. by apply preserves_length.
      * eapply Forall_impl; [exact Hrange|]. intros l Hl. simpl in Hl. lia.
    + apply NoDup_app. split_and!; [done| |done].
      intros l Hl Hl'. rewrite Forall_forall in Hfwf, Hrange.
      specialize (Hfwf _ Hl). specialize (Hrange _ Hl'). simpl in *. lia.
    + rewrite view_app, Hview, Hu. f_equal. f_equal.
      rewrite (preserves_view _ _ _ Hpres Hfwf). done.
Qed.

(** Adding, removing, uploading to a slot, a status transition, the purge
    and the mixed drop leave every object of the heap as it was: the
    previous list reads as before. *)
Lemma mixed_drop_preserves dropped st :
  Refs.preserves (Refs.heap st)
    (Refs.heap (Refs.handleBatchDrop randomUUID dropped mixed st)).
Proof.
  unfold Refs.handleBatchDrop.
  destruct (length (filter isImage dropped) =? 0); [apply preserves_refl|].
  cbn [Refs.heap].
  by destruct (newPairsOf_refines (map processFile (filter isImage dropped))
                 (Refs.heap st) (Refs.uuids st)) as (Hpres & _).
Qed.

Lemma previous_list_unchanged st :
  Refs.wf st ->
  let before := Refs.view (Refs.heap st) (Refs.refs st) in
  let after (st' : Refs.Store) := Refs.view (Refs.heap st') (Refs.refs st) in
  after (Refs.addPair randomUUID st) = before
  /\ (forall id0, after (Refs.removePendingPair randomUUID id0 st) = before)
  /\ (forall id0 file type,
        after (Refs.handleImageUpload id0 file type st) = before)
  /\ (forall id0 s, after (Refs.setStatus id0 s st) = before)
  /\ (forall dropped,
        after (Refs.handleBatchDrop randomUUID dropped mixed st) = before)
  /\ after (Refs.purgeCompleted randomUUID st) = before.
Proof.
  intros Hwf before after. pose proof Hwf as [Hin _]. unfold after, before.
  split_and!; intros; apply preserves_view; try done.
  - by apply addPair_refines.
  - by apply removePendingPair_refines.
  - by apply handleImageUpload_refines.
  - by apply setStatus_refines.
  - apply mixed_drop_preserves.
  - by apply purgeCompleted_refines.
Qed.

(** A column drop does not: the previous array, read in the heap the drop
    leaves, shows the images of the drop. *)
Lemma column_drop_previous_list type dropped st :
  Refs.wf st ->
  let st' := Refs.handleBatchDrop randomUUID dropped (zoneOf type) st in
  Refs.view (Refs.heap st') (Refs.refs st)
  = take (length (Refs.refs st))
      (fst (handleBatchDrop randomUUID dropped (zoneOf type)
              (Refs.denote st))).
Proof.
  intros [Hwf Hnd] st'.
  destruct (decide (decoded dropped = [])) as [Hnil|Hne].
  { unfold st'. rewrite batch_drop_without_image by done.
    unfold Refs.handleBatchDrop.
    assert (filter isImage dropped = []) as ->.
    { unfold decoded in Hnil. by apply fmap_nil_inv in Hnil. }
    cbn. rewrite firstn_all2; [done|]. by rewrite view_length. }
  assert (Refs.denote st' = handleBatchDrop randomUUID dropped (zoneOf type)
                              (Refs.denote st)) as <-.
  { by apply handleBatchDrop_refines. }
  assert (exists ext, Refs.refs st' = Refs.refs st ++ ext
                      /\ Refs.wf st') as (ext & Hext & [Hwf' _]).
  { unfold st', Refs.handleBatchDrop.
    destruct (length (filter isImage dropped) =? 0).
    - exists []. by rewrite app_nil_r.
    - destruct (forEachColumn_refines type
                  (map processFile (filter isImage dropped)) 0
                  (Refs.heap st) (Refs.refs st) (Refs.uuids st) Hwf Hnd)
        as (H1 & _ & [ext H3] & _).
      exists ext. by destruct type. }
  unfold Refs.denote. cbn [fst]. rewrite Hext, view_app.
  rewrite Hext in Hwf'. apply Forall_app in Hwf' as [Hwf1 _].
  rewrite take_app_length'; [done|]. by rewrite view_length.
Qed.

End Operations.

End RefsFacts.

(** C2, where the code departs from it.  An image dropped on the alpha zone
    over a list of one empty pair: the handler copies the array and then
    assigns to [currentPairs[0].source], that is to the pair object of the
    previous list, which from then on shows the image. *)
Theorem column_drop_writes_into_previous_pair :
  let st := Refs.mkStore [Sample.blank] [0] 1 in
  let st' := Refs.handleBatchDrop Sample.uuid [Sample.png] alpha st in
  Refs.wf st
  /\ Refs.view (Refs.heap st) (Refs.refs st)
     = [mkPair "c" None None idle]
  /\ Refs.view (Refs.heap st') (Refs.refs st)
     = [mkPair "c" (Some "data:image/png;base64,QUFB") None idle]
  /\ Refs.view (Refs.heap st') (Refs.refs st)
     <> Refs.view (Refs.heap st) (Refs.refs st).
Proof.
  split_and!.
  - split; [repeat constructor|]. apply NoDup_singleton.
  - done.
  - done.
  - by vm_compute.
Qed.

(** ** The statements on the sample data *)

Lemma single_slot_assignment_witness :
  exists q,
    fst (handleImageUpload "b" Sample.png target_slot
           ([Sample.plateA; Sample.plateB; Sample.blank], 3)) !! 1 = Some q
    /\ target q = Some "data:image/png;base64,QUFB"
    /\ source q = source Sample.plateB
    /\ status q = idle.
Proof.
  destruct (single_slot_assignment "b" Sample.png target_slot []
              [Sample.plateA; Sample.plateB; Sample.blank] 3)
    as (_ & _ & H & _).
  destruct (H 1 Sample.plateB eq_refl) as (q & Hq & _ & Hst & Hother & Hfield & _).
  exists q. by split_and!.
Defined.

Lemma column_batch_assignment_witness :
  let next :=
    fst (handleBatchDrop Sample.uuid
           [Sample.png; Sample.notes; Sample.jpeg; Sample.gif] beta
           ([Sample.plateA; Sample.blank], 2)) in
  length next = 3
  /\ (exists q, next !! 2 = Some q /\ status q = idle
                /\ target q = Some "data:image/gif;base64,Q0ND"
                /\ source q = None).
Proof.
  destruct (column_batch_assignment Sample.uuid target_slot
              [Sample.png; Sample.notes; Sample.jpeg; Sample.gif]
              [Sample.plateA; Sample.blank] 2) as (Hlen & _ & Hnew & _).
  split; [exact Hlen|].
  destruct (Hnew 2 "data:image/gif;base64,Q0ND"%string) as (q & Hq & H);
    [simpl; lia|done|].
  by exists q.
Defined.

Lemma mixed_batch_assignment_witness :
  let dropped := [Sample.png; Sample.notes; Sample.jpeg; Sample.gif] in
  let prev := [Sample.blank; Sample.plateA] in
  0 < length (decoded dropped)
  /\ Forall (fun img => img <> EmptyString) (decoded dropped)
  /\ (exists newPairs,
        fst (handleBatchDrop Sample.uuid dropped mixed (prev, 2))
        = [Sample.plateA] ++ newPairs
        /\ length newPairs = 2)
  /\ handleBatchDrop Sample.uuid [Sample.notes] mixed (prev, 2) = (prev, 2).
Proof.
  assert (0 < length (decoded [Sample.png; Sample.notes; Sample.jpeg;
                               Sample.gif])) as Hk by (vm_compute; lia).
  assert (Forall (fun img => img <> EmptyString)
            (decoded [Sample.png; Sample.notes; Sample.jpeg; Sample.gif]))
    as Hne by (repeat constructor; discriminate).
  split; [exact Hk|]. split; [exact Hne|]. split.
  - destruct (proj2 (mixed_batch_assignment Sample.uuid
                       [Sample.png; Sample.notes; Sample.jpeg; Sample.gif]
                       [Sample.blank; Sample.plateA] 2) Hk Hne)
      as (newPairs & Heq & Hlen & _).
    exists newPairs. by split.
  - exact (proj1 (mixed_batch_assignment Sample.uuid [Sample.notes]
                    [Sample.blank; Sample.plateA] 2) eq_refl).
Defined.

(** A drop of a text file on the mixed zone forms no pair and discards
    nothing: the empty pair of the list stays. *)
Lemma mixed_drop_without_image_keeps_empty_pairs :
  let prev := [Sample.blank] in
  let next := fst (handleBatchDrop Sample.uuid [Sample.notes] mixed (prev, 1)) in
  length (decoded [Sample.notes]) = 0
  /\ next = [Sample.blank]
  /\ ~ (exists newPairs,
          length newPairs = (length (decoded [Sample.notes]) + 1) / 2
          /\ next = filter (fun p => truthy (source p) || truthy (target p))
                      prev ++ newPairs).
Proof.
  split; [done|]. split; [done|].
  intros (newPairs & Hlen & Heq).
  change ((length (decoded [Sample.notes]) + 1) / 2) with 0 in Hlen.
  apply nil_length_inv in Hlen. subst newPairs. by vm_compute in Heq.
Qed.

Lemma failure_is_isolated_witness :
  let st := Sample.panel 5 [] in
  let st' := processBatch Sample.flaky st in
  NoDup (map id (pendingPairs st))
  /\ (forall s, with_status Sample.plateA s ∉ pendingPairs st')
  /\ with_status Sample.plateB error ∈ pendingPairs st'
  /\ (Sample.plateB ∉ succeeded Sample.flaky 0 (styleDirective st)
                         (filter isValid (pendingPairs st)))
  /\ (pendingPairs (processBatch Sample.down st)
      = [with_status Sample.plateA error; with_status Sample.plateB error;
         Sample.blank])
  /\ shots (project (processBatch Sample.down st)) = [].
Proof.
  assert (NoDup (map id (pendingPairs (Sample.panel 5 [])))) as Hnd.
  { change (NoDup ["a"; "b"; "c"]%string).
    apply (bool_decide_unpack (NoDup ["a"; "b"; "c"]%string)).
    vm_compute. exact I. }
  split; [exact Hnd|].
  destruct (failure_is_isolated Sample.flaky (Sample.panel 5 []) Hnd)
    as (HAB & _).
  destruct (HAB 0 1 Sample.plateA Sample.plateB eq_refl eq_refl eq_refl eq_refl)
    as (H1 & _ & H2 & _ & H4).
  destruct (failure_is_isolated Sample.down (Sample.panel 5 []) Hnd)
    as (_ & _ & _ & Hall).
  destruct Hall as [Hshots Hpending].
  { done. }
  { intros [|[|j]] p Hp; [by injection Hp as <-..|done]. }
  by split_and!.
Defined.

Lemma pending_never_empty_witness :
  let st := Sample.panel 5 [] in
  pendingPairs st <> []
  /\ NoDup (map id (pendingPairs st))
  /\ pendingPairs (perform Sample.quiet (DoRemovePendingPair "b") st) <> []
  /\ pendingPairs (perform Sample.quiet DoProcessBatch st) <> [].
Proof.
  assert (pendingPairs (Sample.panel 5 []) <> []) as Hne by done.
  assert (NoDup (map id (pendingPairs (Sample.panel 5 [])))) as Hnd.
  { change (NoDup ["a"; "b"; "c"]%string).
    apply (bool_decide_unpack (NoDup ["a"; "b"; "c"]%string)).
    vm_compute. exact I. }
  split; [exact Hne|]. split; [exact Hnd|]. split.
  - exact (proj1 (pending_never_empty Sample.quiet (DoRemovePendingPair "b")
                    (Sample.panel 5 []) Hne Hnd)).
  - exact (proj1 (pending_never_empty Sample.quiet DoProcessBatch
                    (Sample.panel 5 []) Hne Hnd)).
Defined.

Lemma batch_busy_bracket_witness :
  (exists mid,
     trace (processBatch Sample.flaky (Sample.panel 5 []))
     = [] ++ [EvBusy true] ++ mid ++ [EvBusy false]
     /\ Forall (fun e => isBusyEvent e = false) mid)
  /\ processBatch Sample.flaky
       (mkState [Sample.blank] "Ink wash." (mkProject 5 []) 1 [])
     = mkState [Sample.blank] "Ink wash." (mkProject 5 []) 1 [].
Proof.
  split.
  - destruct (proj2 (batch_busy_bracket Sample.flaky (Sample.panel 5 [])))
      as (mid & Htrace & Hmid & _); [done|].
    by exists mid.
  - exact (proj1 (batch_busy_bracket Sample.flaky
                    (mkState [Sample.blank] "Ink wash." (mkProject 5 []) 1 []))
             eq_refl).
Defined.

Lemma empty_result_topic_placeholder_witness :
  exists s,
    shots (project (fst (processPair Sample.quiet 0 Sample.plateA
                           (Sample.panel 5 [], 5%Z))))
    = [] ++ [s]
    /\ topic s = "Sequence Segment"%string.
Proof.
  destruct (proj1 (empty_result_topic_placeholder Sample.quiet
                     (Sample.panel 5 []))
              0 Sample.plateA 5%Z (mkResult None None None) eq_refl eq_refl)
    as (s & Hs & Htopic & _).
  by exists s.
Defined.



(** * Further properties of the panel *)

(** ** The pending list: adding, removing, uploading *)

(** Filtering out the key of one element of a list of distinct keys deletes
    that element. *)
Lemma filter_key_delete {A : Type} (key : A -> string) (l : list A) :
  forall i x,
    NoDup (map key l) -> l !! i = Some x ->
    filter (fun y => negb (String.eqb (key y) (key x))) l = delete i l.
Proof.
  induction l as [|y l IH]; intros i x Hnd Hi; [done|].
  cbn [map] in Hnd. apply NoDup_cons in Hnd as [Hy Hnd].
  destruct i as [|i]; simpl in Hi.
  - injection Hi as ->. rewrite filter_cons_False.
    + cbn. clear IH. induction l as [|z l IHl]; [done|].
      cbn [map] in Hy, Hnd. apply not_elem_of_cons in Hy as [Hne Hy].
      apply NoDup_cons in Hnd as [_ Hnd].
      rewrite filter_cons_True.
      * f_equal. by apply IHl.
      * apply Is_true_true, negb_true_iff, String.eqb_neq. congruence.
    + rewrite String.eqb_refl. simpl. tauto.
  - rewrite filter_cons_True.
    + cbn. f_equal. by apply IH.
    + apply Is_true_true, negb_true_iff, String.eqb_neq. intros Heq.
      apply Hy. rewrite Heq.
      apply list_elem_of_In, in_map, list_elem_of_In.
      by eapply list_elem_of_lookup_2.
Qed.

(** X1.  Adding a plate and removing it again, by the fresh id it got, gives
    back the list there was (one identifier has been drawn): the list must
    hold a pair, or the removal resets it instead. *)
Theorem add_then_remove (uuidOf : nat -> string) (prev : list PendingPair)
    (u : nat) :
  prev <> [] ->
  uuidOf u ∉ map id prev ->
  removePendingPair uuidOf (uuidOf u) (addPair uuidOf (prev, u)) = (prev, S u).
Proof.
  intros Hne Hfresh. unfold addPair, removePendingPair.
  rewrite length_app. cbn [length].
  destruct (length prev + 1 <=? 1) eqn:Hlen.
  { apply Nat.leb_le in Hlen. destruct prev; [done|simpl in Hlen; lia]. }
  rewrite filter_app, filter_absent_id by done.
  rewrite filter_cons_False, filter_nil, app_nil_r; [done|].
  cbn [emptyPair id]. rewrite String.eqb_refl. simpl. tauto.
Qed.

(** X2.  From a list of two or more pairs with distinct ids, removing by the
    id of the pair at index [i] deletes that pair and nothing else, and
    removing by an id no pair has changes nothing. *)
Theorem remove_takes_one_pair (uuidOf : nat -> string)
    (l : list PendingPair) (u : nat) :
  NoDup (map id l) ->
  1 < length l ->
  (forall i p, l !! i = Some p ->
     removePendingPair uuidOf (id p) (l, u) = (delete i l, u))
  /\ (forall id0, id0 ∉ map id l ->
        removePendingPair uuidOf id0 (l, u) = (l, u)).
Proof.
  intros Hnd Hlen. unfold removePendingPair.
  destruct (length l <=? 1) eqn:Hle; [apply Nat.leb_le in Hle; lia|].
  split.
  - intros i p Hi. by rewrite (filter_key_delete id l i p).
  - intros id0 Hid. by rewrite filter_absent_id.
Qed.

Lemma with_field_twice p type b1 b2 :
  with_field (with_field p type b1) type b2 = with_field p type b2.
Proof. by destruct type. Qed.

Lemma with_field_swap p t1 t2 b1 b2 :
  t1 <> t2 ->
  with_field (with_field p t1 b1) t2 b2
  = with_field (with_field p t2 b2) t1 b1.
Proof. by destruct t1, t2. Qed.

Lemma setField_twice id0 type b1 b2 l :
  setField id0 type b2 (setField id0 type b1 l) = setField id0 type b2 l.
Proof.
  unfold setField. rewrite map_map. apply map_ext. intros p.
  destruct (String.eqb (id p) id0) eqn:Hid; [|by rewrite Hid].
  by rewrite with_field_id, Hid, with_field_twice.
Qed.

Lemma setField_swap id1 id2 t1 t2 b1 b2 l :
  id1 <> id2 \/ t1 <> t2 ->
  setField id1 t1 b1 (setField id2 t2 b2 l)
  = setField id2 t2 b2 (setField id1 t1 b1 l).
Proof.
  intros Hne. unfold setField. rewrite !map_map. apply map_ext. intros p.
  destruct (String.eqb_spec (id p) id1) as [H1|H1],
           (String.eqb_spec (id p) id2) as [H2|H2];
    rewrite ?with_field_id;
    repeat match goal with
           | |- context [String.eqb ?a ?b] =>
               destruct (String.eqb_spec a b); try congruence
           end; try done.
  destruct Hne as [Hne|Hne]; [congruence|]. by apply with_field_swap.
Qed.

(** X3.  Uploads to slots compose as writes to the fields they name: a
    second image uploaded to the same slot of the same plate replaces the
    first, and uploads to different slots or to different plates give the
    same list in either order. *)
Theorem uploads_compose (st : Pending) :
  (forall id0 type f1 f2,
     isImage f2 = true ->
     handleImageUpload id0 f2 type (handleImageUpload id0 f1 type st)
     = handleImageUpload id0 f2 type st)
  /\ (forall id1 id2 t1 t2 f1 f2,
        id1 <> id2 \/ t1 <> t2 ->
        handleImageUpload id1 f1 t1 (handleImageUpload id2 f2 t2 st)
        = handleImageUpload id2 f2 t2 (handleImageUpload id1 f1 t1 st)).
Proof.
  destruct st as [prev u]. split.
  - intros id0 type f1 f2 H2. unfold handleImageUpload. rewrite H2.
    destruct (isImage f1); cbn [negb]; [|done].
    by rewrite setField_twice.
  - intros id1 id2 t1 t2 f1 f2 Hne. unfold handleImageUpload.
    destruct (isImage f1), (isImage f2); cbn [negb]; try done.
    by rewrite setField_swap.
Qed.

(** ** Statuses between operations *)

Lemma atRest_with_field p type b : atRest p -> atRest (with_field p type b).
Proof. by destruct type. Qed.

Lemma forEachColumn_Forall (uuidOf : nat -> string) (P : PendingPair -> Prop)
    type imgs :
  (forall p b, P p -> P (with_field p type b)) ->
  (forall x, P (emptyPair x)) ->
  forall i cur u,
    Forall P cur -> Forall P (fst (forEachColumn uuidOf type imgs i cur u)).
Proof.
  intros Hw He. induction imgs as [|img rest IH]; intros i cur u Hcur; [done|].
  cbn [forEachColumn]. destruct (cur !! i) as [p|] eqn:Hp.
  - apply IH. apply Forall_insert; [done|]. apply Hw.
    by eapply (Forall_lookup_1 P cur).
  - apply IH. apply Forall_app. split; [done|].
    apply Forall_singleton. apply Hw, He.
Qed.

Lemma newPairsOf_idle (uuidOf : nat -> string) imgs : forall u,
  Forall (fun p => status p = idle) (fst (newPairsOf uuidOf imgs u)).
Proof.
  induction imgs as [|img|img next rest IH] using list_pair_ind; intros u.
  - done.
  - by apply Forall_singleton.
  - cbn [newPairsOf]. specialize (IH (S u)).
    destruct (newPairsOf uuidOf rest (S u)) as [more u'].
    by apply Forall_cons.
Qed.

Lemma Forall_filtered {A : Type} (P : A -> Prop) (keep : A -> bool)
    (l : list A) :
  Forall P l -> Forall P (filter keep l).
Proof.
  rewrite !Forall_forall. intros Hl x Hx.
  apply list_elem_of_filter in Hx as [_ Hx]. by apply Hl.
Qed.

Lemma handleBatchDrop_atRest uuidOf dropped type l u :
  Forall atRest l ->
  Forall atRest (fst (handleBatchDrop uuidOf dropped type (l, u))).
Proof.
  intros Hl. unfold handleBatchDrop.
  destruct (length (filter isImage dropped) =? 0); [done|].
  destruct type.
  - apply forEachColumn_Forall; [intros; by apply atRest_with_field| |done].
    intros x. by left.
  - apply forEachColumn_Forall; [intros; by apply atRest_with_field| |done].
    intros x. by left.
  - pose proof (newPairsOf_idle uuidOf (map processFile (filter isImage dropped)) u)
      as Hnew.
    destruct (newPairsOf uuidOf _ u) as [newPairs u']. cbn [fst] in *.
    apply Forall_app. split.
    + by apply Forall_filtered.
    + eapply Forall_impl; [exact Hnew|]. intros p Hp. by left.
Qed.

Lemma handleImageUpload_atRest id0 file type l u :
  Forall atRest l ->
  Forall atRest (fst (handleImageUpload id0 file type (l, u))).
Proof.
  intros Hl. unfold handleImageUpload.
  destruct (negb (isImage file)); [done|]. cbn [fst]. unfold setField.
  apply Forall_fmap. eapply Forall_impl; [exact Hl|]. intros p Hp. simpl.
  destruct (String.eqb (id p) id0); [|done]. by apply atRest_with_field.
Qed.

Lemma marked_statuses env vs : forall j sd l,
  Forall (fun p => atRest p \/ status p = completed) l ->
  Forall (fun p => atRest p \/ status p = completed) (marked env j sd vs l).
Proof.
  induction vs as [|q rest IH]; intros j sd l Hl; [done|].
  cbn [marked]. apply IH. unfold setStatus. apply Forall_fmap.
  eapply Forall_impl; [exact Hl|]. intros p Hp. simpl.
  destruct (String.eqb (id p) (id q)); [|done].
  unfold finalStatus. destruct (succeeds env j sd q); [by right|].
  left. by right.
Qed.

Lemma purgeCompleted_atRest uuidOf l u :
  Forall (fun p => atRest p \/ status p = completed) l ->
  Forall atRest (fst (purgeCompleted uuidOf (l, u))).
Proof.
  intros Hl. unfold purgeCompleted.
  destruct (0 <? length (filter notCompleted l)); cbn [fst].
  - apply Forall_forall. intros p Hp.
    apply list_elem_of_filter in Hp as [Hnc Hp].
    rewrite Forall_forall in Hl. destruct (Hl p Hp) as [|Hc]; [done|].
    unfold notCompleted in Hnc. rewrite Hc in Hnc. done.
  - apply Forall_singleton. by left.
Qed.

Lemma perform_atRest env op st :
  Forall atRest (pendingPairs st) ->
  Forall atRest (pendingPairs (perform env op st)).
Proof.
  intros Hst.
  destruct op as [|id0|id0 file type|files id0 type|dropped type|
                    |text|num|id0];
    unfold perform, withPending, pendingOf; cbn [pendingPairs].
  - cbn. apply Forall_app. split; [done|]. apply Forall_singleton. by left.
  - unfold removePendingPair.
    destruct (length (pendingPairs st) <=? 1); cbn [fst].
    + apply Forall_singleton. by left.
    + by apply Forall_filtered.
  - by apply handleImageUpload_atRest.
  - destruct files as [|file rest]; [done|]. by apply handleImageUpload_atRest.
  - by apply handleBatchDrop_atRest.
  - destruct (filter isValid (pendingPairs st)) as [|v vs] eqn:Hvs.
    + by rewrite processBatch_noop.
    + rewrite processBatch_spec by (rewrite Hvs; done). cbn [pendingPairs].
      apply purgeCompleted_atRest, marked_statuses.
      eapply Forall_impl; [exact Hst|]. intros p Hp. by left.
  - done.
  - done.
  - done.
Qed.

(** X4.  Between operations no plate is left in the middle of something:
    after any sequence of operations on the mounted panel, each run to its
    end, and however the service answers in each of them, every pending
    pair is [idle] or [error]; [processing] and [completed] are statuses of
    a running batch only. *)
Theorem reachable_settled (uuidOf : nat -> string) (proj : Project)
    (steps : list (Env * Operation)) :
  Forall atRest (pendingPairs (run uuidOf steps (initialState uuidOf proj))).
Proof.
  assert (Forall atRest (pendingPairs (initialState uuidOf proj))) as Hinit.
  { apply Forall_singleton. by left. }
  revert Hinit. generalize (initialState uuidOf proj).
  induction steps as [|[w op] steps IH]; intros st Hst; [done|].
  cbn [run fold_left fst snd]. apply IH. by apply perform_atRest.
Qed.

(** ** The project: numbers, the start field, deleting, listing *)









(** X6.  A batch counts on from the start number plus the count of shots,
    so deleting a shot that is not the last one makes the next batch give
    out a number that is still in use: with shots numbered one by one
    within [2^53] and of distinct ids, after the trash button of the shot
    at index [i] and a batch in which the first response that is parsed
    is that of a pair that succeeds, the first new shot has the sequence
    number of the shot that was last, which is still listed, and two shots
    of the project share that number. *)
Theorem deleted_number_is_reused (env : Env) (st : State) (i : nat)
    (s : Shot) (a : nat) (p : PendingPair) :
  let shs := shots (project st) in
  let sd := styleDirective st in
  let vs := filter isValid (pendingPairs st) in
  let st' :=
    processBatch env (onUpdateProject (deleteShot (shot_id s)) st) in
  numberedFrom (shownStart (project st)) shs ->
  (- 2 ^ 53 <= shownStart (project st))%Z ->
  (shownStart (project st) + Z.of_nat (length shs) <= 2 ^ 53)%Z ->
  NoDup (map shot_id shs) ->
  shs !! i = Some s ->
  S i < length shs ->
  vs !! a = Some p ->
  succeeds env a sd p = true ->
  numbersUsed env 0 sd (take a vs) = 0 ->
  exists last new,
    shots (project st') !! (length shs - 2) = Some last
    /\ shots (project st') !! (length shs - 1) = Some new
    /\ shs !! (length shs - 1) = Some last
    /\ madeFrom new p
    /\ sequenceOrder new = sequenceOrder last
    /\ ~ NoDup (map sequenceOrder (shots (project st'))).
Proof.
  intros shs sd vs st' Hnum Hlo Hhi Hnd Hi Hlt Ha Hsucc Hfirst.
  assert (vs <> []) as Hvs by (intros Hnil; by rewrite Hnil in Ha).
  assert (shots (deleteShot (shot_id s) (project st)) = delete i shs) as Hdel.
  { unfold deleteShot. cbn [shots]. by apply filter_key_delete. }
  assert (length (delete i shs) = length shs - 1) as Hlen.
  { rewrite length_delete; [done|]. by rewrite Hi. }
  assert (successCount env 0 sd (take a vs) = 0) as Hfirst'.
  { pose proof (successCount_le_numbersUsed env (take a vs) 0 sd). lia. }
  unfold succeeds in Hsucc.
  destruct (outcome env a sd p) as [result|err] eqn:Hout; [|done].
  subst st'. rewrite processBatch_spec by done.
  cbn [project onUpdateProject shots styleDirective pendingPairs uuids].
  fold sd vs. rewrite Hdel.
  pose proof (shotsMade_at env vs 0 sd (uuids st)
                (firstSequenceNumber (deleteShot (shot_id s) (project st)))
                a p result Ha Hout) as Hn.
  rewrite Hfirst, Hfirst' in Hn. cbn [ticks Nat.iter nat_rect] in Hn.
  set (n := newShotOf _ _ result p) in Hn.
  assert (is_Some (shs !! (length shs - 1))) as [l Hl].
  { apply lookup_lt_is_Some. lia. }
  set (new := shotsMade env 0 sd vs (uuids st)
                (firstSequenceNumber (deleteShot (shot_id s) (project st))))
    in *.
  assert ((delete i shs ++ new) !! (length shs - 2) = Some l) as H1.
  { rewrite lookup_app_l by lia. rewrite list_lookup_delete_ge by lia.
    rewrite <- Hl. f_equal. lia. }
  assert ((delete i shs ++ new) !! (length shs - 1) = Some n) as H2.
  { rewrite lookup_app_r by lia. rewrite Hlen, Nat.sub_diag. done. }
  assert (sequenceOrder n = sequenceOrder l) as Heq.
  { unfold n. cbn [newShotOf sequenceOrder].
    rewrite (Hnum _ _ Hl). unfold firstSequenceNumber.
    rewrite Hdel, Hlen. cbn [deleteShot startingSequenceNumber].
    fold (shownStart (project st)).
    rewrite addNumbers_exact by lia. lia. }
  exists l, n. split_and!; try done.
  - destruct (isValid_images p) as (src & tgt & Hs & Ht).
    { pose proof (Forall_isValid (pendingPairs st)) as Hall.
      rewrite Forall_forall in Hall. apply Hall.
      by eapply list_elem_of_lookup_2. }
    unfold madeFrom, n, newShotOf. cbn [sourceImage targetImage].
    by rewrite Hs, Ht.
  - intros Hno. rewrite NoDup_alt in Hno.
    assert (length shs - 2 = length shs - 1); [|lia].
    apply (Hno _ _ (sequenceOrder l)); rewrite list_lookup_fmap.
    + by rewrite H1.
    + rewrite H2. exact (f_equal Some Heq).
Qed.

Lemma take_all_succeed env (l : list PendingPair) sd idx :
  (forall j p, l !! j = Some p -> succeeds env j sd p = true) ->
  idx <= length l ->
  successCount env 0 sd (take idx l) = idx
  /\ numbersUsed env 0 sd (take idx l) = idx.
Proof.
  intros Hall Hidx.
  assert (forall i p, take idx l !! i = Some p ->
            succeeds env (0 + i) sd p = true) as Hall'.
  { intros i p Hi. apply lookup_take_Some in Hi as [Hi _]. by apply Hall. }
  rewrite successCount_all, numbersUsed_all by done.
  rewrite length_take. lia.
Qed.

(** X7.  The number a plate shows is the number its shot gets when nothing
    before it is left out and the numbers stay within [2^53]: if every
    pending pair qualifies and every call succeeds, the batch makes the
    shot of the pair at index [idx] of the list the shot number
    [shots.length + idx] of the project, from the two images of that pair,
    with the sequence number
    [(startingSequenceNumber || 1) + shots.length + idx] of the plate's
    label. *)
Theorem plate_label_is_sequence_number (env : Env) (st : State) :
  Forall (fun p => isValid p = true) (pendingPairs st) ->
  (forall j p, pendingPairs st !! j = Some p ->
               succeeds env j (styleDirective st) p = true) ->
  (- 2 ^ 53 <= shownStart (project st))%Z ->
  (shownStart (project st)
   + Z.of_nat (length (shots (project st)) + length (pendingPairs st))
   <= 2 ^ 53)%Z ->
  forall idx p, pendingPairs st !! idx = Some p ->
    exists shot,
      shots (project (processBatch env st))
        !! (length (shots (project st)) + idx) = Some shot
      /\ sequenceOrder shot = plateNumber (project st) idx
      /\ plateNumber (project st) idx
         = (shownStart (project st)
            + Z.of_nat (length (shots (project st))) + Z.of_nat idx)%Z
      /\ madeFrom shot p.
Proof.
  intros Hvalid Hall Hlo Hhi idx p Hp.
  assert (idx < length (pendingPairs st)) as Hidx
    by (by eapply lookup_lt_Some).
  assert (filter isValid (pendingPairs st) = pendingPairs st) as Hvs
    by (by apply filter_all).
  assert (firstSequenceNumber (project st)
          = (shownStart (project st)
             + Z.of_nat (length (shots (project st))))%Z) as Hbase.
  { apply addNumbers_exact. fold (shownStart (project st)). lia. }
  assert (plateNumber (project st) idx
          = (shownStart (project st)
             + Z.of_nat (length (shots (project st))) + Z.of_nat idx)%Z)
    as Hlabel.
  { unfold plateNumber. fold (firstSequenceNumber (project st)).
    rewrite Hbase. apply addNumbers_exact. lia. }
  rewrite processBatch_spec by (rewrite Hvs; intros Hnil; by rewrite Hnil in Hp).
  rewrite Hvs. cbn [project shots].
  pose proof (Hall idx p Hp) as Hsucc. unfold succeeds in Hsucc.
  destruct (outcome env idx (styleDirective st) p) as [result|err] eqn:Hout;
    [|done].
  pose proof (shotsMade_at env (pendingPairs st) 0 (styleDirective st)
                (uuids st) (firstSequenceNumber (project st))
                idx p result Hp Hout) as Hshot.
  destruct (take_all_succeed env (pendingPairs st) (styleDirective st) idx
              Hall ltac:(lia)) as [Hsc Hused].
  rewrite Hsc, Hused in Hshot.
  eexists. split_and!.
  - rewrite lookup_app_r by lia.
    replace (length (shots (project st)) + idx - length (shots (project st)))
      with idx by lia.
    exact Hshot.
  - cbn [newShotOf sequenceOrder]. rewrite Hlabel, Hbase.
    apply ticks_exact; lia.
  - done.
  - rewrite Forall_forall in Hvalid.
    destruct (isValid_images p) as (src & tgt & Hsrc & Htgt).
    { apply Hvalid. by eapply list_elem_of_lookup_2. }
    unfold madeFrom, newShotOf. cbn [sourceImage targetImage].
    by rewrite Hsrc, Htgt.
Qed.

Lemma plate_label_is_sequence_number_witness :
  exists shot,
    shots (project (processBatch Sample.quiet
                      (mkState [Sample.plateA; Sample.plateB] "Ink wash."
                         (mkProject 0 [Sample.shotAt 1]) 2 [])))
      !! (1 + 1) = Some shot
    /\ sequenceOrder shot = 3%Z.
Proof.
  destruct (plate_label_is_sequence_number Sample.quiet
              (mkState [Sample.plateA; Sample.plateB] "Ink wash."
                 (mkProject 0 [Sample.shotAt 1]) 2 []))
    with (idx := 1) (p := Sample.plateB) as (shot & Hshot & Hseq & _).
  - repeat constructor.
  - intros [|[|j]] p H; vm_compute in H; try done;
      injection H as <-; reflexivity.
  - by vm_compute.
  - by vm_compute.
  - reflexivity.
  - exists shot. split; [exact Hshot|]. exact Hseq.
Defined.

(** X8.  What the start field stores is never 0: an empty or unreadable
    field ([parseInt] gives [NaN]) and a 0 are stored as 1, any other
    number as it is; the shots are not touched; the field then shows the
    stored number, and the next batch counts on from the stored number
    plus the count of shots: within [2^53], that is the number of its
    first shot when no response before that of the shot's pair was
    parsed. *)
Theorem start_field_is_never_zero (parsed : option Z) (env : Env)
    (st : State) :
  let proj' := changeStart parsed (project st) in
  let st1 := onUpdateProject (changeStart parsed) st in
  let sd := styleDirective st in
  let vs := filter isValid (pendingPairs st) in
  startingSequenceNumber proj' <> 0%Z
  /\ (forall z, parsed = Some z -> z <> 0%Z ->
        startingSequenceNumber proj' = z)
  /\ (parsed = None \/ parsed = Some 0%Z ->
      startingSequenceNumber proj' = 1%Z)
  /\ shots proj' = shots (project st)
  /\ shownStart proj' = startingSequenceNumber proj'
  /\ firstSequenceNumber proj'
     = addNumbers (startingSequenceNumber proj')
         (Z.of_nat (length (shots (project st))))
  /\ (forall a p,
        (Z.abs (startingSequenceNumber proj'
                + Z.of_nat (length (shots (project st)))) <= 2 ^ 53)%Z ->
        vs !! a = Some p ->
        succeeds env a sd p = true ->
        numbersUsed env 0 sd (take a vs) = 0 ->
        exists s,
          shots (project (processBatch env st1))
            !! length (shots (project st)) = Some s
          /\ madeFrom s p
          /\ sequenceOrder s
             = (startingSequenceNumber proj'
                + Z.of_nat (length (shots (project st))))%Z).
Proof.
  intros proj' st1 sd vs.
  assert (startingSequenceNumber proj' <> 0%Z) as Hnz.
  { unfold proj', changeStart, or_parsed, or_number.
    cbn [startingSequenceNumber].
    destruct parsed as [z|]; [|done].
    destruct (Z.eqb_spec z 0); [done|done]. }
  assert (shownStart proj' = startingSequenceNumber proj') as Hshown.
  { unfold shownStart, or_number.
    by destruct (Z.eqb_spec (startingSequenceNumber proj') 0). }
  assert (firstSequenceNumber proj'
          = addNumbers (startingSequenceNumber proj')
              (Z.of_nat (length (shots (project st))))) as Hbase.
  { unfold firstSequenceNumber. fold (shownStart proj'). by rewrite Hshown. }
  split_and!; try done.
  - intros z -> Hz. cbn. unfold or_number. by destruct (Z.eqb_spec z 0).
  - by intros [-> | ->].
  - intros a p Hsafe Ha Hsucc Hfirst.
    assert (vs <> []) as Hvs by (intros Hnil; by rewrite Hnil in Ha).
    assert (successCount env 0 sd (take a vs) = 0) as Hfirst'.
    { pose proof (successCount_le_numbersUsed env (take a vs) 0 sd). lia. }
    unfold succeeds in Hsucc.
    destruct (outcome env a sd p) as [result|err] eqn:Hout; [|done].
    rewrite processBatch_spec by done.
    cbn [project shots st1 onUpdateProject styleDirective pendingPairs uuids].
    fold sd vs proj'.
    change (shots proj') with (shots (project st)).
    rewrite lookup_app_r, Nat.sub_diag by lia.
    pose proof (shotsMade_at env vs 0 sd (uuids st)
                  (firstSequenceNumber proj') a p result Ha Hout) as Hn.
    rewrite Hfirst, Hfirst' in Hn. cbn [ticks Nat.iter nat_rect] in Hn.
    rewrite Hn. eexists. split_and!; [done| |].
    + destruct (isValid_images p) as (src & tgt & Hs & Ht).
      { pose proof (Forall_isValid (pendingPairs st)) as Hall.
        rewrite Forall_forall in Hall. apply Hall.
        by eapply list_elem_of_lookup_2. }
      unfold madeFrom, newShotOf. cbn [sourceImage targetImage].
      by rewrite Hs, Ht.
    + cbn [newShotOf sequenceOrder]. rewrite Hbase.
      by apply addNumbers_exact.
Qed.

Lemma insertSorted_Permutation compare x l :
  insertSorted compare x l ≡ₚ x :: l.
Proof.
  induction l as [|y l IH]; [done|]. cbn [insertSorted].
  destruct (compare x y <=? 0)%Z; [done|].
  rewrite IH. apply Permutation_swap.
Qed.

Lemma sortBy_Permutation compare l : sortBy compare l ≡ₚ l.
Proof.
  induction l as [|x l IH]; [done|]. unfold sortBy in *. cbn [foldr].
  rewrite insertSorted_Permutation. by rewrite IH.
Qed.

Lemma insertSorted_descending x l :
  StronglySorted (fun a b => (sequenceOrder b <= sequenceOrder a)%Z) l ->
  StronglySorted (fun a b => (sequenceOrder b <= sequenceOrder a)%Z)
    (insertSorted bySequenceDescending x l).
Proof.
  induction 1 as [|y l Hl IH Hy].
  - repeat constructor.
  - cbn [insertSorted]. unfold bySequenceDescending at 1.
    destruct (Z.leb_spec (sequenceOrder y - sequenceOrder x) 0).
    + constructor; [by constructor|]. constructor; [lia|].
      eapply Forall_impl; [exact Hy|]. intros z Hz. simpl in Hz. lia.
    + constructor; [done|].
      rewrite insertSorted_Permutation. constructor; [lia|done].
Qed.

Lemma StronglySorted_lookup {A : Type} (R : A -> A -> Prop) (l : list A) :
  StronglySorted R l ->
  forall i j a b, i < j -> l !! i = Some a -> l !! j = Some b -> R a b.
Proof.
  induction 1 as [|x l Hl IH Hx]; intros i j a b Hlt Ha Hb; [done|].
  destruct j as [|j]; [lia|]. simpl in Hb. destruct i as [|i]; simpl in Ha.
  - injection Ha as <-. rewrite Forall_forall in Hx. apply Hx.
    by eapply list_elem_of_lookup_2.
  - apply (IH i j); [lia|done|done].
Qed.

Lemma insertSorted_last x l :
  Forall (fun y => (sequenceOrder x < sequenceOrder y)%Z) l ->
  insertSorted bySequenceDescending x l = l ++ [x].
Proof.
  induction 1 as [|y l Hy Hl IH]; [done|].
  cbn [insertSorted]. unfold bySequenceDescending at 1.
  destruct (Z.leb_spec (sequenceOrder y - sequenceOrder x) 0); [lia|].
  by rewrite IH.
Qed.

(** X9.  The panel lists the shots newest first: the list shown holds the
    shots of the project, each as often as the project does, no shot shown
    after another has a greater sequence number than it, and for shots
    numbered one by one it is the project's list in reverse. *)
Theorem shots_are_listed_newest_first (proj : Project) :
  displayedShots proj ≡ₚ shots proj
  /\ (forall i j a b, i < j ->
        displayedShots proj !! i = Some a ->
        displayedShots proj !! j = Some b ->
        (sequenceOrder b <= sequenceOrder a)%Z)
  /\ (forall b, numberedFrom b (shots proj) ->
        displayedShots proj = rev (shots proj)).
Proof.
  unfold displayedShots. split_and!.
  - apply sortBy_Permutation.
  - apply (StronglySorted_lookup
             (fun a b => (sequenceOrder b <= sequenceOrder a)%Z)).
    induction (shots proj) as [|x l IH]; [constructor|].
    unfold sortBy in *. cbn [foldr]. by apply insertSorted_descending.
  - induction (shots proj) as [|x l IH]; intros b Hnum; [done|].
    unfold sortBy in *. cbn [foldr rev].
    rewrite (IH (b + 1)%Z).
    + apply insertSorted_last. apply Forall_forall. intros y Hy.
      apply list_elem_of_In, in_rev, list_elem_of_In in Hy.
      apply list_elem_of_lookup in Hy as [i Hi].
      rewrite (Hnum 0 x eq_refl), (Hnum (S i) y Hi). lia.
    + intros i s Hi. rewrite (Hnum (S i) s Hi). lia.
Qed.

(** ** Keys: file inputs and drag regions *)

Lemma append_cons (c : ascii) (s1 s2 : string) :
  String c s1 +:+ s2 = String c (s1 +:+ s2).
Proof. done. Qed.

Lemma append_nil (s : string) : EmptyString +:+ s = s.
Proof. done. Qed.

Lemma length_append (s1 s2 : string) :
  String.length (s1 +:+ s2) = String.length s1 + String.length s2.
Proof.
  induction s1 as [|c s1 IH]; [done|]. rewrite append_cons. simpl.
  by rewrite IH.
Qed.

Lemma append_assoc (s1 s2 s3 : string) :
  (s1 +:+ s2) +:+ s3 = s1 +:+ (s2 +:+ s3).
Proof.
  induction s1 as [|c s1 IH]; [done|]. rewrite !append_cons. by rewrite IH.
Qed.

(** Two strings that end in suffixes of the same length. *)
Lemma append_inj_suffix (s1 s2 a b : string) :
  String.length a = String.length b ->
  s1 +:+ a = s2 +:+ b -> s1 = s2 /\ a = b.
Proof.
  intros Hlen. revert s2.
  induction s1 as [|c s1 IH]; intros [|c' s2] Heq; rewrite ?append_cons, ?append_nil in *.
  - done.
  - rewrite Heq in Hlen. simpl in Hlen. rewrite length_append in Hlen. lia.
  - rewrite <- Heq in Hlen. simpl in Hlen. rewrite length_append in Hlen. lia.
  - injection Heq as -> Heq. destruct (IH _ Heq) as [-> ->]. done.
Qed.

Lemma inputKey_inj id1 t1 id2 t2 :
  inputKey id1 t1 = inputKey id2 t2 -> id1 = id2 /\ t1 = t2.
Proof.
  unfold inputKey. intros Heq.
  apply append_inj_suffix in Heq as [-> Hs]; [|by destruct t1, t2].
  by destruct t1, t2.
Qed.

Lemma renderedInputs_lookup (l : list PendingPair) id0 type :
  forall refs,
    foldl registerInputs refs l !! inputKey id0 type
    = if bool_decide (id0 ∈ map id l) then Some (id0, type)
      else refs !! inputKey id0 type.
Proof.
  induction l as [|p l IH]; intros refs; [done|].
  cbn [foldl map]. rewrite IH. unfold registerInputs.
  destruct (bool_decide (id0 ∈ map id l)) eqn:Hin.
  - apply bool_decide_eq_true in Hin.
    rewrite bool_decide_eq_true_2; [done|]. by right.
  - apply bool_decide_eq_false in Hin.
    destruct (decide (id0 = id p)) as [->|Hne].
    + rewrite bool_decide_eq_true_2 by left.
      destruct type.
      * rewrite lookup_insert_ne, lookup_insert_eq; [done|].
        intros H. by apply inputKey_inj in H as [_ ?].
      * by rewrite lookup_insert_eq.
    + rewrite bool_decide_eq_false_2.
      * rewrite !lookup_insert_ne; [done| |];
          intros H; apply inputKey_inj in H as [? _]; congruence.
      * intros [?|?]%elem_of_cons; done.
Qed.

(** X10.  A click on a slot reaches the file input of that plate and slot:
    with the plates of [l] rendered, [triggerInput id type] clicks the
    input registered for [id] and [type] when a plate of the list has that
    id, and clicks nothing otherwise; no other plate or slot answers to the
    key, whatever the ids are. *)
Theorem click_reaches_its_input (l : list PendingPair) (id0 : string)
    (type : SlotType) :
  (id0 ∈ map id l ->
   triggerInput id0 type (renderedInputs l) = Some (id0, type))
  /\ (id0 ∉ map id l -> triggerInput id0 type (renderedInputs l) = None)
  /\ (forall id1 type1,
        inputKey id1 type1 = inputKey id0 type ->
        id1 = id0 /\ type1 = type).
Proof.
  unfold triggerInput, renderedInputs. rewrite renderedInputs_lookup.
  split_and!.
  - intros Hin. by rewrite bool_decide_eq_true_2.
  - intros Hin. by rewrite bool_decide_eq_false_2.
  - intros id1 type1. apply inputKey_inj.
Qed.

Lemma dragKey_inj r1 r2 : dragKey r1 = dragKey r2 -> r1 = r2.
Proof.
  destruct r1 as [[]|id1 []], r2 as [[]|id2 []]; cbn [dragKey];
    rewrite ?append_cons, ?append_nil in *; try done.
  - intros [= H]. apply append_inj_suffix in H as [-> _]; done.
  - intros [= H].
    change "-alpha"%string with ("-" +:+ "alpha")%string in H.
    rewrite <- append_assoc in H.
    by apply append_inj_suffix in H as [_ ?].
  - intros [= H].
    change "-alpha"%string with ("-" +:+ "alpha")%string in H.
    rewrite <- append_assoc in H.
    by apply append_inj_suffix in H as [_ ?].
  - intros [= H]. apply append_inj_suffix in H as [-> _]; done.
Qed.

(** X11.  One region is lit at a time: while a file is dragged over a
    region, that region and no other zone or slot passes the test of the
    highlighted class, whatever the ids of the plates; after the drag has
    left, or a drop, none does. *)
Theorem one_region_is_highlighted (r r' : Region) (dragType : option string) :
  (highlighted (handleDragOver (dragKey r) dragType) r' = true <-> r' = r)
  /\ highlighted (clearDrag dragType) r' = false.
Proof.
  split; [|done]. unfold highlighted, handleDragOver. split.
  - intros H. apply String.eqb_eq in H. symmetry. by apply dragKey_inj.
  - intros ->. apply String.eqb_refl.
Qed.

(** ** The image data sent *)

Lemma split_no_separator sep s :
  occurs sep s = false -> split sep s = [s].
Proof.
  induction s as [|c s IH]; [done|]. cbn [occurs split].
  destruct (Ascii.eqb c sep); [done|]. simpl. intros H. by rewrite IH.
Qed.

Lemma split_at_separator sep hdr rest :
  occurs sep hdr = false ->
  split sep (hdr +:+ String sep rest) = hdr :: split sep rest.
Proof.
  induction hdr as [|c hdr IH].
  - intros _. rewrite append_nil. cbn. by rewrite Ascii.eqb_refl.
  - cbn [occurs]. destruct (Ascii.eqb c sep) eqn:Hc; [done|].
    cbn [orb]. intros H. rewrite append_cons. cbn [split].
    by rewrite Hc, IH.
Qed.

(** X12.  What a request carries of an image is the text between the first
    and the second comma of its data URL: for a source and a target of the
    form [header,payload] with no comma in the header or the payload, the
    two [inlineData] parts hold the two payloads, source first, both
    declared [image/png] whatever the header says; an image string without
    a comma is sent without data. *)
Theorem request_carries_the_payloads (sd : string) :
  (forall h1 p1 h2 p2,
     occurs "," h1 = false -> occurs "," p1 = false ->
     occurs "," h2 = false -> occurs "," p2 = false ->
     inlineDataOf
       (analysisRequest sd (h1 +:+ String "," p1) (h2 +:+ String "," p2))
     = [mkInlineData (Some p1) "image/png";
        mkInlineData (Some p2) "image/png"])
  /\ (forall src tgt,
        occurs "," src = false ->
        inlineDataOf (analysisRequest sd src tgt) !! 0
        = Some (mkInlineData None "image/png")).
Proof.
  split.
  - intros h1 p1 h2 p2 Hh1 Hp1 Hh2 Hp2. unfold inlineDataOf. cbn.
    rewrite !split_at_separator, !split_no_separator by done. done.
  - intros src tgt Hsrc. unfold inlineDataOf. cbn.
    by rewrite split_no_separator.
Qed.

(** ** Batch drops, one after another *)

Lemma handleBatchDrop_column uuidOf dropped type l u :
  handleBatchDrop uuidOf dropped (zoneOf type) (l, u)
  = forEachColumn uuidOf type (decoded dropped) 0 l u.
Proof.
  unfold handleBatchDrop.
  destruct (length (filter isImage dropped) =? 0) eqn:Hk.
  - by rewrite (decoded_length_0 _ Hk).
  - by destruct type.
Qed.

Lemma columnFilled_lookup uuidOf type imgs cur u j :
  j < max (length imgs) (length cur) ->
  fst (columnFilled uuidOf type imgs cur u) !! j
  = Some (inColumn type imgs j (pairAt uuidOf cur u j)).
Proof.
  intros Hj. unfold columnFilled. cbn [fst].
  rewrite list_lookup_fmap, lookup_seq_lt by done. done.
Qed.

Lemma columnFilled_length uuidOf type imgs cur u :
  length (fst (columnFilled uuidOf type imgs cur u))
  = max (length imgs) (length cur).
Proof. unfold columnFilled. cbn [fst]. by rewrite length_map, length_seq. Qed.

(** The loop of a column drop, in closed form. *)
Lemma forEachColumn_closed uuidOf type imgs cur u :
  forEachColumn uuidOf type imgs 0 cur u
  = columnFilled uuidOf type imgs cur u.
Proof.
  destruct (forEachColumn_spec uuidOf type imgs 0 cur u)
    as (Hlen & Hu & _ & Hmid & Hhigh); [lia|].
  destruct (forEachColumn uuidOf type imgs 0 cur u) as [l u'].
  cbn [fst snd] in *. cbn [Nat.add] in *.
  unfold columnFilled at 1. f_equal; [|lia].
  apply list_eq. intros j.
  destruct (decide (j < max (length imgs) (length cur))) as [Hj|Hj].
  - rewrite list_lookup_fmap, lookup_seq_lt by done. cbn.
    unfold inColumn, pairAt.
    destruct (imgs !! j) as [img|] eqn:Himg.
    + by rewrite (Hmid j img Himg).
    + apply lookup_ge_None in Himg. rewrite Hhigh by done.
      destruct (cur !! j) as [p|] eqn:Hp; [done|].
      apply lookup_ge_None in Hp. lia.
  - rewrite (proj2 (lookup_ge_None l j)) by lia.
    symmetry. apply lookup_ge_None. rewrite length_map, length_seq. lia.
Qed.

(** Two column drops, one after the other, pair by pair. *)
Lemma columnFilled_twice uuidOf t1 t2 imgs1 imgs2 cur u :
  columnFilled uuidOf t2 imgs2
    (fst (columnFilled uuidOf t1 imgs1 cur u))
    (snd (columnFilled uuidOf t1 imgs1 cur u))
  = (map (fun j => inColumn t2 imgs2 j
                     (inColumn t1 imgs1 j (pairAt uuidOf cur u j)))
         (seq 0 (max (max (length imgs1) (length imgs2)) (length cur))),
     u + (max (length imgs1) (length imgs2) - length cur)).
Proof.
  unfold columnFilled at 1. rewrite columnFilled_length.
  cbn [snd columnFilled]. f_equal; [|lia].
  replace (max (length imgs2) (max (length imgs1) (length cur)))
    with (max (max (length imgs1) (length imgs2)) (length cur)) by lia.
  apply map_ext_in. intros j Hj. apply in_seq in Hj. f_equal.
  unfold pairAt at 1.
  fold (columnFilled uuidOf t1 imgs1 cur u).
  rewrite columnFilled_length.
  destruct (decide (j < max (length imgs1) (length cur))) as [Hlt|Hge].
  - by rewrite columnFilled_lookup.
  - rewrite (proj2 (lookup_ge_None _ j))
      by (rewrite columnFilled_length; lia).
    unfold inColumn, pairAt.
    rewrite (proj2 (lookup_ge_None imgs1 j)) by lia.
    rewrite (proj2 (lookup_ge_None cur j)) by lia.
    cbn [default]. do 2 f_equal. lia.
Qed.

Lemma inColumn_swap t1 t2 imgs1 imgs2 j p :
  t1 <> t2 ->
  inColumn t2 imgs2 j (inColumn t1 imgs1 j p)
  = inColumn t1 imgs1 j (inColumn t2 imgs2 j p).
Proof.
  intros Hne. unfold inColumn.
  destruct (imgs1 !! j), (imgs2 !! j); try done. by apply with_field_swap.
Qed.

Lemma inColumn_twice type imgs1 imgs2 j p :
  length imgs1 <= length imgs2 ->
  inColumn type imgs2 j (inColumn type imgs1 j p) = inColumn type imgs2 j p.
Proof.
  intros Hle. unfold inColumn.
  destruct (imgs1 !! j) as [img1|] eqn:H1; [|done].
  apply lookup_lt_Some in H1.
  destruct (imgs2 !! j) as [img2|] eqn:H2.
  - apply with_field_twice.
  - apply lookup_ge_None in H2. lia.
Qed.

(** X13.  Column drops compose pair by pair.  A drop on the alpha zone and
    a drop on the beta zone give the same list, ids included, and the same
    count of identifiers drawn in either order; and a second drop on a zone,
    of at least as many images as the first, leaves what it alone would
    have left: the images of the first drop are all replaced. *)
Theorem column_drops_compose (uuidOf : nat -> string) (st : Pending) :
  (forall d1 d2,
     handleBatchDrop uuidOf d1 alpha (handleBatchDrop uuidOf d2 beta st)
     = handleBatchDrop uuidOf d2 beta (handleBatchDrop uuidOf d1 alpha st))
  /\ (forall d1 d2 type,
        length (decoded d1) <= length (decoded d2) ->
        handleBatchDrop uuidOf d2 (zoneOf type)
          (handleBatchDrop uuidOf d1 (zoneOf type) st)
        = handleBatchDrop uuidOf d2 (zoneOf type) st).
Proof.
  destruct st as [cur u].
  assert (forall t1 t2 d1 d2,
            handleBatchDrop uuidOf d2 (zoneOf t2)
              (handleBatchDrop uuidOf d1 (zoneOf t1) (cur, u))
            = (map (fun j => inColumn t2 (decoded d2) j
                               (inColumn t1 (decoded d1) j
                                  (pairAt uuidOf cur u j)))
                 (seq 0 (max (max (length (decoded d1)) (length (decoded d2)))
                           (length cur))),
               u + (max (length (decoded d1)) (length (decoded d2))
                    - length cur))) as Htwice.
  { intros t1 t2 d1 d2.
    rewrite (handleBatchDrop_column uuidOf d1 t1), forEachColumn_closed.
    rewrite (surjective_pairing (columnFilled uuidOf t1 (decoded d1) cur u)).
    rewrite (handleBatchDrop_column uuidOf d2 t2), forEachColumn_closed.
    apply columnFilled_twice. }
  split.
  - intros d1 d2.
    change alpha with (zoneOf source_slot).
    change beta with (zoneOf target_slot).
    rewrite (Htwice target_slot source_slot d2 d1).
    rewrite (Htwice source_slot target_slot d1 d2).
    f_equal; [|lia].
    replace (max (length (decoded d2)) (length (decoded d1)))
      with (max (length (decoded d1)) (length (decoded d2))) by lia.
    apply map_ext. intros j. by apply inColumn_swap.
  - intros d1 d2 type Hle. rewrite (Htwice type type d1 d2).
    rewrite (handleBatchDrop_column uuidOf d2 type), forEachColumn_closed.
    unfold columnFilled. f_equal; [|lia].
    replace (max (max (length (decoded d1)) (length (decoded d2)))
               (length cur))
      with (max (length (decoded d2)) (length cur)) by lia.
    apply map_ext. intros j. by apply inColumn_twice.
Qed.

Lemma newPairsOf_images (uuidOf : nat -> string) imgs : forall u,
  Forall (fun img => img <> EmptyString) imgs ->
  flat_map imagesOf (fst (newPairsOf uuidOf imgs u)) = imgs
  /\ Forall (fun p => holdsImage p = true) (fst (newPairsOf uuidOf imgs u)).
Proof.
  induction imgs as [|img|img next rest IH] using list_pair_ind;
    intros u Hne.
  - done.
  - apply Forall_cons in Hne as [Himg _]. split; [done|].
    apply Forall_singleton. unfold holdsImage. cbn.
    destruct (String.eqb_spec img ""); done.
  - apply Forall_cons in Hne as [Himg Hne].
    apply Forall_cons in Hne as [Hnext Hne].
    cbn [newPairsOf]. specialize (IH (S u) Hne).
    destruct (newPairsOf uuidOf rest (S u)) as [more u'].
    cbn [fst] in *. destruct IH as [IH1 IH2].
    rewrite (or_null_nonempty next Hnext). split.
    + cbn. by rewrite IH1.
    + apply Forall_cons. split; [|done]. unfold holdsImage. cbn.
      destruct (String.eqb_spec img ""); done.
Qed.

(** X14.  A mixed drop neither loses nor repeats an image: when the drop
    has an image and no decoded image is the empty string, the images of
    the list afterwards, read pair by pair with the source first, are the
    images of the pairs that held one before followed by the dropped images
    in their order; every pair of the list then holds an image, so a later
    mixed drop removes none of them. *)
Theorem mixed_drop_keeps_every_image (uuidOf : nat -> string)
    (dropped : list File) (prev : list PendingPair) (u : nat) :
  decoded dropped <> [] ->
  Forall (fun img => img <> EmptyString) (decoded dropped) ->
  let next := fst (handleBatchDrop uuidOf dropped mixed (prev, u)) in
  flat_map imagesOf next
  = flat_map imagesOf (filter holdsImage prev) ++ decoded dropped
  /\ Forall (fun p => holdsImage p = true) next
  /\ filter holdsImage next = next.
Proof.
  intros Hk Hne next.
  assert (next = filter holdsImage prev
                 ++ fst (newPairsOf uuidOf (decoded dropped) u)) as ->.
  { unfold next, handleBatchDrop.
    destruct (length (filter isImage dropped) =? 0) eqn:Hz.
    { by rewrite (decoded_length_0 _ Hz) in Hk. }
    fold (decoded dropped).
    by destruct (newPairsOf uuidOf (decoded dropped) u). }
  destruct (newPairsOf_images uuidOf (decoded dropped) u Hne) as [Himgs Hold].
  assert (Forall (fun p => holdsImage p = true)
            (filter holdsImage prev
             ++ fst (newPairsOf uuidOf (decoded dropped) u))) as Hall.
  { apply Forall_app. split; [|done]. apply Forall_forall. intros p Hp.
    apply list_elem_of_filter in Hp as [Hp _]. by apply Is_true_true. }
  split_and!.
  - by rewrite flat_map_app, Himgs.
  - done.
  - by apply filter_all.
Qed.

Lemma mixed_drop_keeps_every_image_witness :
  flat_map imagesOf
    (fst (handleBatchDrop Sample.uuid
            [Sample.png; Sample.notes; Sample.jpeg; Sample.gif] mixed
            ([Sample.blank; Sample.plateA], 3)))
  = ["data:image/png;base64,QUFB"; "data:image/png;base64,QkJC";
     "data:image/png;base64,QUFB"; "data:image/jpeg;base64,QkJC";
     "data:image/gif;base64,Q0ND"]%string.
Proof.
  apply (mixed_drop_keeps_every_image Sample.uuid
           [Sample.png; Sample.notes; Sample.jpeg; Sample.gif]
           [Sample.blank; Sample.plateA] 3).
  - by vm_compute.
  - repeat constructor; by vm_compute.
Defined.

(** ** What a batch leaves to do *)

Lemma isValid_with_status_error p :
  isValid p = true -> isValid (with_status p error) = true.
Proof.
  unfold isValid. cbn. destruct (truthy (source p)), (truthy (target p)); done.
Qed.

Lemma isValid_with_status_completed p :
  isValid (with_status p completed) = false.
Proof.
  unfold isValid. cbn. by destruct (truthy (source p)), (truthy (target p)).
Qed.

Lemma filter_isValid_notCompleted (l : list PendingPair) :
  filter isValid (filter notCompleted l) = filter isValid l.
Proof.
  induction l as [|p l IH]; [done|].
  destruct (notCompleted p) eqn:Hnc.
  - rewrite (filter_cons_True notCompleted) by (by apply Is_true_true).
    destruct (isValid p) eqn:Hv.
    + rewrite !(filter_cons_True isValid) by (by apply Is_true_true).
      by rewrite IH.
    + rewrite !(filter_cons_False isValid)
        by (by rewrite Hv; simpl; tauto).
      done.
  - rewrite (filter_cons_False notCompleted) by (rewrite Hnc; simpl; tauto).
    rewrite (filter_cons_False isValid); [done|].
    unfold isValid. rewrite Hnc, andb_false_r. simpl. tauto.
Qed.

(** The qualifying pairs of a relabelled list are the failures. *)
Lemma filter_isValid_relabelled env sd (g : PendingPair -> PendingPair)
    (l : list PendingPair) :
  forall j,
    (forall a A, filter isValid l !! a = Some A ->
                 g A = with_status A (finalStatus env (j + a) sd A)) ->
    (forall p, p ∈ l -> isValid p = false -> g p = p) ->
    filter isValid (map g l)
    = map (fun p => with_status p error)
        (failedOf env j sd (filter isValid l)).
Proof.
  induction l as [|p l IH]; intros j Hq Ho; [done|].
  cbn [map]. destruct (isValid p) eqn:Hv.
  - rewrite (filter_cons_True isValid p) in * by (by apply Is_true_true).
    pose proof (Hq 0 p eq_refl) as Hp. rewrite Nat.add_0_r in Hp.
    cbn [failedOf]. rewrite Hp. unfold finalStatus.
    destruct (succeeds env j sd p).
    + rewrite filter_cons_False
        by (rewrite isValid_with_status_completed; simpl; tauto).
      apply IH.
      * intros a A Ha. rewrite Nat.add_succ_comm. by apply (Hq (S a)).
      * intros q Hin. apply Ho. by right.
    + rewrite filter_cons_True
        by (apply Is_true_true; by apply isValid_with_status_error).
      cbn [map]. f_equal. apply IH.
      * intros a A Ha. rewrite Nat.add_succ_comm. by apply (Hq (S a)).
      * intros q Hin. apply Ho. by right.
  - rewrite (filter_cons_False isValid p) in * by (rewrite Hv; simpl; tauto).
    rewrite (Ho p) by (done || left).
    rewrite filter_cons_False by (rewrite Hv; simpl; tauto).
    apply IH; [done|]. intros q Hin. apply Ho. by right.
Qed.

(** X15.  What a batch leaves to do is its failures: with distinct ids, the
    pairs of the pending list that qualify after a batch are the pairs whose
    call failed, in their order, each marked [error]; so the next batch
    calls the service for them and for no other pair, and after a batch
    without a failure a second run of the batch does nothing. *)
Theorem batch_leaves_the_failures (env : Env) (st : State) :
  let sd := styleDirective st in
  let vs := filter isValid (pendingPairs st) in
  NoDup (map id (pendingPairs st)) ->
  filter isValid (pendingPairs (processBatch env st))
  = map (fun p => with_status p error) (failedOf env 0 sd vs)
  /\ (failedOf env 0 sd vs = [] ->
      processBatch env (processBatch env st) = processBatch env st).
Proof.
  intros sd vs Hnd.
  assert (filter isValid (pendingPairs (processBatch env st))
          = map (fun p => with_status p error) (failedOf env 0 sd vs)) as H.
  { destruct vs as [|v vs'] eqn:Hvs.
    { subst vs. by rewrite processBatch_noop, Hvs. }
    rewrite <- Hvs. rewrite processBatch_spec by (fold vs; by rewrite Hvs).
    cbn [pendingPairs]. fold sd.
    change (filter isValid (pendingPairs st)) with vs.
    rewrite marked_relabel by (by apply NoDup_ids_filter).
    assert (filter isValid (map (relabel env 0 sd vs) (pendingPairs st))
            = map (fun p => with_status p error) (failedOf env 0 sd vs))
      as Hrel.
    { apply filter_isValid_relabelled.
      - intros a A Ha. by apply relabel_qualifying.
      - intros p Hp Hv. by apply relabel_other. }
    unfold purgeCompleted.
    destruct (0 <? length (filter notCompleted
                             (map (relabel env 0 sd vs) (pendingPairs st))))
      eqn:Hlen; cbn [fst].
    - by rewrite filter_isValid_notCompleted.
    - rewrite <- Hrel. apply Nat.ltb_ge in Hlen.
      rewrite <- (filter_isValid_notCompleted (map _ (pendingPairs st))).
      rewrite (nil_length_inv (filter notCompleted _)) by lia.
      rewrite filter_cons_False; [done|]. simpl. tauto. }
  split; [done|].
  intros Hnone. apply processBatch_noop. by rewrite H, Hnone.
Qed.

Lemma batch_leaves_the_failures_witness :
  filter isValid (pendingPairs (processBatch Sample.flaky (Sample.panel 0 [])))
  = [with_status Sample.plateB error].
Proof.
  apply (batch_leaves_the_failures Sample.flaky (Sample.panel 0 [])).
  apply (bool_decide_unpack (NoDup ["a"; "b"; "c"]%string)).
  vm_compute. exact I.
Defined.

(** ** Identifiers *)

Lemma uuid_inj n : forall m, Sample.uuid n = Sample.uuid m -> n = m.
Proof.
  induction n as [|n IH]; intros [|m] H; simpl in H; try done.
  injection H as H. f_equal. by apply IH.
Qed.

(** X16.  The ids of the pending list, which are the keys of the plates,
    never repeat: when [crypto.randomUUID] gives no identifier twice, after
    any sequence of operations on the mounted panel, however the service
    answers in each of them, the list is not empty, its ids are pairwise
    distinct, and each of them is an identifier drawn so far. *)
Theorem pending_ids_stay_distinct (uuidOf : nat -> string) (proj : Project)
    (steps : list (Env * Operation)) :
  (forall n m, uuidOf n = uuidOf m -> n = m) ->
  let st := run uuidOf steps (initialState uuidOf proj) in
  pendingPairs st <> []
  /\ NoDup (map id (pendingPairs st))
  /\ (forall p, p ∈ pendingPairs st ->
        exists n, n < uuids st /\ id p = uuidOf n).
Proof.
  intros Hinj st.
  destruct (reachable_wellKept uuidOf proj steps Hinj) as (Hne & Hnd & Hd).
  split_and!; [done|done|].
  unfold drawnBefore in Hd. rewrite Forall_forall in Hd. exact Hd.
Qed.

Lemma pending_ids_stay_distinct_witness :
  NoDup (map id (pendingPairs
                   (run Sample.uuid
                      [(Sample.quiet,
                        DoBatchDrop [Sample.png; Sample.jpeg; Sample.gif]
                          mixed);
                       (Sample.quiet,
                        DoBatchDrop [Sample.gif; Sample.png] beta);
                       (Sample.down, DoProcessBatch);
                       (Sample.flaky, DoProcessBatch);
                       (Sample.quiet, DoAddPair)]
                      (initialState Sample.uuid (mkProject 0 []))))).
Proof.
  apply (pending_ids_stay_distinct Sample.uuid (mkProject 0 [])
           [(Sample.quiet,
             DoBatchDrop [Sample.png; Sample.jpeg; Sample.gif] mixed);
            (Sample.quiet, DoBatchDrop [Sample.gif; Sample.png] beta);
            (Sample.down, DoProcessBatch);
            (Sample.flaky, DoProcessBatch);
            (Sample.quiet, DoAddPair)]).
  intros n m. apply uuid_inj.
Defined.

(** The shots of a batch carry identifiers drawn during it, in order. *)
Lemma shotsMade_ids env vs : forall j sd u c,
  map shot_id (shotsMade env j sd vs u c)
  `sublist_of` map (randomUUID env) (seq u (numbersUsed env j sd vs)).
Proof.
  induction vs as [|p rest IH]; intros j sd u c; [done|].
  cbn [shotsMade numbersUsed]. unfold consumes, outcome.
  destruct (parsed env j sd p) as [[|result]|err]; cbn [Nat.add map seq].
  - apply sublist_cons, IH.
  - apply sublist_skip, IH.
  - apply IH.
Qed.

Lemma purgeCompleted_uuids uuidOf l u :
  u <= snd (purgeCompleted uuidOf (l, u)).
Proof.
  unfold purgeCompleted.
  destruct (0 <? length (filter notCompleted l)); cbn [snd]; lia.
Qed.

(** An operation never takes an identifier back. *)
Lemma perform_uuids env op st : uuids st <= uuids (perform env op st).
Proof.
  destruct op as [|id0|id0 file type|files id0 type|dropped type|
                    |text|num|id0];
    cbn [perform]; unfold withPending, pendingOf; cbn [uuids]; try done.
  - cbn. lia.
  - unfold removePendingPair.
    destruct (length (pendingPairs st) <=? 1); cbn; lia.
  - unfold handleImageUpload. destruct (negb (isImage file)); cbn; lia.
  - destruct files as [|file rest]; cbn [handleDropSlot snd]; [lia|].
    unfold handleImageUpload. destruct (negb (isImage file)); cbn; lia.
  - unfold handleBatchDrop.
    destruct (length (filter isImage dropped) =? 0); [cbn; lia|].
    destruct type.
    + destruct (forEachColumn_spec (randomUUID env) source_slot
                  (map processFile (filter isImage dropped)) 0
                  (pendingPairs st) (uuids st)) as (_ & -> & _); lia.
    + destruct (forEachColumn_spec (randomUUID env) target_slot
                  (map processFile (filter isImage dropped)) 0
                  (pendingPairs st) (uuids st)) as (_ & -> & _); lia.
    + pose proof (newPairsOf_spec (randomUUID env)
                    (map processFile (filter isImage dropped)) (uuids st))
        as (_ & Hu & _).
      destruct (newPairsOf (randomUUID env) _ (uuids st)) as [newPairs u'].
      cbn [snd] in *. lia.
  - destruct (filter isValid (pendingPairs st)) as [|v vs] eqn:Hvs.
    + by rewrite processBatch_noop.
    + rewrite processBatch_spec by (rewrite Hvs; done). cbn [uuids].
      pose proof (purgeCompleted_uuids (randomUUID env)
                    (marked env 0 (styleDirective st)
                       (filter isValid (pendingPairs st)) (pendingPairs st))
                    (uuids st + numbersUsed env 0 (styleDirective st)
                                  (filter isValid (pendingPairs st)))).
      lia.
Qed.

(** Every operation keeps the ids of the shots distinct identifiers drawn
    so far. *)
Lemma perform_shot_ids env op st :
  (forall n m, randomUUID env n = randomUUID env m -> n = m) ->
  NoDup (map shot_id (shots (project st)))
  /\ Forall (fun i => exists n, n < uuids st /\ i = randomUUID env n)
       (map shot_id (shots (project st))) ->
  NoDup (map shot_id (shots (project (perform env op st))))
  /\ Forall (fun i => exists n,
               n < uuids (perform env op st) /\ i = randomUUID env n)
       (map shot_id (shots (project (perform env op st)))).
Proof.
  intros Hinj [Hnd Hd].
  pose proof (perform_uuids env op st) as Hu.
  assert (Forall (fun i => exists n,
                    n < uuids (perform env op st) /\ i = randomUUID env n)
            (map shot_id (shots (project st)))) as Hd'.
  { eapply Forall_impl; [exact Hd|]. intros i (n & Hn & ->).
    exists n. split; [lia|done]. }
  destruct op as [|id0|id0 file type|files id0 type|dropped type|
                    |text|num|id0]; try (by split).
  - revert Hu Hd'. cbn [perform].
    destruct (filter isValid (pendingPairs st)) as [|v vs] eqn:Hvs.
    { rewrite processBatch_noop by done. by split. }
    rewrite processBatch_spec by (rewrite Hvs; done).
    cbn [project shots uuids]. rewrite Hvs.
    set (sd := styleDirective st). set (l := v :: vs).
    intros Hu Hd'.
    pose proof (purgeCompleted_uuids (randomUUID env)
                  (marked env 0 sd l (pendingPairs st))
                  (uuids st + numbersUsed env 0 sd l)) as Hpurge.
    pose proof (shotsMade_ids env l 0 sd (uuids st)
                  (firstSequenceNumber (project st))) as Hsub.
    assert (forall i,
              i ∈ map shot_id
                    (shotsMade env 0 sd l (uuids st)
                       (firstSequenceNumber (project st))) ->
              exists n, uuids st <= n < uuids st + numbersUsed env 0 sd l
                        /\ i = randomUUID env n) as Hnew.
    { intros i Hi. eapply elem_of_sublist in Hi; [|exact Hsub].
      apply list_elem_of_In, in_map_iff in Hi as (n & <- & Hn).
      apply in_seq in Hn. by exists n. }
    rewrite map_app. split.
    + apply NoDup_app. split_and!; [done| |].
      * intros i Hi Hin. rewrite Forall_forall in Hd.
        destruct (Hd i Hi) as (n & Hn & ->).
        destruct (Hnew _ Hin) as (m & Hm & Heq).
        apply Hinj in Heq. lia.
      * eapply sublist_NoDup; [|exact Hsub].
        apply NoDup_fmap_2; [|apply NoDup_seq]. intros n m. apply Hinj.
    + apply Forall_app. split; [done|].
      apply Forall_forall. intros i Hi.
      destruct (Hnew _ Hi) as (m & Hm & ->). exists m. split; [lia|done].
  - cbn [perform onUpdateProject project deleteShot shots uuids] in *.
    assert (map shot_id
              (filter (fun s => negb (String.eqb (shot_id s) id0))
                 (shots (project st)))
            `sublist_of` map shot_id (shots (project st))) as Hsub.
    { apply (fmap_sublist shot_id). apply sublist_filter. }
    split.
    + by eapply sublist_NoDup.
    + rewrite Forall_forall in Hd'. apply Forall_forall. intros i Hi.
      apply Hd'. by eapply elem_of_sublist.
Qed.

(** X17.  The ids of the shots, which are the keys of the listed shots,
    never repeat either: when [crypto.randomUUID] gives no identifier
    twice, after any sequence of operations on the panel mounted on a
    project without shots, however the service answers in each of them,
    the shots of the project have pairwise distinct ids, each an identifier
    drawn so far. *)
Theorem shot_ids_stay_distinct (uuidOf : nat -> string) (start : Z)
    (steps : list (Env * Operation)) :
  (forall n m, uuidOf n = uuidOf m -> n = m) ->
  let st := run uuidOf steps (initialState uuidOf (mkProject start [])) in
  NoDup (map shot_id (shots (project st)))
  /\ (forall s, s ∈ shots (project st) ->
        exists n, n < uuids st /\ shot_id s = uuidOf n).
Proof.
  intros Hinj.
  assert (forall st,
            NoDup (map shot_id (shots (project st)))
            /\ Forall (fun i => exists n, n < uuids st /\ i = uuidOf n)
                 (map shot_id (shots (project st))) ->
            NoDup (map shot_id (shots (project (run uuidOf steps st))))
            /\ Forall (fun i => exists n,
                         n < uuids (run uuidOf steps st) /\ i = uuidOf n)
                 (map shot_id (shots (project (run uuidOf steps st)))))
    as Hrun.
  { induction steps as [|[w op] steps IH]; intros st Hst; [done|].
    cbn [run fold_left fst snd]. apply IH.
    by apply (perform_shot_ids (inSession uuidOf w) op st). }
  intros st. destruct (Hrun (initialState uuidOf (mkProject start [])))
    as [Hnd Hd].
  { split; [apply NoDup_nil_2|by apply Forall_nil]. }
  split; [done|]. intros s Hs. rewrite Forall_forall in Hd.
  apply Hd. apply list_elem_of_In, in_map, list_elem_of_In. done.
Qed.

Lemma shot_ids_stay_distinct_witness :
  NoDup (map shot_id
           (shots (project
                     (run Sample.uuid
                        [(Sample.quiet,
                          DoBatchDrop [Sample.png; Sample.jpeg; Sample.gif;
                                       Sample.png] mixed);
                         (Sample.hollow, DoProcessBatch);
                         (Sample.quiet, DoProcessBatch);
                         (Sample.quiet, DoDeleteShot "xxxu");
                         (Sample.quiet,
                          DoBatchDrop [Sample.gif; Sample.png] mixed);
                         (Sample.quiet, DoProcessBatch)]
                        (initialState Sample.uuid (mkProject 0 [])))))).
Proof.
  apply (shot_ids_stay_distinct Sample.uuid 0
           [(Sample.quiet,
             DoBatchDrop [Sample.png; Sample.jpeg; Sample.gif; Sample.png]
               mixed);
            (Sample.hollow, DoProcessBatch);
            (Sample.quiet, DoProcessBatch);
            (Sample.quiet, DoDeleteShot "xxxu");
            (Sample.quiet, DoBatchDrop [Sample.gif; Sample.png] mixed);
            (Sample.quiet, DoProcessBatch)]).
  intros n m. apply uuid_inj.
Defined.

(** ** The previous list, object by object *)

(** X18.  Every handler but the column drops copies before it writes: in
    the store with object identity, the array the panel held before reads,
    in the heap an operation leaves, as it read before, for adding and
    removing a plate, an upload to a slot, a status update, a mixed drop and
    the purge. *)
Theorem handlers_copy_before_writing (uuidOf : nat -> string)
    (st : Refs.Store) :
  Refs.wf st ->
  let before := Refs.view (Refs.heap st) (Refs.refs st) in
  let after (st' : Refs.Store) := Refs.view (Refs.heap st') (Refs.refs st) in
  after (Refs.addPair uuidOf st) = before
  /\ (forall id0, after (Refs.removePendingPair uuidOf id0 st) = before)
  /\ (forall id0 file type,
        after (Refs.handleImageUpload id0 file type st) = before)
  /\ (forall id0 s, after (Refs.setStatus id0 s st) = before)
  /\ (forall dropped,
        after (Refs.handleBatchDrop uuidOf dropped mixed st) = before)
  /\ after (Refs.purgeCompleted uuidOf st) = before.
Proof.
  intros Hwf before after. pose proof Hwf as [Hin _]. unfold after, before.
  split_and!; intros; apply RefsFacts.preserves_view; try done.
  - by apply RefsFacts.addPair_refines.
  - by apply RefsFacts.removePendingPair_refines.
  - by apply RefsFacts.handleImageUpload_refines.
  - by apply RefsFacts.setStatus_refines.
  - apply RefsFacts.mixed_drop_preserves.
  - by apply RefsFacts.purgeCompleted_refines.
Qed.

Lemma handlers_copy_before_writing_witness :
  Refs.view
    (Refs.heap (Refs.handleImageUpload "a" Sample.gif source_slot
                  (Refs.mkStore [Sample.plateA; Sample.blank] [0; 1] 2)))
    [0; 1]
  = [Sample.plateA; Sample.blank].
Proof.
  assert (Refs.wf (Refs.mkStore [Sample.plateA; Sample.blank] [0; 1] 2))
    as Hwf.
  { split; [repeat constructor|].
    apply (bool_decide_unpack (NoDup [0; 1])). vm_compute. exact I. }
  destruct (handlers_copy_before_writing Sample.uuid _ Hwf)
    as (_ & _ & H & _).
  apply (H "a"%string Sample.gif source_slot).
Defined.

(** X19.  A column drop does not: whatever the list, the array the panel
    held before reads, in the heap the drop leaves, as the first pairs of
    the new list, and so shows image [i] of the drop in the column's field
    of its pair [i]. *)
Theorem column_drop_shows_in_previous_list (uuidOf : nat -> string)
    (type : SlotType) (dropped : list File) (st : Refs.Store) :
  Refs.wf st ->
  let st' := Refs.handleBatchDrop uuidOf dropped (zoneOf type) st in
  let previous := Refs.view (Refs.heap st') (Refs.refs st) in
  previous
  = take (length (Refs.refs st))
      (fst (handleBatchDrop uuidOf dropped (zoneOf type) (Refs.denote st)))
  /\ (forall i img,
        i < length (Refs.refs st) ->
        decoded dropped !! i = Some img ->
        exists q, previous !! i = Some q /\ field type q = Some img).
Proof.
  intros Hwf st' previous.
  assert (previous
          = take (length (Refs.refs st))
              (fst (handleBatchDrop uuidOf dropped (zoneOf type)
                      (Refs.denote st)))) as Hprev.
  { by apply RefsFacts.column_drop_previous_list. }
  split; [done|].
  intros i img Hi Himg. rewrite Hprev, lookup_take_lt by done.
  unfold Refs.denote.
  rewrite handleBatchDrop_column, forEachColumn_closed.
  rewrite columnFilled_lookup
    by (apply lookup_lt_Some in Himg; lia).
  eexists. split; [done|]. unfold inColumn. rewrite Himg.
  apply with_field_field.
Qed.

Lemma column_drop_shows_in_previous_list_witness :
  exists q,
    Refs.view
      (Refs.heap (Refs.handleBatchDrop Sample.uuid [Sample.gif; Sample.png]
                    beta
                    (Refs.mkStore [Sample.plateA; Sample.blank] [0; 1] 2)))
      [0; 1] !! 1 = Some q
    /\ target q = Some "data:image/png;base64,QUFB"%string.
Proof.
  assert (Refs.wf (Refs.mkStore [Sample.plateA; Sample.blank] [0; 1] 2))
    as Hwf.
  { split; [repeat constructor|].
    apply (bool_decide_unpack (NoDup [0; 1])). vm_compute. exact I. }
  destruct (column_drop_shows_in_previous_list Sample.uuid target_slot
              [Sample.gif; Sample.png] _ Hwf) as [_ H].
  apply (H 1 "data:image/png;base64,QUFB"%string); [simpl; lia|reflexivity].
Defined.

(** ** The further statements on the sample data *)

Lemma add_then_remove_witness :
  removePendingPair Sample.uuid (Sample.uuid 3)
    (addPair Sample.uuid ([Sample.plateA; Sample.plateB], 3))
  = ([Sample.plateA; Sample.plateB], 4).
Proof.
  apply (add_then_remove Sample.uuid [Sample.plateA; Sample.plateB] 3).
  - done.
  - apply (bool_decide_unpack (Sample.uuid 3 ∉ ["a"; "b"]%string)).
    vm_compute. exact I.
Defined.

Lemma remove_takes_one_pair_witness :
  removePendingPair Sample.uuid "b"
    ([Sample.plateA; Sample.plateB; Sample.blank], 3)
  = ([Sample.plateA; Sample.blank], 3).
Proof.
  destruct (remove_takes_one_pair Sample.uuid
              [Sample.plateA; Sample.plateB; Sample.blank] 3) as [H _].
  - apply (bool_decide_unpack (NoDup ["a"; "b"; "c"]%string)).
    vm_compute. exact I.
  - simpl. lia.
  - apply (H 1 Sample.plateB). reflexivity.
Defined.

Lemma deleted_number_is_reused_witness :
  ~ NoDup (map sequenceOrder
             (shots (project
                       (processBatch Sample.quiet
                          (onUpdateProject (deleteShot "s1")
                             (Sample.panel 0 Reel.three)))))).
Proof.
  destruct (deleted_number_is_reused Sample.quiet
              (Sample.panel 0 Reel.three) 0 (Reel.shot "s1" 1)
              0 Sample.plateA)
    as (last & new & _ & _ & _ & _ & _ & H).
  - intros [|[|[|i]]] s Hs; vm_compute in Hs; try done;
      injection Hs as <-; reflexivity.
  - by vm_compute.
  - by vm_compute.
  - apply (bool_decide_unpack (NoDup ["s1"; "s2"; "s3"]%string)).
    vm_compute. exact I.
  - reflexivity.
  - simpl. lia.
  - reflexivity.
  - reflexivity.
  - reflexivity.
  - exact H.
Defined.
